(** * A bounded channel with a multi-way select: model and properties

    The development embeds [channel.c] and [linked_list.c] in Rocq and
    proves the properties the specification states about them.

    Layout of the model.
    - The heap of channel structures is a finite map from addresses to
      [chan_t] records.  A channel is reached through its address, so
      two select entries that name one channel share its state.
    - The buffer and the two waiter lists of a channel are reached only
      through the channel that owns them: they are stored in the
      channel record.  A list pointer may be [NULL] (an allocation of
      [list_create] that failed), which is [None].
    - Semaphores live in a second finite map, from the address of a
      [sem_t] to its count.
    - [linked_list.c] is embedded a second time in the module [Nodes],
      node by node: list headers and nodes are blocks of a heap, linked
      by their [next] and [prev] pointers.  The last part of the file
      relates the two views of a list.
    - [channel_create] and [channel_destroy] are embedded a second time
      in the module [Blocks], on the level on which the structure, the
      buffer, the lists and the objects of the thread library are
      allocated and released one by one.
    - Code runs in the monad [M], which follows one thread: a call
      either returns a value and a new world, or reaches a wait of the
      thread library (a mutex held elsewhere, [pthread_cond_wait],
      [sem_wait]), or has undefined behaviour.  A call that reached
      [pthread_cond_wait] or [sem_wait] goes on with its [_wake]
      function once the wait is over; between the two, other threads
      may have changed the world.
    - The properties are stated for worlds in which no other thread is
      inside a call: all mutexes are free. *)

From stdpp Require Import gmap list.
From Stdlib Require Import ZArith Lia.

Open Scope Z_scope.

(** * The model *)

(** ** Machine data *)

(** Addresses; [NULL] is the null pointer. *)
Abbreviation ptr := Z.
Definition NULL : ptr := 0.

(** The opaque [void*] payload carried by a channel. *)
Abbreviation val := Z.

(** [size_t] arithmetic wraps around (64-bit target). *)
Definition SIZE_WIDTH : Z := 64.
Definition size_wrap (z : Z) : Z := z mod 2 ^ SIZE_WIDTH.

(** Modelled from the spec: [channel.h] is not part of the sources.
    [enum chan_status] has the five status codes of spec section 6,
    under the names [channel.c] uses; their numeric values play no
    role. *)
Inductive chan_status : Type :=
| SUCCESS
| WOULDBLOCK
| CLOSED_ERROR
| DESTROY_ERROR
| OTHER_ERROR.

Global Instance chan_status_eq_dec : EqDecision chan_status.
Proof. solve_decision. Defined.

(** ** The thread library *)

(** A default (non-recursive, non-robust) [pthread_mutex_t]. *)
Inductive mutex_t : Type :=
| MutexUninit   (* not initialised, or destroyed *)
| MutexFree
| MutexHeld.

Global Instance mutex_t_eq_dec : EqDecision mutex_t.
Proof. solve_decision. Defined.

(** A [pthread_cond_t]. *)
Inductive cond_t : Type :=
| CondUninit
| CondReady.

Global Instance cond_t_eq_dec : EqDecision cond_t.
Proof. solve_decision. Defined.

Definition EINVAL : Z := 22.

(** ** linked_list.c: data *)

(** Modelled from the spec: [linked_list.h] is not part of the sources;
    the layout is the one [linked_list.c] works on, the intrusive
    doubly-linked list of spec section 1.  [list_t] is the chain of
    nodes reached from [head], given by the [data] field of each node
    in chain order, and the [count] field (a [size_t]).  A
    [list_node_t*] into the chain is the position of the node; [None]
    is [NULL]. *)
Record list_t : Type := mk_list {
  head : list ptr;
  count : Z
}.

(** ** The bounded buffer *)

(** Modelled from the spec: [buffer.c] is not part of the sources.  The
    specification (section 4.4) asks for a fixed-capacity FIFO of
    opaque values with [create(capacity)], [free()], [capacity()],
    [size()], [push(value)] (precondition [size < capacity]) and
    [pop()] (precondition [size > 0]).  Items are kept oldest first. *)
Record buffer_t : Type := mk_buffer {
  buf_capacity : Z;
  buf_items : list val
}.

(** Modelled from the spec: [create(capacity)] of section 4.4, an
    empty buffer of the given capacity. *)
Definition buffer_create (size : Z) : buffer_t :=
  {| buf_capacity := size; buf_items := [] |}.

(** Modelled from the spec: [capacity()] of section 4.4. *)
Definition buffer_capacity (b : buffer_t) : Z := buf_capacity b.

(** Modelled from the spec: [size()] of section 4.4. *)
Definition buffer_current_size (b : buffer_t) : Z :=
  Z.of_nat (length (buf_items b)).

(** Modelled from the spec: [push(value)] of section 4.4, at the tail.
    [None]: the precondition [size < capacity] does not hold. *)
Definition buffer_add (data : val) (b : buffer_t) : option buffer_t :=
  if buffer_current_size b <? buffer_capacity b
  then Some {| buf_capacity := buf_capacity b;
               buf_items := buf_items b ++ [data] |}
  else None.

(** Modelled from the spec: [pop()] of section 4.4, the oldest value.
    [None]: the precondition [size > 0] does not hold. *)
Definition buffer_remove (b : buffer_t) : option (val * buffer_t) :=
  match buf_items b with
  | [] => None
  | x :: rest =>
      Some (x, {| buf_capacity := buf_capacity b; buf_items := rest |})
  end.

(** ** channel.h: data *)

(** Modelled from the spec: [channel.h] is not part of the sources.
    [chan_t] is the channel of spec section 3, with the field names
    [channel.c] uses. *)
Record chan_t : Type := mk_chan {
  buffer : buffer_t;
  mutex : mutex_t;
  send_list_mutex : mutex_t;
  receive_list_mutex : mutex_t;
  send_condition : cond_t;
  receive_condition : cond_t;
  send_list : option list_t;
  receive_list : option list_t;
  closed : bool
}.

(** Modelled from the spec: the select entry of spec section 6, with
    the field names [channel_select] uses. *)
Record select_t : Type := mk_select {
  channel : ptr;
  is_send : bool;
  data : val
}.

(** ** Worlds and the monad of the code *)

(** The memory and the environment of the program. *)
Record world : Type := mk_world {
  chans : gmap Z chan_t;   (* allocated channel structures *)
  sems : gmap Z nat;       (* initialised semaphores and their counts *)
  oracle : list bool       (* results of the coming fallible library
                              calls ([malloc], [sem_init]), in call
                              order; [true] is success, and so is every
                              call after the list is used up *)
}.

(** The mutexes and the condition variables of a channel, named by
    their fields. *)
Inductive mutex_field : Type :=
| Fmutex
| Fsend_list_mutex
| Freceive_list_mutex.

Inductive cond_field : Type :=
| Fsend_condition
| Freceive_condition.

(** The wait a thread has reached. *)
Inductive wait_point : Type :=
| OnMutex (c : ptr) (f : mutex_field)
| OnCond (c : ptr) (f : cond_field)
| OnSem (s : ptr).

(** What running a piece of code leads to. *)
Inductive outcome (A : Type) : Type :=
| Ret (a : A) (w : world)           (* the code returned [a] *)
| Wait (p : wait_point) (w : world) (* the thread has reached wait [p] *)
| Undef.                            (* undefined behaviour *)

Arguments Ret {A} a w.
Arguments Wait {A} p w.
Arguments Undef {A}.

(** Code that computes an [A]. *)
Definition M (A : Type) : Type := world -> outcome A.

Definition ret {A} (a : A) : M A := fun w => Ret a w.

(** Sequencing: a wait or undefined behaviour in [m] ends the run. *)
Definition bind {A B} (m : M A) (k : A -> M B) : M B :=
  fun w =>
    match m w with
    | Ret a w' => k a w'
    | Wait p w' => Wait p w'
    | Undef => Undef
    end.

Definition undef {A} : M A := fun _ => Undef.

Definition wait {A} (p : wait_point) : M A := fun w => Wait p w.

Declare Scope chan_scope.
Delimit Scope chan_scope with chan.
Notation "'let*' x ':=' m 'in' k" := (bind m (fun x => k))
  (at level 10, x pattern, m at level 100, k at level 200) : chan_scope.
Notation "m ';;' k" := (bind m (fun _ => k))
  (at level 100, k at level 200, right associativity,
   only parsing) : chan_scope.
Open Scope chan_scope.

(** The next outcome of a fallible library call. *)
Definition next_outcome : M bool :=
  fun w =>
    match oracle w with
    | [] => Ret true w
    | ok :: rest =>
        Ret ok {| chans := chans w; sems := sems w; oracle := rest |}
    end.

(** [malloc]: [true] when the block was obtained. *)
Definition malloc : M bool := next_outcome.

(** Reading and writing the structure at [c]; a dangling or null [c]
    is undefined behaviour. *)
Definition get_chan (c : ptr) : M chan_t :=
  fun w =>
    match chans w !! c with
    | Some ch => Ret ch w
    | None => Undef
    end.

Definition put_chan (c : ptr) (ch : chan_t) : M unit :=
  fun w =>
    match chans w !! c with
    | Some _ =>
        Ret tt {| chans := <[c := ch]> (chans w);
                  sems := sems w; oracle := oracle w |}
    | None => Undef
    end.

(** Field updates of [chan_t]. *)
Definition set_buffer (b : buffer_t) (ch : chan_t) : chan_t :=
  {| buffer := b; mutex := mutex ch;
     send_list_mutex := send_list_mutex ch;
     receive_list_mutex := receive_list_mutex ch;
     send_condition := send_condition ch;
     receive_condition := receive_condition ch;
     send_list := send_list ch; receive_list := receive_list ch;
     closed := closed ch |}.

Definition set_closed (b : bool) (ch : chan_t) : chan_t :=
  {| buffer := buffer ch; mutex := mutex ch;
     send_list_mutex := send_list_mutex ch;
     receive_list_mutex := receive_list_mutex ch;
     send_condition := send_condition ch;
     receive_condition := receive_condition ch;
     send_list := send_list ch; receive_list := receive_list ch;
     closed := b |}.

Definition get_mutex (f : mutex_field) (ch : chan_t) : mutex_t :=
  match f with
  | Fmutex => mutex ch
  | Fsend_list_mutex => send_list_mutex ch
  | Freceive_list_mutex => receive_list_mutex ch
  end.

Definition set_mutex (f : mutex_field) (m : mutex_t) (ch : chan_t) : chan_t :=
  {| buffer := buffer ch;
     mutex := match f with Fmutex => m | _ => mutex ch end;
     send_list_mutex :=
       match f with Fsend_list_mutex => m | _ => send_list_mutex ch end;
     receive_list_mutex :=
       match f with
       | Freceive_list_mutex => m
       | _ => receive_list_mutex ch
       end;
     send_condition := send_condition ch;
     receive_condition := receive_condition ch;
     send_list := send_list ch; receive_list := receive_list ch;
     closed := closed ch |}.

Definition get_cond (f : cond_field) (ch : chan_t) : cond_t :=
  match f with
  | Fsend_condition => send_condition ch
  | Freceive_condition => receive_condition ch
  end.

Definition set_cond (f : cond_field) (cv : cond_t) (ch : chan_t) : chan_t :=
  {| buffer := buffer ch; mutex := mutex ch;
     send_list_mutex := send_list_mutex ch;
     receive_list_mutex := receive_list_mutex ch;
     send_condition :=
       match f with Fsend_condition => cv | _ => send_condition ch end;
     receive_condition :=
       match f with
       | Freceive_condition => cv
       | _ => receive_condition ch
       end;
     send_list := send_list ch; receive_list := receive_list ch;
     closed := closed ch |}.

(** The waiter list of a direction and its mutex: [send_list] with
    [send_list_mutex] when [is_send], otherwise [receive_list] with
    [receive_list_mutex]. *)
Definition get_list (is_send : bool) (ch : chan_t) : option list_t :=
  if is_send then send_list ch else receive_list ch.

Definition set_list (is_send : bool) (l : option list_t) (ch : chan_t)
  : chan_t :=
  {| buffer := buffer ch; mutex := mutex ch;
     send_list_mutex := send_list_mutex ch;
     receive_list_mutex := receive_list_mutex ch;
     send_condition := send_condition ch;
     receive_condition := receive_condition ch;
     send_list := if is_send then l else send_list ch;
     receive_list := if is_send then receive_list ch else l;
     closed := closed ch |}.

Definition list_mutex (is_send : bool) : mutex_field :=
  if is_send then Fsend_list_mutex else Freceive_list_mutex.

(** ** linked_list.c *)

(** [list_create]: [NULL] when [malloc] fails. *)
Definition list_create : M (option list_t) :=
  let* ok := malloc in
  if ok then ret (Some {| head := []; count := 0 |}) else ret None.

(** [list_destroy].  The loop frees [temp_node] and moves [list->head]
    to [temp_node->next], but never moves [temp_node]: with two nodes
    or more the second iteration reads [temp_node->next] from the freed
    node and frees that node again.  A list of this model has no blocks
    of its own; [Nodes.list_destroy] frees the nodes and the header. *)
Definition list_destroy (list : option list_t) : M unit :=
  match list with
  | None => ret tt
  | Some l =>
      match head l with
      | [] => ret tt
      | [_] => ret tt
      | _ :: _ :: _ => undef
      end
  end.

Definition list_count (list : option list_t) : Z :=
  match list with
  | Some l => count l
  | None => 0
  end.

(** The [while] loop of [list_find]: walks the chain from position [i]
    and stops at the first node whose [data] is the pointer sought. *)
Fixpoint find_node (nodes : list ptr) (data : ptr) (i : nat) : option nat :=
  match nodes with
  | [] => None
  | d :: rest => if d =? data then Some i else find_node rest data (S i)
  end.

Definition list_find (list : option list_t) (data : ptr) : option nat :=
  match list with
  | Some l => find_node (head l) data 0
  | None => None
  end.

(** [list_insert]: the new node becomes the head; nothing happens when
    the list is [NULL] or the node cannot be allocated. *)
Definition list_insert (list : option list_t) (data : ptr)
  : M (option list_t) :=
  match list with
  | Some l =>
      let* ok := malloc in
      if ok
      then ret (Some {| head := data :: head l;
                        count := size_wrap (count l + 1) |})
      else ret list
  | None => ret list
  end.

(** [list_remove]: unlinks the node at position [node] and decrements
    [count].  The code is only given nodes found in the same list; for
    a position outside the chain the chain is left as it is. *)
Definition list_remove (list : option list_t) (node : option nat)
  : option list_t :=
  match list, node with
  | Some l, Some i =>
      Some {| head := delete i (head l);
              count := size_wrap (count l - 1) |}
  | _, _ => list
  end.

(** [list_foreach], for a non-null [func]: applies it to the data of
    each node from head to tail. *)
Fixpoint foreach_node (nodes : list ptr) (func : ptr -> M unit) : M unit :=
  match nodes with
  | [] => ret tt
  | d :: rest => func d;; foreach_node rest func
  end.

Definition list_foreach (list : option list_t) (func : ptr -> M unit)
  : M unit :=
  match list with
  | Some l => foreach_node (head l) func
  | None => ret tt
  end.

(** ** pthread and semaphore primitives *)

(** [pthread_mutex_init(m, NULL)] and [pthread_cond_init(c, NULL)]
    give [MutexFree] and [CondReady]; [channel_create] writes these
    values into the new structure. *)

(** [pthread_mutex_lock(&c->f)].  The plain lock of a default mutex: it
    takes a free mutex, suspends the thread while the mutex is held,
    and reports [EINVAL] for a mutex that is not initialised. *)
Definition pthread_mutex_lock (c : ptr) (f : mutex_field) : M Z :=
  let* ch := get_chan c in
  match get_mutex f ch with
  | MutexFree => put_chan c (set_mutex f MutexHeld ch);; ret 0
  | MutexHeld => wait (OnMutex c f)
  | MutexUninit => ret EINVAL
  end.

(** [pthread_mutex_unlock(&c->f)]; unlocking a mutex that is not locked
    is undefined. *)
Definition pthread_mutex_unlock (c : ptr) (f : mutex_field) : M Z :=
  let* ch := get_chan c in
  match get_mutex f ch with
  | MutexHeld => put_chan c (set_mutex f MutexFree ch);; ret 0
  | MutexFree => undef
  | MutexUninit => ret EINVAL
  end.

(** [pthread_mutex_destroy(&c->f)]; destroying a locked mutex is
    undefined. *)
Definition pthread_mutex_destroy (c : ptr) (f : mutex_field) : M Z :=
  let* ch := get_chan c in
  match get_mutex f ch with
  | MutexFree => put_chan c (set_mutex f MutexUninit ch);; ret 0
  | MutexHeld => undef
  | MutexUninit => ret EINVAL
  end.

(** [pthread_cond_signal] and [pthread_cond_broadcast]: the threads
    they release are resumed by the [_wake] functions; the condition
    variable itself keeps no state. *)
Definition pthread_cond_signal (c : ptr) (f : cond_field) : M Z :=
  let* ch := get_chan c in
  match get_cond f ch with
  | CondReady => ret 0
  | CondUninit => ret EINVAL
  end.

Definition pthread_cond_broadcast (c : ptr) (f : cond_field) : M Z :=
  let* ch := get_chan c in
  match get_cond f ch with
  | CondReady => ret 0
  | CondUninit => ret EINVAL
  end.

Definition pthread_cond_destroy (c : ptr) (f : cond_field) : M Z :=
  let* ch := get_chan c in
  match get_cond f ch with
  | CondReady => put_chan c (set_cond f CondUninit ch);; ret 0
  | CondUninit => ret EINVAL
  end.

(** [pthread_cond_wait(&c->cv, &c->mutex)] releases the mutex and
    suspends the thread.  When the thread is released,
    [pthread_cond_wait_return] takes the mutex again. *)
Definition pthread_cond_wait {A} (c : ptr) (cv : cond_field)
  (m : mutex_field) : M A :=
  pthread_mutex_unlock c m;; wait (OnCond c cv).

Definition pthread_cond_wait_return (c : ptr) (m : mutex_field) : M unit :=
  pthread_mutex_lock c m;; ret tt.

(** [sem_init(s, 0, 0)]: [-1] when the library refuses. *)
Definition sem_init (s : ptr) : M Z :=
  let* ok := next_outcome in
  if ok
  then fun w => Ret 0 {| chans := chans w; sems := <[s := 0%nat]> (sems w);
                         oracle := oracle w |}
  else ret (-1).

(** [sem_post(s)]; [s] must be an initialised semaphore. *)
Definition sem_post (s : ptr) : M unit :=
  fun w =>
    match sems w !! s with
    | Some n => Ret tt {| chans := chans w; sems := <[s := S n]> (sems w);
                          oracle := oracle w |}
    | None => Undef
    end.

(** [sem_wait(s)]: takes one post, or suspends the thread while the
    count is zero. *)
Definition sem_wait (s : ptr) : M unit :=
  fun w =>
    match sems w !! s with
    | Some (S n) =>
        Ret tt {| chans := chans w; sems := <[s := n]> (sems w);
                  oracle := oracle w |}
    | Some O => Wait (OnSem s) w
    | None => Undef
    end.

Definition sem_destroy (s : ptr) : M unit :=
  fun w =>
    match sems w !! s with
    | Some _ => Ret tt {| chans := chans w; sems := delete s (sems w);
                          oracle := oracle w |}
    | None => Undef
    end.

(** [free(channel)]. *)
Definition free_chan (c : ptr) : M unit :=
  fun w =>
    match chans w !! c with
    | Some _ => Ret tt {| chans := delete c (chans w); sems := sems w;
                          oracle := oracle w |}
    | None => Undef
    end.

(** The address [malloc] hands out for a channel structure: an address
    that is neither null nor in use. *)
Definition new_chan_addr (w : world) : ptr :=
  fresh ({[NULL]} ∪ dom (chans w)).

(** The address of the local [sem_local] of a [channel_select] call: it
    is not the address of a live semaphore. *)
Definition sem_local_addr (w : world) : ptr :=
  fresh ({[NULL]} ∪ dom (sems w)).

(** ** channel.c *)

(** [channel_create]. *)
Definition channel_create (size : Z) : M ptr :=
  let* ok := malloc in
  if negb ok then ret NULL
  else
    let b := buffer_create size in
    let* sl := list_create in
    let* rl := list_create in
    fun w =>
      let channel := new_chan_addr w in
      Ret channel
          {| chans :=
               <[channel :=
                   {| buffer := b;
                      mutex := MutexFree;
                      send_list_mutex := MutexFree;
                      receive_list_mutex := MutexFree;
                      send_condition := CondReady;
                      receive_condition := CondReady;
                      send_list := sl;
                      receive_list := rl;
                      closed := false |}]> (chans w);
             sems := sems w;
             oracle := oracle w |}.

(** The tail that [channel_send], [channel_receive] and
    [channel_close] share: lock the mutex of a waiter list, post every
    token of the list when [list_count] is not zero, unlock. *)
Definition notify_list (channel : ptr) (is_send : bool) : M unit :=
  pthread_mutex_lock channel (list_mutex is_send);;
  let* ch := get_chan channel in
  (if negb (list_count (get_list is_send ch) =? 0)
   then list_foreach (get_list is_send ch) sem_post
   else ret tt);;
  pthread_mutex_unlock channel (list_mutex is_send);;
  ret tt.

(** [channel_send] from "Perform the send operation" on: the mutex is
    held and the buffer has room. *)
Definition channel_send_perform (channel : ptr) (data : val)
  : M chan_status :=
  let* ch := get_chan channel in
  match buffer_add data (buffer ch) with
  | None => undef
  | Some b =>
      put_chan channel (set_buffer b ch);;
      pthread_cond_signal channel Freceive_condition;;
      pthread_mutex_unlock channel Fmutex;;
      notify_list channel false;;
      ret SUCCESS
  end.

(** The test of the [while] loop of a blocking send, with the mutex
    held: a full buffer sends the thread into [pthread_cond_wait]. *)
Definition channel_send_loop (channel : ptr) (data : val) : M chan_status :=
  let* ch := get_chan channel in
  if size_wrap (buffer_capacity (buffer ch)
                - buffer_current_size (buffer ch)) =? 0
  then pthread_cond_wait channel Fsend_condition Fmutex
  else channel_send_perform channel data.

(** A blocking send from the return of [pthread_cond_wait]: the check
    of [closed] in the loop body, then the loop test again. *)
Definition channel_send_wake (channel : ptr) (data : val) : M chan_status :=
  pthread_cond_wait_return channel Fmutex;;
  let* ch := get_chan channel in
  if closed ch
  then pthread_mutex_unlock channel Fmutex;; ret CLOSED_ERROR
  else channel_send_loop channel data.

(** [channel_send] after the lock. *)
Definition channel_send_locked (channel : ptr) (data : val) (blocking : bool)
  : M chan_status :=
  let* ch := get_chan channel in
  if closed ch
  then pthread_mutex_unlock channel Fmutex;; ret CLOSED_ERROR
  else if blocking
  then channel_send_loop channel data
  else if size_wrap (buffer_capacity (buffer ch)
                     - buffer_current_size (buffer ch)) =? 0
  then pthread_mutex_unlock channel Fmutex;; ret WOULDBLOCK
  else channel_send_perform channel data.

Definition channel_send (channel : ptr) (data : val) (blocking : bool)
  : M chan_status :=
  if channel =? NULL then ret OTHER_ERROR
  else
    let* r := pthread_mutex_lock channel Fmutex in
    if negb blocking && negb (r =? 0) then ret WOULDBLOCK
    else channel_send_locked channel data blocking.

(** [channel_receive].  The second component of the result is the
    store to [*data]: [None] when the call does not write it. *)
Definition channel_receive_perform (channel : ptr)
  : M (chan_status * option val) :=
  let* ch := get_chan channel in
  match buffer_remove (buffer ch) with
  | None => undef
  | Some (v, b) =>
      put_chan channel (set_buffer b ch);;
      pthread_cond_signal channel Fsend_condition;;
      pthread_mutex_unlock channel Fmutex;;
      notify_list channel true;;
      ret (SUCCESS, Some v)
  end.

Definition channel_receive_loop (channel : ptr)
  : M (chan_status * option val) :=
  let* ch := get_chan channel in
  if buffer_current_size (buffer ch) =? 0
  then pthread_cond_wait channel Freceive_condition Fmutex
  else channel_receive_perform channel.

Definition channel_receive_wake (channel : ptr)
  : M (chan_status * option val) :=
  pthread_cond_wait_return channel Fmutex;;
  let* ch := get_chan channel in
  if closed ch
  then pthread_mutex_unlock channel Fmutex;; ret (CLOSED_ERROR, None)
  else channel_receive_loop channel.

Definition channel_receive_locked (channel : ptr) (blocking : bool)
  : M (chan_status * option val) :=
  let* ch := get_chan channel in
  if closed ch
  then pthread_mutex_unlock channel Fmutex;; ret (CLOSED_ERROR, None)
  else if blocking
  then channel_receive_loop channel
  else if buffer_current_size (buffer ch) =? 0
  then pthread_mutex_unlock channel Fmutex;; ret (WOULDBLOCK, None)
  else channel_receive_perform channel.

Definition channel_receive (channel : ptr) (blocking : bool)
  : M (chan_status * option val) :=
  if channel =? NULL then ret (OTHER_ERROR, None)
  else
    let* r := pthread_mutex_lock channel Fmutex in
    if negb blocking && negb (r =? 0) then ret (WOULDBLOCK, None)
    else channel_receive_locked channel blocking.

(** [channel_close]. *)
Definition channel_close (channel : ptr) : M chan_status :=
  if channel =? NULL then ret OTHER_ERROR
  else
    pthread_mutex_lock channel Fmutex;;
    let* ch := get_chan channel in
    if closed ch
    then pthread_mutex_unlock channel Fmutex;; ret CLOSED_ERROR
    else
      put_chan channel (set_closed true ch);;
      pthread_cond_broadcast channel Fsend_condition;;
      pthread_cond_broadcast channel Freceive_condition;;
      pthread_mutex_unlock channel Fmutex;;
      notify_list channel true;;
      notify_list channel false;;
      ret SUCCESS.

(** Modelled from the spec: [free()] of section 4.4.  In this model
    the storage of the buffer belongs to the channel record and goes
    with it; [Blocks.buffer_free] releases the block of the buffer. *)
Definition buffer_free (b : buffer_t) : M unit := ret tt.

(** [channel_destroy]. *)
Definition channel_destroy (channel : ptr) : M chan_status :=
  if channel =? NULL then ret OTHER_ERROR
  else
    let* ch := get_chan channel in
    if negb (closed ch) then ret DESTROY_ERROR
    else
      buffer_free (buffer ch);;
      pthread_mutex_destroy channel Fmutex;;
      pthread_mutex_destroy channel Fsend_list_mutex;;
      pthread_mutex_destroy channel Freceive_list_mutex;;
      pthread_cond_destroy channel Fsend_condition;;
      pthread_cond_destroy channel Freceive_condition;;
      list_destroy (send_list ch);;
      list_destroy (receive_list ch);;
      free_chan channel;;
      ret SUCCESS.

(** *** channel_select *)

(** A [for (size_t i = 0; i < channel_count; i++)] loop over
    [channel_list] that leaves the array as it is: [n] iterations are
    left and [i] is the index.  Reading past the end of the array is
    undefined. *)
Fixpoint for_each_entry (n i : nat) (channel_list : list select_t)
  (body : select_t -> M unit) : M unit :=
  match n with
  | O => ret tt
  | S n' =>
      match channel_list !! i with
      | None => undef
      | Some e => body e;; for_each_entry n' (S i) channel_list body
      end
  end.

(** Body of the registration loop: under the mutex of the list, insert
    [&sem_local] unless [list_find] finds it. *)
Definition select_register_entry (sem_local : ptr) (e : select_t) : M unit :=
  pthread_mutex_lock (channel e) (list_mutex (is_send e));;
  let* ch := get_chan (channel e) in
  match list_find (get_list (is_send e) ch) sem_local with
  | None =>
      let* l := list_insert (get_list (is_send e) ch) sem_local in
      put_chan (channel e) (set_list (is_send e) l ch)
  | Some _ => ret tt
  end;;
  pthread_mutex_unlock (channel e) (list_mutex (is_send e));;
  ret tt.

(** Body of the removal loop: under the mutex of the list, remove the
    node [list_find] returns, if any. *)
Definition select_deregister_entry (sem_local : ptr) (e : select_t)
  : M unit :=
  pthread_mutex_lock (channel e) (list_mutex (is_send e));;
  let* ch := get_chan (channel e) in
  match list_find (get_list (is_send e) ch) sem_local with
  | Some node =>
      put_chan (channel e)
        (set_list (is_send e)
           (list_remove (get_list (is_send e) ch) (Some node)) ch)
  | None => ret tt
  end;;
  pthread_mutex_unlock (channel e) (list_mutex (is_send e));;
  ret tt.

(** The operation of one entry, non-blocking.  A receive stores into
    [channel_list[i].data]. *)
Definition select_attempt (i : nat) (e : select_t)
  (channel_list : list select_t) : M (chan_status * list select_t) :=
  if is_send e
  then
    let* status := channel_send (channel e) (data e) false in
    ret (status, channel_list)
  else
    let* (status, slot) := channel_receive (channel e) false in
    match slot with
    | Some v =>
        ret (status,
             <[i := {| channel := channel e; is_send := is_send e;
                       data := v |}]> channel_list)
    | None => ret (status, channel_list)
    end.

(** The inner [for] loop up to the test [status != WOULDBLOCK]: the
    status and index of the first entry that does not answer
    [WOULDBLOCK], or [None] when the loop runs to its end. *)
Fixpoint select_probe (n i : nat) (channel_list : list select_t)
  : M (option (chan_status * nat) * list select_t) :=
  match n with
  | O => ret (None, channel_list)
  | S n' =>
      match channel_list !! i with
      | None => undef
      | Some e =>
          let* (status, channel_list') := select_attempt i e channel_list in
          if decide (status ≠ WOULDBLOCK)
          then ret (Some (status, i), channel_list')
          else select_probe n' (S i) channel_list'
      end
  end.

(** The result of a select call: the status, the store to
    [*selected_index] ([None] when the call does not write it) and the
    array of entries as the call leaves it. *)
Definition select_result : Type := chan_status * option Z * list select_t.

(** One pass of the [while (true)] loop.  When an entry completes, the
    pass stores its index in [*selected_index], removes the token from
    the lists, destroys the semaphore and returns ([inl]).  Otherwise
    it calls [sem_wait(&sem_local)]; when that returns, the pass is
    over and the loop goes round with the array ([inr]). *)
Definition select_pass (sem_local : ptr) (n : nat)
  (channel_list : list select_t) : M (select_result + list select_t) :=
  let* (found, channel_list') := select_probe n 0 channel_list in
  match found with
  | Some (status, i) =>
      for_each_entry n 0 channel_list' (select_deregister_entry sem_local);;
      sem_destroy sem_local;;
      ret (inl (status, Some (Z.of_nat i), channel_list'))
  | None => sem_wait sem_local;; ret (inr channel_list')
  end.

(** The [while (true)] loop, for at most [passes] passes: [None] when
    that many passes have gone by without a return. *)
Fixpoint select_loop (passes : nat) (sem_local : ptr) (n : nat)
  (channel_list : list select_t) : M (option select_result) :=
  match passes with
  | O => ret None
  | S passes' =>
      let* r := select_pass sem_local n channel_list in
      match r with
      | inl result => ret (Some result)
      | inr channel_list' => select_loop passes' sem_local n channel_list'
      end
  end.

(** A select call that was suspended in [sem_wait(&sem_local)]: the
    semaphore takes one post (or the thread stays suspended) and the
    loop goes on. *)
Definition channel_select_wake (passes : nat) (sem_local : ptr)
  (channel_count : Z) (channel_list : list select_t)
  : M (option select_result) :=
  sem_wait sem_local;;
  select_loop passes sem_local (Z.to_nat channel_count) channel_list.

(** [channel_select], with at most [passes] passes of its loop.  A null
    [channel_list] is [None]; the result then carries no array. *)
Definition channel_select (passes : nat) (channel_count : Z)
  (channel_list : option (list select_t)) : M (option select_result) :=
  match channel_list with
  | None => ret (Some (OTHER_ERROR, None, []))
  | Some l =>
      if channel_count =? 0 then ret (Some (OTHER_ERROR, None, l))
      else
        fun w =>
          let sem_local := sem_local_addr w in
          (let* r := sem_init sem_local in
           if r =? -1 then ret (Some (OTHER_ERROR, None, l))
           else
             for_each_entry (Z.to_nat channel_count) 0 l
               (select_register_entry sem_local);;
             select_loop passes sem_local (Z.to_nat channel_count) l) w
  end.

(** ** Running the model *)

Definition empty_world : world :=
  {| chans := ∅; sems := ∅; oracle := [] |}.

(** The world an outcome leaves behind, for a call that returned or is
    suspended. *)
Definition world_after {A} (o : outcome A) : option world :=
  match o with
  | Ret _ w => Some w
  | Wait _ w => Some w
  | Undef => None
  end.

(** ** linked_list.c, node by node *)

(** The channel model keeps a waiter list as the sequence of the [data]
    pointers of its nodes.  The module [Nodes] embeds [linked_list.c]
    on the level the C code works on: list headers and nodes are blocks
    of a heap and are linked by their [next] and [prev] pointers.  The
    properties proved about it relate the two views. *)

Module Nodes.

(** Modelled from the spec: [linked_list.h] is not part of the sources;
    [list_node_t] has the three fields [linked_list.c] reads and
    writes. *)
Record list_node_t : Type := mk_node {
  data : ptr;
  next : ptr;
  prev : ptr
}.

(** Modelled from the spec: [linked_list.h] is not part of the sources;
    [list_t] has the two fields [linked_list.c] reads and writes. *)
Record list_t : Type := mk_list {
  head : ptr;
  count : Z
}.

Global Instance list_node_t_eq_dec : EqDecision list_node_t.
Proof. solve_decision. Defined.

Global Instance list_t_eq_dec : EqDecision list_t.
Proof. solve_decision. Defined.

Declare Scope node_scope.

Section Heap.
Context {E : Type}.

(** The memory the list functions work on: the allocated nodes and
    list headers by address, the results of the coming [malloc] calls
    ([true] is success, and so is every call after the list is used
    up), and the state [env] of the rest of the program, which only
    the callback of [list_foreach] reaches. *)
Record heap : Type := mk_heap {
  node_at : gmap Z list_node_t;
  list_at : gmap Z list_t;
  oracle : list bool;
  env : E
}.

(** What running a piece of code leads to. *)
Inductive result (A : Type) : Type :=
| Done (a : A) (h : heap)   (* the code returned [a] *)
| Fault                     (* undefined behaviour: a read, write or
                               [free] through a pointer to no block *)
| Spin.                     (* a loop used up its iterations *)

Arguments Done {A} a h.
Arguments Fault {A}.
Arguments Spin {A}.

Definition N (A : Type) : Type := heap -> result A.

Definition ret {A} (a : A) : N A := fun h => Done a h.

Definition bind {A B} (m : N A) (k : A -> N B) : N B :=
  fun h =>
    match m h with
    | Done a h' => k a h'
    | Fault => Fault
    | Spin => Spin
    end.

Definition fault {A} : N A := fun _ => Fault.

Definition spin {A} : N A := fun _ => Spin.

Notation "'let*' x ':=' m 'in' k" := (bind m (fun x => k))
  (at level 10, x pattern, m at level 100, k at level 200) : node_scope.
Notation "m ';;' k" := (bind m (fun _ => k))
  (at level 100, k at level 200, right associativity,
   only parsing) : node_scope.
Local Open Scope node_scope.

(** *** The allocator *)

(** The address [malloc] hands out: not null and not the address of a
    block in use. *)
Definition new_addr (h : heap) : ptr :=
  fresh ({[NULL]} ∪ dom (node_at h) ∪ dom (list_at h)).

(** [malloc(sizeof(list_node_t))]: [NULL] when the allocation fails.
    The content of the new block is indeterminate; the code writes
    every field before it reads one. *)
Definition malloc_node : N ptr :=
  fun h =>
    match oracle h with
    | false :: rest =>
        Done NULL {| node_at := node_at h; list_at := list_at h;
                     oracle := rest; env := env h |}
    | _ =>
        Done (new_addr h)
          {| node_at :=
               <[new_addr h := {| data := NULL; next := NULL; prev := NULL |}]>
                 (node_at h);
             list_at := list_at h; oracle := tail (oracle h);
             env := env h |}
    end.

(** [malloc(sizeof(list_t))]. *)
Definition malloc_list : N ptr :=
  fun h =>
    match oracle h with
    | false :: rest =>
        Done NULL {| node_at := node_at h; list_at := list_at h;
                     oracle := rest; env := env h |}
    | _ =>
        Done (new_addr h)
          {| node_at := node_at h;
             list_at :=
               <[new_addr h := {| head := NULL; count := 0 |}]> (list_at h);
             oracle := tail (oracle h); env := env h |}
    end.

(** [free] of a node: nothing for a null pointer, undefined for a
    pointer to no node (a second [free] of the same block). *)
Definition free_node (p : ptr) : N unit :=
  if p =? NULL then ret tt
  else
    fun h =>
      match node_at h !! p with
      | Some _ =>
          Done tt {| node_at := delete p (node_at h); list_at := list_at h;
                     oracle := oracle h; env := env h |}
      | None => Fault
      end.

(** [free] of a list header. *)
Definition free_list (p : ptr) : N unit :=
  if p =? NULL then ret tt
  else
    fun h =>
      match list_at h !! p with
      | Some _ =>
          Done tt {| node_at := node_at h; list_at := delete p (list_at h);
                     oracle := oracle h; env := env h |}
      | None => Fault
      end.

(** *** Reads and writes of fields *)

Definition load_node (p : ptr) : N list_node_t :=
  fun h =>
    match node_at h !! p with
    | Some n => Done n h
    | None => Fault
    end.

Definition store_node (p : ptr) (n : list_node_t) : N unit :=
  fun h =>
    match node_at h !! p with
    | Some _ =>
        Done tt {| node_at := <[p := n]> (node_at h); list_at := list_at h;
                   oracle := oracle h; env := env h |}
    | None => Fault
    end.

Definition load_list (p : ptr) : N list_t :=
  fun h =>
    match list_at h !! p with
    | Some l => Done l h
    | None => Fault
    end.

Definition store_list (p : ptr) (l : list_t) : N unit :=
  fun h =>
    match list_at h !! p with
    | Some _ =>
        Done tt {| node_at := node_at h; list_at := <[p := l]> (list_at h);
                   oracle := oracle h; env := env h |}
    | None => Fault
    end.

(** [p->data], [p->next], [p->prev]. *)
Definition get_data (p : ptr) : N ptr := let* n := load_node p in ret (data n).
Definition get_next (p : ptr) : N ptr := let* n := load_node p in ret (next n).
Definition get_prev (p : ptr) : N ptr := let* n := load_node p in ret (prev n).

(** [p->data = v], [p->next = v], [p->prev = v]. *)
Definition set_data (p v : ptr) : N unit :=
  let* n := load_node p in
  store_node p {| data := v; next := next n; prev := prev n |}.

Definition set_next (p v : ptr) : N unit :=
  let* n := load_node p in
  store_node p {| data := data n; next := v; prev := prev n |}.

Definition set_prev (p v : ptr) : N unit :=
  let* n := load_node p in
  store_node p {| data := data n; next := next n; prev := v |}.

(** [list->head], [list->count] and the stores to them. *)
Definition get_head (list : ptr) : N ptr :=
  let* l := load_list list in ret (head l).

Definition get_count (list : ptr) : N Z :=
  let* l := load_list list in ret (count l).

Definition set_head (list v : ptr) : N unit :=
  let* l := load_list list in
  store_list list {| head := v; count := count l |}.

Definition set_count (list : ptr) (v : Z) : N unit :=
  let* l := load_list list in
  store_list list {| head := head l; count := v |}.

(** *** The functions of linked_list.c *)

(** [list_create]. *)
Definition list_create : N ptr :=
  let* list := malloc_list in
  (if negb (list =? NULL)
   then set_head list NULL;; set_count list 0
   else ret tt);;
  ret list.

(** The [while (list->head != NULL)] loop of [list_destroy], for at
    most [fuel] tests of its condition.  [temp_node] is not assigned in
    the loop. *)
Fixpoint list_destroy_loop (fuel : nat) (list temp_node : ptr) : N unit :=
  match fuel with
  | O => spin
  | S fuel' =>
      let* h := get_head list in
      if negb (h =? NULL)
      then
        let* n := get_next temp_node in
        set_head list n;;
        free_node temp_node;;
        list_destroy_loop fuel' list temp_node
      else ret tt
  end.

(** [list_destroy]. *)
Definition list_destroy (fuel : nat) (list : ptr) : N unit :=
  if negb (list =? NULL)
  then
    let* temp_node := get_head list in
    list_destroy_loop fuel list temp_node;;
    free_list list
  else ret tt.

(** [list_begin]. *)
Definition list_begin (list : ptr) : N ptr :=
  if negb (list =? NULL) then get_head list else ret NULL.

(** [list_next]. *)
Definition list_next (node : ptr) : N ptr :=
  if negb (node =? NULL) then get_next node else ret NULL.

(** [list_data]. *)
Definition list_data (node : ptr) : N ptr :=
  if negb (node =? NULL) then get_data node else ret NULL.

(** [list_count]. *)
Definition list_count (list : ptr) : N Z :=
  if negb (list =? NULL) then get_count list else ret 0.

(** The [while (temp_node != NULL)] loop of [list_find], for at most
    [fuel] tests of its condition. *)
Fixpoint list_find_loop (fuel : nat) (temp_node data : ptr) : N ptr :=
  match fuel with
  | O => spin
  | S fuel' =>
      if negb (temp_node =? NULL)
      then
        let* d := get_data temp_node in
        if d =? data then ret temp_node
        else
          let* n := get_next temp_node in
          list_find_loop fuel' n data
      else ret NULL
  end.

(** [list_find]. *)
Definition list_find (fuel : nat) (list data : ptr) : N ptr :=
  if negb (list =? NULL)
  then
    let* temp_node := get_head list in
    list_find_loop fuel temp_node data
  else ret NULL.

(** [list_insert]. *)
Definition list_insert (list data : ptr) : N unit :=
  if negb (list =? NULL)
  then
    let* new_node := malloc_node in
    if negb (new_node =? NULL)
    then
      set_data new_node data;;
      let* h := get_head list in
      set_next new_node h;;
      set_prev new_node NULL;;
      let* h := get_head list in
      (if negb (h =? NULL) then set_prev h new_node else ret tt);;
      set_head list new_node;;
      let* c := get_count list in
      set_count list (size_wrap (c + 1))
    else ret tt
  else ret tt.

(** [list_remove]. *)
Definition list_remove (list node : ptr) : N unit :=
  if negb (list =? NULL) && negb (node =? NULL)
  then
    let* p := get_prev node in
    (if negb (p =? NULL)
     then let* n := get_next node in set_next p n
     else let* n := get_next node in set_head list n);;
    let* n := get_next node in
    (if negb (n =? NULL)
     then let* p := get_prev node in set_prev n p
     else ret tt);;
    free_node node;;
    let* c := get_count list in
    set_count list (size_wrap (c - 1))
  else ret tt.

(** The [while (temp_node != NULL)] loop of [list_foreach], for at most
    [fuel] tests of its condition. *)
Fixpoint list_foreach_loop (fuel : nat) (temp_node : ptr)
  (func : ptr -> N unit) : N unit :=
  match fuel with
  | O => spin
  | S fuel' =>
      if negb (temp_node =? NULL)
      then
        let* d := get_data temp_node in
        func d;;
        let* n := get_next temp_node in
        list_foreach_loop fuel' n func
      else ret tt
  end.

(** [list_foreach]; a null [func] is [None]. *)
Definition list_foreach (fuel : nat) (list : ptr)
  (func : option (ptr -> N unit)) : N unit :=
  match func with
  | Some f =>
      if negb (list =? NULL)
      then
        let* temp_node := get_head list in
        list_foreach_loop fuel temp_node f
      else ret tt
  | None => ret tt
  end.

End Heap.

Arguments heap : clear implicits.
Arguments result : clear implicits.
Arguments N : clear implicits.
Arguments Done {E A} a h.
Arguments Fault {E A}.
Arguments Spin {E A}.

End Nodes.

(** ** channel_create and channel_destroy, block by block *)

(** The channel model keeps the buffer, the waiter lists and the
    objects of the thread library inside the channel record, so that
    freeing the record takes all of them with it.  The module [Blocks]
    embeds [channel_create] and [channel_destroy] on the level on which
    they are separate: the channel structure, the buffer, the list
    headers and the nodes are blocks of their own, reached through
    pointers, and the mutexes and condition variables are objects that
    the thread library knows by their address.  What [channel_destroy]
    releases, and what it would leave behind, shows there.  The lists
    are those of the module [Nodes]. *)

Global Instance mutex_field_eq_dec : EqDecision mutex_field.
Proof. solve_decision. Defined.

Global Instance cond_field_eq_dec : EqDecision cond_field.
Proof. solve_decision. Defined.

Global Instance mutex_field_countable : Countable mutex_field.
Proof.
  refine (inj_countable'
            (fun f => match f with
                      | Fmutex => 0%nat
                      | Fsend_list_mutex => 1%nat
                      | Freceive_list_mutex => 2%nat
                      end)
            (fun n => match n with
                      | 0%nat => Fmutex
                      | 1%nat => Fsend_list_mutex
                      | _ => Freceive_list_mutex
                      end) _).
  by intros [].
Defined.

Global Instance cond_field_countable : Countable cond_field.
Proof.
  refine (inj_countable'
            (fun f => match f with
                      | Fsend_condition => 0%nat
                      | Freceive_condition => 1%nat
                      end)
            (fun n => match n with
                      | 0%nat => Fsend_condition
                      | _ => Freceive_condition
                      end) _).
  by intros [].
Defined.

Global Instance buffer_t_eq_dec : EqDecision buffer_t.
Proof. solve_decision. Defined.

Module Blocks.

(** Modelled from the spec: [buffer_create] of section 4.4 gives an
    empty buffer of the given capacity. *)
Definition empty_buffer (size : Z) : buffer_t := buffer_create size.

(** Modelled from the spec: [channel.h] is not part of the sources.
    The fields of [chan_t] that [channel_create] and [channel_destroy]
    read and write, with the buffer and the lists as the pointers they
    are.  The three mutexes and the two condition variables of the
    structure are in [mutex_at] and [cond_at] below. *)
Record chan_block : Type := mk_chan_block {
  buffer : ptr;
  send_list : ptr;
  receive_list : ptr;
  closed : bool
}.

(** What is allocated and initialised besides the lists and their
    nodes: the channel structures and the buffers by address, and the
    mutexes and condition variables that are initialised, by the
    address of the structure they are in and their field.  An object
    that was never initialised, or was destroyed, has no entry. *)
Record blocks : Type := mk_blocks {
  chan_at : gmap Z chan_block;
  buffer_at : gmap Z buffer_t;
  mutex_at : gmap (Z * mutex_field) mutex_t;
  cond_at : gmap (Z * cond_field) cond_t
}.

(** The memory [channel_create] and [channel_destroy] work on: the
    heap of the list functions, with these blocks as the rest of the
    program. *)
Definition store : Type := Nodes.heap blocks.

Definition B (A : Type) : Type := Nodes.N blocks A.

Declare Scope block_scope.
Notation "'let*' x ':=' m 'in' k" := (Nodes.bind m (fun x => k))
  (at level 10, x pattern, m at level 100, k at level 200) : block_scope.
Notation "m ';;' k" := (Nodes.bind m (fun _ => k))
  (at level 100, k at level 200, right associativity,
   only parsing) : block_scope.
Local Open Scope block_scope.

Definition ret {A} (a : A) : B A := Nodes.ret a.

(** The store with other blocks. *)
Definition with_blocks (b : blocks) (h : store) : store :=
  {| Nodes.node_at := Nodes.node_at h; Nodes.list_at := Nodes.list_at h;
     Nodes.oracle := Nodes.oracle h; Nodes.env := b |}.

Definition set_chan_at (m : gmap Z chan_block) (b : blocks) : blocks :=
  {| chan_at := m; buffer_at := buffer_at b; mutex_at := mutex_at b;
     cond_at := cond_at b |}.

Definition set_buffer_at (m : gmap Z buffer_t) (b : blocks) : blocks :=
  {| chan_at := chan_at b; buffer_at := m; mutex_at := mutex_at b;
     cond_at := cond_at b |}.

Definition set_mutex_at (m : gmap (Z * mutex_field) mutex_t) (b : blocks)
  : blocks :=
  {| chan_at := chan_at b; buffer_at := buffer_at b; mutex_at := m;
     cond_at := cond_at b |}.

Definition set_cond_at (m : gmap (Z * cond_field) cond_t) (b : blocks)
  : blocks :=
  {| chan_at := chan_at b; buffer_at := buffer_at b; mutex_at := mutex_at b;
     cond_at := m |}.

(** *** The allocator *)

(** The address [malloc] hands out for a channel structure: not null
    and not the address of a structure in use.  Blocks of different
    types are kept in different maps. *)
Definition new_chan_addr (b : blocks) : ptr :=
  fresh ({[NULL]} ∪ dom (chan_at b)).

(** [malloc(sizeof(chan_t))]: [NULL] when the allocation fails.  The
    content of the new block is indeterminate; [channel_create] writes
    every field before anything reads one. *)
Definition malloc_chan : B ptr :=
  fun h =>
    match Nodes.oracle h with
    | false :: rest =>
        Nodes.Done NULL
          {| Nodes.node_at := Nodes.node_at h;
             Nodes.list_at := Nodes.list_at h;
             Nodes.oracle := rest; Nodes.env := Nodes.env h |}
    | _ =>
        let c := new_chan_addr (Nodes.env h) in
        Nodes.Done c
          {| Nodes.node_at := Nodes.node_at h;
             Nodes.list_at := Nodes.list_at h;
             Nodes.oracle := tail (Nodes.oracle h);
             Nodes.env :=
               set_chan_at
                 (<[c := {| buffer := NULL; send_list := NULL;
                            receive_list := NULL; closed := false |}]>
                    (chan_at (Nodes.env h)))
                 (Nodes.env h) |}
    end.

(** [free] of a channel structure: nothing for a null pointer,
    undefined for a pointer to no structure. *)
Definition free_chan (c : ptr) : B unit :=
  if c =? NULL then ret tt
  else
    fun h =>
      match chan_at (Nodes.env h) !! c with
      | Some _ =>
          Nodes.Done tt
            (with_blocks
               (set_chan_at (delete c (chan_at (Nodes.env h))) (Nodes.env h))
               h)
      | None => Nodes.Fault
      end.

(** *** Reads and writes of the fields of a channel structure *)

Definition load_chan (c : ptr) : B chan_block :=
  fun h =>
    match chan_at (Nodes.env h) !! c with
    | Some cb => Nodes.Done cb h
    | None => Nodes.Fault
    end.

Definition store_chan (c : ptr) (cb : chan_block) : B unit :=
  fun h =>
    match chan_at (Nodes.env h) !! c with
    | Some _ =>
        Nodes.Done tt
          (with_blocks
             (set_chan_at (<[c := cb]> (chan_at (Nodes.env h))) (Nodes.env h))
             h)
    | None => Nodes.Fault
    end.

(** [c->buffer], [c->send_list], [c->receive_list], [c->closed]. *)
Definition get_buffer (c : ptr) : B ptr :=
  let* cb := load_chan c in ret (buffer cb).

Definition get_send_list (c : ptr) : B ptr :=
  let* cb := load_chan c in ret (send_list cb).

Definition get_receive_list (c : ptr) : B ptr :=
  let* cb := load_chan c in ret (receive_list cb).

Definition get_closed (c : ptr) : B bool :=
  let* cb := load_chan c in ret (closed cb).

(** The stores to them. *)
Definition set_buffer (c v : ptr) : B unit :=
  let* cb := load_chan c in
  store_chan c {| buffer := v; send_list := send_list cb;
                  receive_list := receive_list cb; closed := closed cb |}.

Definition set_send_list (c v : ptr) : B unit :=
  let* cb := load_chan c in
  store_chan c {| buffer := buffer cb; send_list := v;
                  receive_list := receive_list cb; closed := closed cb |}.

Definition set_receive_list (c v : ptr) : B unit :=
  let* cb := load_chan c in
  store_chan c {| buffer := buffer cb; send_list := send_list cb;
                  receive_list := v; closed := closed cb |}.

Definition set_closed (c : ptr) (v : bool) : B unit :=
  let* cb := load_chan c in
  store_chan c {| buffer := buffer cb; send_list := send_list cb;
                  receive_list := receive_list cb; closed := v |}.

(** *** The buffer *)

(** Modelled from the spec: [create(capacity)] of section 4.4, as an
    allocation: the address of a new block that holds an empty buffer
    of the given capacity. *)
Definition buffer_create (size : Z) : B ptr :=
  fun h =>
    let b := fresh ({[NULL]} ∪ dom (buffer_at (Nodes.env h))) in
    Nodes.Done b
      (with_blocks
         (set_buffer_at (<[b := empty_buffer size]> (buffer_at (Nodes.env h)))
            (Nodes.env h))
         h).

(** Modelled from the spec: [free()] of section 4.4, the release of
    the block; undefined for a pointer to no buffer. *)
Definition buffer_free (b : ptr) : B unit :=
  fun h =>
    match buffer_at (Nodes.env h) !! b with
    | Some _ =>
        Nodes.Done tt
          (with_blocks
             (set_buffer_at (delete b (buffer_at (Nodes.env h)))
                (Nodes.env h))
             h)
    | None => Nodes.Fault
    end.

(** *** The thread library *)

(** [pthread_mutex_init(&c->f, NULL)]; initialising an initialised
    mutex is undefined. *)
Definition pthread_mutex_init (c : ptr) (f : mutex_field) : B Z :=
  fun h =>
    match mutex_at (Nodes.env h) !! (c, f) with
    | None =>
        Nodes.Done 0
          (with_blocks
             (set_mutex_at (<[(c, f) := MutexFree]> (mutex_at (Nodes.env h)))
                (Nodes.env h))
             h)
    | Some _ => Nodes.Fault
    end.

(** [pthread_mutex_destroy(&c->f)]; destroying a locked mutex is
    undefined. *)
Definition pthread_mutex_destroy (c : ptr) (f : mutex_field) : B Z :=
  fun h =>
    match mutex_at (Nodes.env h) !! (c, f) with
    | Some MutexFree =>
        Nodes.Done 0
          (with_blocks
             (set_mutex_at (delete (c, f) (mutex_at (Nodes.env h)))
                (Nodes.env h))
             h)
    | Some MutexHeld => Nodes.Fault
    | Some MutexUninit | None => Nodes.Done EINVAL h
    end.

(** [pthread_cond_init(&c->f, NULL)]. *)
Definition pthread_cond_init (c : ptr) (f : cond_field) : B Z :=
  fun h =>
    match cond_at (Nodes.env h) !! (c, f) with
    | None =>
        Nodes.Done 0
          (with_blocks
             (set_cond_at (<[(c, f) := CondReady]> (cond_at (Nodes.env h)))
                (Nodes.env h))
             h)
    | Some _ => Nodes.Fault
    end.

(** [pthread_cond_destroy(&c->f)]. *)
Definition pthread_cond_destroy (c : ptr) (f : cond_field) : B Z :=
  fun h =>
    match cond_at (Nodes.env h) !! (c, f) with
    | Some CondReady =>
        Nodes.Done 0
          (with_blocks
             (set_cond_at (delete (c, f) (cond_at (Nodes.env h)))
                (Nodes.env h))
             h)
    | Some CondUninit | None => Nodes.Done EINVAL h
    end.

(** *** The functions of channel.c *)

(** [channel_create]. *)
Definition channel_create (size : Z) : B ptr :=
  let* channel := malloc_chan in
  if channel =? NULL then ret NULL
  else
    let* b := buffer_create size in
    set_buffer channel b;;
    pthread_mutex_init channel Fmutex;;
    pthread_mutex_init channel Fsend_list_mutex;;
    pthread_mutex_init channel Freceive_list_mutex;;
    pthread_cond_init channel Fsend_condition;;
    pthread_cond_init channel Freceive_condition;;
    let* sl := Nodes.list_create in
    set_send_list channel sl;;
    let* rl := Nodes.list_create in
    set_receive_list channel rl;;
    set_closed channel false;;
    ret channel.

(** [channel_destroy]; [fuel] bounds the loop of each [list_destroy]. *)
Definition channel_destroy (fuel : nat) (channel : ptr) : B chan_status :=
  if channel =? NULL then ret OTHER_ERROR
  else
    let* cl := get_closed channel in
    if negb cl then ret DESTROY_ERROR
    else
      let* b := get_buffer channel in
      buffer_free b;;
      pthread_mutex_destroy channel Fmutex;;
      pthread_mutex_destroy channel Fsend_list_mutex;;
      pthread_mutex_destroy channel Freceive_list_mutex;;
      pthread_cond_destroy channel Fsend_condition;;
      pthread_cond_destroy channel Freceive_condition;;
      let* sl := get_send_list channel in
      Nodes.list_destroy fuel sl;;
      let* rl := get_receive_list channel in
      Nodes.list_destroy fuel rl;;
      free_chan channel;;
      ret SUCCESS.

End Blocks.

(** * Vocabulary of the properties *)

(** ** Worlds after an update *)

(** The world with the structure at [c] replaced by [ch]. *)
Definition upd_chan (c : ptr) (ch : chan_t) (w : world) : world :=
  {| chans := <[c := ch]> (chans w); sems := sems w; oracle := oracle w |}.

(** The world with the semaphore counts replaced by [s]. *)
Definition set_sems (s : gmap Z nat) (w : world) : world :=
  {| chans := chans w; sems := s; oracle := oracle w |}.

(** The world with the coming outcomes replaced by [o]. *)
Definition set_oracle (o : list bool) (w : world) : world :=
  {| chans := chans w; sems := sems w; oracle := o |}.

(** The world with the structure at [c] freed. *)
Definition del_chan (c : ptr) (w : world) : world :=
  {| chans := delete c (chans w); sems := sems w; oracle := oracle w |}.

(** The tokens a waiter list holds, head first. *)
Definition tokens (l : option list_t) : list ptr :=
  match l with
  | Some l => head l
  | None => []
  end.

(** The semaphore counts after one [sem_post] on each of [ts]. *)
Fixpoint post_all (ts : list ptr) (s : gmap Z nat) : gmap Z nat :=
  match ts with
  | [] => s
  | t :: rest =>
      post_all rest
        (match s !! t with Some n => <[t := S n]> s | None => s end)
  end.

(** The semaphore counts after the notification of list [l]: the code
    posts only when [list_count] is not zero. *)
Definition notified (l : option list_t) (s : gmap Z nat) : gmap Z nat :=
  if list_count l =? 0 then s else post_all (tokens l) s.

(** The buffer after [buffer_add]. *)
Definition pushed (v : val) (b : buffer_t) : buffer_t :=
  {| buf_capacity := buf_capacity b; buf_items := buf_items b ++ [v] |}.

(** The buffer after [buffer_remove]. *)
Definition popped (b : buffer_t) : buffer_t :=
  {| buf_capacity := buf_capacity b; buf_items := tail (buf_items b) |}.

(** The world a successful send leads to: the value is in the buffer
    and the receive list has been notified. *)
Definition after_send (c : ptr) (ch : chan_t) (v : val) (w : world) : world :=
  upd_chan c (set_buffer (pushed v (buffer ch)) ch)
    (set_sems (notified (receive_list ch) (sems w)) w).

(** The world a successful receive leads to: the oldest value has left
    the buffer and the send list has been notified. *)
Definition after_receive (c : ptr) (ch : chan_t) (w : world) : world :=
  upd_chan c (set_buffer (popped (buffer ch)) ch)
    (set_sems (notified (send_list ch) (sems w)) w).

(** ** Channels and worlds ready for a call *)

(** Every token is the address of an initialised semaphore. *)
Definition live (s : gmap Z nat) (ts : list ptr) : bool :=
  forallb (fun t => bool_decide (is_Some (s !! t))) ts.

(** The buffer holds at most [capacity] items and [capacity] is a
    [size_t]. *)
Definition buffer_ok (b : buffer_t) : bool :=
  (0 <=? buffer_capacity b) && (buffer_capacity b <? 2 ^ SIZE_WIDTH)
  && (buffer_current_size b <=? buffer_capacity b).

(** [c] is the address of a channel structure that no thread is
    working on: its mutexes are free, its buffer is within bounds and
    the tokens in its lists are live semaphores. *)
Definition chan_ready (w : world) (c : ptr) : bool :=
  match chans w !! c with
  | Some ch =>
      negb (c =? NULL)
      && bool_decide (mutex ch = MutexFree)
      && bool_decide (send_list_mutex ch = MutexFree)
      && bool_decide (receive_list_mutex ch = MutexFree)
      && buffer_ok (buffer ch)
      && live (sems w) (tokens (send_list ch))
      && live (sems w) (tokens (receive_list ch))
  | None => false
  end.

(** [chan_ready] as a proposition, with the structure at [c] named. *)
Record Ready (w : world) (c : ptr) (ch : chan_t) : Prop := {
  ready_lookup : chans w !! c = Some ch;
  ready_addr : c ≠ NULL;
  ready_mutex : mutex ch = MutexFree;
  ready_send_list_mutex : send_list_mutex ch = MutexFree;
  ready_receive_list_mutex : receive_list_mutex ch = MutexFree;
  ready_capacity : 0 <= buffer_capacity (buffer ch) < 2 ^ SIZE_WIDTH;
  ready_size : buffer_current_size (buffer ch) <= buffer_capacity (buffer ch);
  ready_send_list : live (sems w) (tokens (send_list ch)) = true;
  ready_receive_list : live (sems w) (tokens (receive_list ch)) = true
}.

(** ** Example worlds *)

(** A channel of capacity 2 with the given buffered items and closed
    flag, free mutexes and two empty waiter lists. *)
Definition demo_chan (items : list val) (cl : bool) : chan_t :=
  {| buffer := {| buf_capacity := 2; buf_items := items |};
     mutex := MutexFree;
     send_list_mutex := MutexFree;
     receive_list_mutex := MutexFree;
     send_condition := CondReady;
     receive_condition := CondReady;
     send_list := Some {| head := []; count := 0 |};
     receive_list := Some {| head := []; count := 0 |};
     closed := cl |}.

(** The world with that channel at address 1 and nothing else. *)
Definition demo_world (items : list val) (cl : bool) : world :=
  {| chans := {[1 := demo_chan items cl]}; sems := ∅; oracle := [] |}.

(** ** Sequences of sends and receives *)

(** A call of the sender or of the receiver. *)
Inductive chan_op : Type :=
| OpSend (v : val) (blocking : bool)
| OpReceive (blocking : bool).

Definition op_blocking (o : chan_op) : bool :=
  match o with
  | OpSend _ b => b
  | OpReceive b => b
  end.

(** Runs the calls in order on channel [c] and collects the values
    that were sent with [SUCCESS] and the values that were received
    with [SUCCESS], each in call order.  With no other thread around, a
    call that suspends ends the run. *)
Fixpoint run_ops (c : ptr) (ops : list chan_op) : M (list val * list val) :=
  match ops with
  | [] => ret ([], [])
  | OpSend v b :: rest =>
      let* status := channel_send c v b in
      let* (sent, received) := run_ops c rest in
      ret (if decide (status = SUCCESS) then v :: sent else sent, received)
  | OpReceive b :: rest =>
      let* (status, slot) := channel_receive c b in
      let* (sent, received) := run_ops c rest in
      ret (sent,
           match slot with
           | Some x => if decide (status = SUCCESS) then x :: received
                       else received
           | None => received
           end)
  end.

(** What a run guarantees, for a buffer that held [items] at the
    start. *)
Definition fifo_outcome (c : ptr) (items : list val) (ops : list chan_op)
  (o : outcome (list val * list val)) : Prop :=
  match o with
  | Ret (sent, received) w' =>
      exists ch', Ready w' c ch' /\ closed ch' = false
                  /\ items ++ sent = received ++ buf_items (buffer ch')
  | Wait _ _ => existsb op_blocking ops = true
  | Undef => False
  end.

(** ** Relations between the worlds before and after a call *)

(** [rel old new] relates the structure at an address before and after
    a step.  Every structure of [w] is still allocated in [w'] and
    related to what it was. *)
Definition evolves (rel : chan_t -> chan_t -> Prop) (w w' : world) : Prop :=
  forall c ch, chans w !! c = Some ch ->
               exists ch', chans w' !! c = Some ch' /\ rel ch ch'.

(** [evolves] from [w] to the world an outcome leaves behind. *)
Definition evolved (rel : chan_t -> chan_t -> Prop) {A} (w : world)
  (o : outcome A) : Prop :=
  match o with
  | Ret _ w' => evolves rel w w'
  | Wait _ w' => evolves rel w w'
  | Undef => True
  end.

(** [m] keeps the relation from any world. *)
Definition keeps (rel : chan_t -> chan_t -> Prop) {A} (m : M A) : Prop :=
  forall w, evolved rel w (m w).

(** [m] keeps the relation from the worlds whose structure at [c] is
    [ch]. *)
Definition keeps_at (rel : chan_t -> chan_t -> Prop) {A} (c : ptr)
  (ch : chan_t) (m : M A) : Prop :=
  forall w, chans w !! c = Some ch -> evolved rel w (m w).

(** [m] does not touch the channel structures. *)
Definition stable {A} (m : M A) : Prop :=
  forall w, match m w with
            | Ret _ w' => chans w' = chans w
            | Wait _ w' => chans w' = chans w
            | Undef => True
            end.

(** ** The calls on existing channels *)

(** The calls that work on existing channels, with the resumptions of
    the waiting ones. *)
Inductive api_call : Type :=
| CallSend (c : ptr) (v : val) (blocking : bool)
| CallSendWake (c : ptr) (v : val)
| CallReceive (c : ptr) (blocking : bool)
| CallReceiveWake (c : ptr)
| CallClose (c : ptr)
| CallSelect (passes : nat) (channel_count : Z)
    (channel_list : option (list select_t))
| CallSelectWake (passes : nat) (sem_local : ptr) (channel_count : Z)
    (channel_list : list select_t).

(** The world a call leaves behind when it returns or waits. *)
Definition api_world (x : api_call) (w : world) : option world :=
  match x with
  | CallSend c v b => world_after (channel_send c v b w)
  | CallSendWake c v => world_after (channel_send_wake c v w)
  | CallReceive c b => world_after (channel_receive c b w)
  | CallReceiveWake c => world_after (channel_receive_wake c w)
  | CallClose c => world_after (channel_close c w)
  | CallSelect p n l => world_after (channel_select p n l w)
  | CallSelectWake p s n l => world_after (channel_select_wake p s n l w)
  end.

(** The world after a successful [channel_close]. *)
Definition after_close (c : ptr) (ch : chan_t) (w : world) : world :=
  upd_chan c (set_closed true ch)
    (set_sems (notified (receive_list ch)
                 (notified (send_list ch) (sems w))) w).

(** A closed flag that is set stays set. *)
Definition stays_closed (ch ch' : chan_t) : Prop :=
  closed ch = true -> closed ch' = true.

(** ** Worlds in which no thread is inside a call *)

(** Every allocated channel is ready. *)
Definition world_ready (w : world) : bool :=
  forallb (fun c => chan_ready w c) (elements (dom (chans w))).

(** [world_ready] as a proposition. *)
Definition AllReady (w : world) : Prop :=
  forall c ch, chans w !! c = Some ch -> Ready w c ch.

(** The entries of a select call name allocated channels. *)
Definition entries_valid (w : world) (l : list select_t) : bool :=
  forallb (fun e => bool_decide (is_Some (chans w !! channel e))) l.

(** The tokens in the waiter list of direction [snd] of channel [c]. *)
Definition reg (w : world) (c : ptr) (snd : bool) : list ptr :=
  match chans w !! c with
  | Some ch => tokens (get_list snd ch)
  | None => []
  end.

(** How often token [s] occurs among [ts]. *)
Definition occurrences (s : ptr) (ts : list ptr) : nat :=
  count_occ Z.eq_dec ts s.

(** ** The state of a select call *)

(** The list each entry names: its channel and its direction. *)
Definition targets (l : list select_t) : list (ptr * bool) :=
  (fun e => (channel e, is_send e)) <$> l.

(** The entries name allocated channels. *)
Definition Valid (w : world) (l : list select_t) : Prop :=
  forall c snd, (c, snd) ∈ targets l -> is_Some (chans w !! c).

(** Token [s] occurs at most once in every waiter list. *)
Definition token_once (s : ptr) (w : world) : Prop :=
  forall c snd, (occurrences s (reg w c snd) <= 1)%nat.

(** Token [s] is in no waiter list. *)
Definition token_absent (s : ptr) (w : world) : Prop :=
  forall c snd, s ∉ reg w c snd.

(** Token [s] is only in lists that the entries name. *)
Definition token_within (s : ptr) (l : list select_t) (w : world) : Prop :=
  forall c snd, s ∈ reg w c snd -> (c, snd) ∈ targets l.

(** Ready channels stay ready when only the semaphores change, as long
    as no semaphore disappears. *)
Definition sems_kept (s s' : gmap Z nat) : Prop :=
  forall t, is_Some (s !! t) -> is_Some (s' !! t).

(** The state of a select call whose token is [s]: the world is ready,
    the semaphore is initialised, the entries name allocated channels,
    and the token is at most once in each list and only in lists the
    entries name. *)
Record Registered (s : ptr) (l : list select_t) (w : world) : Prop := {
  reg_ready : AllReady w;
  reg_sem : is_Some (sems w !! s);
  reg_valid : Valid w l;
  reg_once : token_once s w;
  reg_within : token_within s l w
}.

(** What a returned select call guarantees: a status other than
    [WOULDBLOCK], the index of an entry, the token in no list and a
    ready world. *)
Definition select_done (s : ptr) (l : list select_t)
  (r : select_result) (w' : world) : Prop :=
  r.1.1 ≠ WOULDBLOCK /\ token_absent s w' /\ AllReady w'
  /\ exists i, r.1.2 = Some (Z.of_nat i) /\ (i < length l)%nat.

(** After the removal loop has passed entry [j], the token is in none
    of the lists the entries before [j] name. *)
Definition removed_before (s : ptr) (l : list select_t) (j : nat)
  (w : world) : Prop :=
  forall j' e', (j' < j)%nat -> l !! j' = Some e' ->
                s ∉ reg w (channel e') (is_send e').

(** The non-blocking operation of an entry: its status and, for a
    receive that delivers, the value for the entry's payload slot. *)
Definition probe (e : select_t) : M (chan_status * option val) :=
  if is_send e
  then let* status := channel_send (channel e) (data e) false in
       ret (status, None)
  else channel_receive (channel e) false.

(** The array after the store of a received value into entry [i]. *)
Definition store_slot (i : nat) (slot : option val) (l : list select_t)
  : list select_t :=
  match slot, l !! i with
  | Some v, Some e =>
      <[i := {| channel := channel e; is_send := is_send e; data := v |}]> l
  | _, _ => l
  end.

(** The world after a successful [sem_init(&sem_local, 0, 0)]. *)
Definition after_sem_init (s : ptr) (w : world) : world :=
  {| chans := chans w; sems := <[s := 0%nat]> (sems w);
     oracle := tail (oracle w) |}.

(** The first phase of [channel_select]: the semaphore is initialised
    and the token is put on the list of every entry. *)
Definition select_registration (s : ptr) (l : list select_t) : M unit :=
  sem_init s;;
  for_each_entry (length l) 0 l (select_register_entry s).

(** Two channels: 1 holds the value 7, 2 is empty. *)
Definition demo_world2 : world :=
  {| chans := <[1 := demo_chan [7] false]> {[2 := demo_chan [] false]};
     sems := ∅; oracle := [] |}.

(** Receive on channel 1, receive on channel 2. *)
Definition demo_entries : list select_t :=
  [ {| channel := 1; is_send := false; data := 0 |};
    {| channel := 2; is_send := false; data := 0 |} ].

(** Two entries that name the same list of the empty channel 2. *)
Definition demo_twice : list select_t :=
  [ {| channel := 2; is_send := false; data := 0 |};
    {| channel := 2; is_send := false; data := 0 |} ].

(** [demo_world2] with a select call on [demo_twice] suspended: its
    semaphore is at address 1 and its token is on the receive list of
    channel 2. *)
Definition demo_waiting : world :=
  {| chans :=
       <[1 := demo_chan [7] false]>
         {[2 := set_list false (Some {| head := [1]; count := 1 |})
                  (demo_chan [] false)]};
     sems := {[1 := 0%nat]};
     oracle := [] |}.

(** ** Lists of nodes in the heap *)

(** A chain of nodes is described head first, by the address and the
    [data] pointer of each node.  [addr_at cells i] is the address of
    node [i], and [NULL] past the end of the chain. *)
Definition addr_at (cells : list (ptr * ptr)) (i : nat) : ptr :=
  match cells !! i with
  | Some (a, _) => a
  | None => NULL
  end.

(** The [data] pointer of node [i], and [NULL] past the end. *)
Definition data_at (cells : list (ptr * ptr)) (i : nat) : ptr :=
  match cells !! i with
  | Some (_, d) => d
  | None => NULL
  end.

(** The content of node [i] of the chain when its [data] is [d]: [next]
    points to node [i + 1] and [prev] to node [i - 1]; the last [next]
    and the first [prev] are null. *)
Definition node_of (cells : list (ptr * ptr)) (i : nat) (d : ptr)
  : Nodes.list_node_t :=
  {| Nodes.data := d;
     Nodes.next := addr_at cells (S i);
     Nodes.prev := match i with O => NULL | S j => addr_at cells j end |}.

(** The nodes of the chain are distinct blocks of the heap, none at the
    null address, and each holds the content [node_of] gives. *)
Definition linked (nd : gmap Z Nodes.list_node_t) (cells : list (ptr * ptr))
  : bool :=
  bool_decide (NoDup cells.*1)
  && bool_decide (NULL ∉ cells.*1)
  && forallb
       (fun i =>
          match cells !! i with
          | Some (a, d) => bool_decide (nd !! a = Some (node_of cells i d))
          | None => true
          end)
       (seq 0 (length cells)).

(** [linked] as a proposition. *)
Record Linked (nd : gmap Z Nodes.list_node_t) (cells : list (ptr * ptr))
  : Prop := {
  linked_nodup : NoDup cells.*1;
  linked_nonnull : NULL ∉ cells.*1;
  linked_node : forall i a d, cells !! i = Some (a, d) ->
                              nd !! a = Some (node_of cells i d)
}.

(** [l] is the address of a list header whose [head] starts the
    chain [cells] and whose [count] field holds [c]. *)
Definition list_rep {E} (h : Nodes.heap E) (l : ptr)
  (cells : list (ptr * ptr)) (c : Z) : bool :=
  negb (l =? NULL)
  && bool_decide (Nodes.list_at h !! l
                  = Some {| Nodes.head := addr_at cells 0; Nodes.count := c |})
  && linked (Nodes.node_at h) cells.

(** Updates of a heap. *)
Definition upd_node {E} (p : ptr) (n : Nodes.list_node_t) (h : Nodes.heap E)
  : Nodes.heap E :=
  {| Nodes.node_at := <[p := n]> (Nodes.node_at h);
     Nodes.list_at := Nodes.list_at h;
     Nodes.oracle := Nodes.oracle h; Nodes.env := Nodes.env h |}.

Definition del_node {E} (p : ptr) (h : Nodes.heap E) : Nodes.heap E :=
  {| Nodes.node_at := delete p (Nodes.node_at h);
     Nodes.list_at := Nodes.list_at h;
     Nodes.oracle := Nodes.oracle h; Nodes.env := Nodes.env h |}.

Definition upd_list {E} (p : ptr) (l : Nodes.list_t) (h : Nodes.heap E)
  : Nodes.heap E :=
  {| Nodes.node_at := Nodes.node_at h;
     Nodes.list_at := <[p := l]> (Nodes.list_at h);
     Nodes.oracle := Nodes.oracle h; Nodes.env := Nodes.env h |}.

Definition del_list {E} (p : ptr) (h : Nodes.heap E) : Nodes.heap E :=
  {| Nodes.node_at := Nodes.node_at h;
     Nodes.list_at := delete p (Nodes.list_at h);
     Nodes.oracle := Nodes.oracle h; Nodes.env := Nodes.env h |}.

Definition set_mallocs {E} (o : list bool) (h : Nodes.heap E) : Nodes.heap E :=
  {| Nodes.node_at := Nodes.node_at h; Nodes.list_at := Nodes.list_at h;
     Nodes.oracle := o; Nodes.env := Nodes.env h |}.

Definition set_env {E} (e : E) (h : Nodes.heap E) : Nodes.heap E :=
  {| Nodes.node_at := Nodes.node_at h; Nodes.list_at := Nodes.list_at h;
     Nodes.oracle := Nodes.oracle h; Nodes.env := e |}.

(** The calls [list_foreach] makes for a chain with the given [data]
    pointers: [func] on each, head first. *)
Fixpoint calls {E} (ds : list ptr) (func : ptr -> Nodes.N E unit)
  : Nodes.N E unit :=
  match ds with
  | [] => Nodes.ret tt
  | d :: rest => Nodes.bind (func d) (fun _ => calls rest func)
  end.

(** Iteration over a list with [list_begin] and [list_next]: the node
    reached after [i] steps. *)
Fixpoint steps {E} (i : nat) (node : ptr) : Nodes.N E ptr :=
  match i with
  | O => Nodes.ret node
  | S j => Nodes.bind (Nodes.list_next node) (fun n => steps j n)
  end.

Definition walk {E} (i : nat) (l : ptr) : Nodes.N E ptr :=
  Nodes.bind (Nodes.list_begin l) (fun b => steps i b).

(** The list at [l] in the heap and the list [al] of the channel model
    are two views of one list: the chain [cells] carries the [data]
    pointers [al] holds, in the same order, and the [count] fields
    agree; a null [l] is [None]. *)
Definition same_list {E} (h : Nodes.heap E) (l : ptr)
  (cells : list (ptr * ptr)) (al : option list_t) : bool :=
  match al with
  | Some x => list_rep h l cells (count x) && bool_decide (cells.*2 = head x)
  | None => (l =? NULL) && bool_decide (cells = [])
  end.

(** A token put on a list, looked up and taken off again, as
    [channel_select] does with [&sem_local]: the node found and the
    [data] read from it are returned. *)
Definition insert_find_remove {E} (fuel : nat) (l d : ptr)
  : Nodes.N E (ptr * ptr) :=
  Nodes.bind (Nodes.list_insert l d) (fun _ =>
  Nodes.bind (Nodes.list_find fuel l d) (fun node =>
  Nodes.bind (Nodes.list_data node) (fun x =>
  Nodes.bind (Nodes.list_remove l node) (fun _ =>
  Nodes.ret (node, x))))).

(** The two ways [channel.c] changes a list: [list_insert] of a
    pointer, and [list_remove] of the node [list_find] returns for a
    pointer, when it returns one. *)
Inductive list_op : Type :=
| ListInsert (d : ptr)
| ListRemove (d : ptr).

Fixpoint run_list_ops {E} (fuel : nat) (l : ptr) (ops : list list_op)
  : Nodes.N E unit :=
  match ops with
  | [] => Nodes.ret tt
  | ListInsert d :: rest =>
      Nodes.bind (Nodes.list_insert l d) (fun _ => run_list_ops fuel l rest)
  | ListRemove d :: rest =>
      Nodes.bind (Nodes.list_find fuel l d) (fun node =>
      Nodes.bind (if negb (node =? NULL) then Nodes.list_remove l node
                  else Nodes.ret tt)
        (fun _ => run_list_ops fuel l rest))
  end.

(** The [data] pointers a list holds after the operations, head first,
    when it held [ds] and [o] lists the results of the coming
    allocations: an insert that gets its node puts the pointer in
    front, a remove takes out the first occurrence of the pointer. *)
Fixpoint data_after (ops : list list_op) (o : list bool) (ds : list ptr)
  : list ptr :=
  match ops with
  | [] => ds
  | ListInsert d :: rest =>
      data_after rest (tail o) (if hd true o then d :: ds else ds)
  | ListRemove d :: rest =>
      data_after rest o
        (match find_node ds d 0 with
         | Some i => delete i ds
         | None => ds
         end)
  end.

(** A heap with one list header, at address 5, and two nodes: the head
    at address 10 holds the pointer 7, the node at address 20 holds
    8. *)
Definition demo_heap : Nodes.heap (gmap Z nat) :=
  {| Nodes.node_at :=
       <[10 := {| Nodes.data := 7; Nodes.next := 20; Nodes.prev := NULL |}]>
         {[20 := {| Nodes.data := 8; Nodes.next := NULL; Nodes.prev := 10 |}]};
     Nodes.list_at := {[5 := {| Nodes.head := 10; Nodes.count := 2 |}]};
     Nodes.oracle := [];
     Nodes.env := <[7 := 0%nat]> {[8 := 0%nat]} |}.

Definition demo_cells : list (ptr * ptr) := [(10, 7); (20, 8)].

(** [sem_post] as a callback of the node-level [list_foreach]: the
    state of the rest of the program is the map of semaphore counts. *)
Definition post (s : ptr) : Nodes.N (gmap Z nat) unit :=
  fun h =>
    match Nodes.env h !! s with
    | Some n => Nodes.Done tt (set_env (<[s := S n]> (Nodes.env h)) h)
    | None => Nodes.Fault
    end.

(** The list of [demo_heap] as the channel model has it. *)
Definition demo_list : list_t := {| head := [7; 8]; count := 2 |}.

(** ** Calls in a world in which no thread is inside a call *)

(** The arguments of a call are usable in world [w]: the handle of a
    send, receive or close is the address of a channel; the entries of
    a select are [channel_count] in number and name channels; a select
    call is resumed in the state it waits in. *)
Definition call_ready (w : world) (x : api_call) : Prop :=
  match x with
  | CallSend c _ _ | CallSendWake c _
  | CallReceive c _ | CallReceiveWake c | CallClose c =>
      is_Some (chans w !! c)
  | CallSelect _ n (Some l) =>
      n = Z.of_nat (length l) /\ entries_valid w l = true
  | CallSelect _ _ None => True
  | CallSelectWake _ s n l =>
      n = Z.of_nat (length l) /\ Registered s l w
  end.

(** The non-blocking operation of entry [e] cannot complete in [w]: the
    channel is open and its buffer is full, for a send, or empty, for a
    receive. *)
Definition would_block (w : world) (e : select_t) : bool :=
  match chans w !! channel e with
  | Some ch =>
      negb (closed ch)
      && (if is_send e
          then buffer_current_size (buffer ch) =? buffer_capacity (buffer ch)
          else buffer_current_size (buffer ch) =? 0)
  | None => false
  end.

(** Both waiter lists are as they were. *)
Definition same_lists (ch ch' : chan_t) : Prop :=
  send_list ch' = send_list ch /\ receive_list ch' = receive_list ch.

(** The buffer and the closed flag are as they were. *)
Definition same_content (ch ch' : chan_t) : Prop :=
  buffer ch' = buffer ch /\ closed ch' = closed ch.

(** A waiter list that was allocated, whose [count] is the number of
    its nodes, with room for one more node in the range of [size_t]. *)
Definition list_ok (l : option list_t) : bool :=
  match l with
  | Some x =>
      (count x =? Z.of_nat (length (head x)))
      && (Z.of_nat (length (head x)) + 1 <? 2 ^ SIZE_WIDTH)
  | None => false
  end.

(** Both lists of every channel are such lists. *)
Definition lists_ok (w : world) : bool :=
  forallb
    (fun c =>
       match chans w !! c with
       | Some ch => list_ok (send_list ch) && list_ok (receive_list ch)
       | None => true
       end)
    (elements (dom (chans w))).

(** A list that is ready for the registration of token [s], or holds
    it already: it was allocated, its [count] is the number of its
    nodes, and the token fits if it is not there yet. *)
Definition tidy (s : ptr) (l : option list_t) : Prop :=
  exists x, l = Some x
            /\ count x = Z.of_nat (length (head x))
            /\ Z.of_nat (length (head x))
               + (if decide (s ∈ head x) then 0 else 1) < 2 ^ SIZE_WIDTH.

(** [demo_world2] with channel 2 at capacity 2 holding nothing, as it
    is, and channel 1 emptied: a receive on either would block. *)
Definition demo_world3 : world :=
  {| chans := <[1 := demo_chan [] false]> {[2 := demo_chan [] false]};
     sems := ∅; oracle := [] |}.

(** The world with one open channel of capacity 0, at address 1. *)
Definition demo_world0 : world :=
  {| chans := {[1 := set_buffer (buffer_create 0) (demo_chan [] false)]};
     sems := ∅; oracle := [] |}.

(** The calls that transfer values or close a channel: all but
    [channel_select]. *)
Definition is_transfer (x : api_call) : bool :=
  match x with
  | CallSelect _ _ _ | CallSelectWake _ _ _ _ => false
  | _ => true
  end.

(** The world after a sequence of calls, each made when the one before
    has returned or waits. *)
Fixpoint api_worlds (xs : list api_call) (w : world) : option world :=
  match xs with
  | [] => Some w
  | x :: rest =>
      match api_world x w with
      | Some w' => api_worlds rest w'
      | None => None
      end
  end.

(** ** The end of a select call *)


(** ** Channels in the store *)

(** The entry of a mutex or a condition variable in the store: none
    when it is not initialised. *)
Definition mutex_entry (m : mutex_t) : option mutex_t :=
  match m with
  | MutexUninit => None
  | _ => Some m
  end.

Definition cond_entry (cv : cond_t) : option cond_t :=
  match cv with
  | CondUninit => None
  | _ => Some cv
  end.

(** The store holds at [c] the channel that the channel model has as
    [ch]: the structure at [c] has its closed flag, points to a buffer
    block with its buffer and to two lists that are its lists, with
    the chains [cs] and [cr]; the mutexes and condition variables of
    the structure are in the states [ch] gives.  The two lists are
    different lists with different nodes. *)
Definition chan_rep (h : Blocks.store) (c : ptr) (ch : chan_t)
  (cs cr : list (ptr * ptr)) : bool :=
  negb (c =? NULL)
  && match Blocks.chan_at (Nodes.env h) !! c with
     | Some cb =>
         bool_decide (Blocks.closed cb = closed ch)
         && bool_decide (Blocks.buffer_at (Nodes.env h) !! Blocks.buffer cb
                         = Some (buffer ch))
         && forallb
              (fun f =>
                 bool_decide (Blocks.mutex_at (Nodes.env h) !! (c, f)
                              = mutex_entry (get_mutex f ch)))
              [Fmutex; Fsend_list_mutex; Freceive_list_mutex]
         && forallb
              (fun f =>
                 bool_decide (Blocks.cond_at (Nodes.env h) !! (c, f)
                              = cond_entry (get_cond f ch)))
              [Fsend_condition; Freceive_condition]
         && same_list h (Blocks.send_list cb) cs (send_list ch)
         && same_list h (Blocks.receive_list cb) cr (receive_list ch)
         && ((Blocks.send_list cb =? NULL)
             || negb (Blocks.send_list cb =? Blocks.receive_list cb))
         && forallb (fun a => bool_decide (a ∉ cr.*1)) cs.*1
     | None => false
     end.

(** The heap after [list_destroy] of a list with chain [cells]: the
    nodes and the header are gone; a null list leaves it as it is. *)
Definition list_freed {E} (l : ptr) (cells : list (ptr * ptr))
  (al : option list_t) (h : Nodes.heap E) : Nodes.heap E :=
  match al with
  | Some _ => del_list l (foldr del_node h cells.*1)
  | None => h
  end.

(** The store after [channel_destroy] of the closed channel at [c],
    whose structure is [cb]: the buffer block, the entries of the three
    mutexes and the two condition variables, the two lists with their
    nodes and the structure are gone, and nothing else has changed. *)
Definition channel_freed (c : ptr) (cb : Blocks.chan_block) (ch : chan_t)
  (cs cr : list (ptr * ptr)) (h : Blocks.store) : Blocks.store :=
  set_env
    {| Blocks.chan_at := delete c (Blocks.chan_at (Nodes.env h));
       Blocks.buffer_at :=
         delete (Blocks.buffer cb) (Blocks.buffer_at (Nodes.env h));
       Blocks.mutex_at :=
         delete (c, Freceive_list_mutex)
           (delete (c, Fsend_list_mutex)
              (delete (c, Fmutex) (Blocks.mutex_at (Nodes.env h))));
       Blocks.cond_at :=
         delete (c, Freceive_condition)
           (delete (c, Fsend_condition) (Blocks.cond_at (Nodes.env h))) |}
    (list_freed (Blocks.receive_list cb) cr (receive_list ch)
       (list_freed (Blocks.send_list cb) cs (send_list ch) h)).

(** The store with nothing in it. *)
Definition empty_store : Blocks.store :=
  {| Nodes.node_at := ∅; Nodes.list_at := ∅; Nodes.oracle := [];
     Nodes.env := {| Blocks.chan_at := ∅; Blocks.buffer_at := ∅;
                     Blocks.mutex_at := ∅; Blocks.cond_at := ∅ |} |}.

(** A store with one channel, at address 1: its buffer, of capacity 2
    and holding 5, is the block at address 3; its send list is the
    header at address 5 with the given chain, its receive list the
    header at address 6 with no node; its mutexes are free and its
    condition variables initialised. *)
Definition demo_store (nodes : gmap Z Nodes.list_node_t)
  (first : ptr) (n : Z) (cl : bool) : Blocks.store :=
  {| Nodes.node_at := nodes;
     Nodes.list_at :=
       <[5 := {| Nodes.head := first; Nodes.count := n |}]>
         {[6 := {| Nodes.head := NULL; Nodes.count := 0 |}]};
     Nodes.oracle := [];
     Nodes.env :=
       {| Blocks.chan_at :=
            {[1 := {| Blocks.buffer := 3; Blocks.send_list := 5;
                      Blocks.receive_list := 6; Blocks.closed := cl |}]};
          Blocks.buffer_at :=
            {[3 := {| buf_capacity := 2; buf_items := [5] |}]};
          Blocks.mutex_at :=
            <[(1, Fmutex) := MutexFree]>
              (<[(1, Fsend_list_mutex) := MutexFree]>
                 {[(1, Freceive_list_mutex) := MutexFree]});
          Blocks.cond_at :=
            <[(1, Fsend_condition) := CondReady]>
              {[(1, Freceive_condition) := CondReady]} |} |}.

(** The structure of that channel. *)
Definition demo_block (cl : bool) : Blocks.chan_block :=
  {| Blocks.buffer := 3; Blocks.send_list := 5; Blocks.receive_list := 6;
     Blocks.closed := cl |}.

(** That channel with one token, 7, in its send list, in the node at
    address 10. *)
Definition demo_store1 (cl : bool) : Blocks.store :=
  demo_store
    {[10 := {| Nodes.data := 7; Nodes.next := NULL; Nodes.prev := NULL |}]}
    10 1 cl.


(** The channel of these stores in the channel model. *)
Definition demo_chan_with (ts : list ptr) (cl : bool) : chan_t :=
  set_list true (Some {| head := ts; count := Z.of_nat (length ts) |})
    (demo_chan [5] cl).

(** * Properties *)

(** ** Basic facts about worlds and the primitives *)

Lemma world_eq (w1 w2 : world) :
  chans w1 = chans w2 -> sems w1 = sems w2 -> oracle w1 = oracle w2 ->
  w1 = w2.
Proof. destruct w1, w2; simpl; intros; subst; reflexivity. Qed.

Lemma lookup_upd_chan c ch w : chans (upd_chan c ch w) !! c = Some ch.
Proof. simpl. apply lookup_insert_eq. Qed.

Lemma lookup_upd_chan_ne c c' ch w :
  c ≠ c' -> chans (upd_chan c ch w) !! c' = chans w !! c'.
Proof. intros Hne. simpl. by apply lookup_insert_ne. Qed.

Lemma upd_chan_upd_chan c ch1 ch2 w :
  upd_chan c ch2 (upd_chan c ch1 w) = upd_chan c ch2 w.
Proof. apply world_eq; simpl; [apply insert_insert_eq | done | done]. Qed.

Lemma upd_chan_id c ch w : chans w !! c = Some ch -> upd_chan c ch w = w.
Proof. intros H. apply world_eq; simpl; [by apply insert_id | done | done]. Qed.

Lemma set_mutex_same f ch : set_mutex f (get_mutex f ch) ch = ch.
Proof. destruct ch, f; reflexivity. Qed.

Lemma set_mutex_set_mutex f m1 m2 ch :
  set_mutex f m2 (set_mutex f m1 ch) = set_mutex f m2 ch.
Proof. destruct ch, f; reflexivity. Qed.

Lemma get_set_mutex f m ch : get_mutex f (set_mutex f m ch) = m.
Proof. destruct f; reflexivity. Qed.

Lemma set_mutex_release f ch :
  get_mutex f ch = MutexFree ->
  set_mutex f MutexFree (set_mutex f MutexHeld ch) = ch.
Proof.
  intros H. rewrite set_mutex_set_mutex, <- H. apply set_mutex_same.
Qed.

(** Reduction of field reads over field updates. *)
Ltac fields :=
  cbn [buffer mutex send_list_mutex receive_list_mutex send_condition
       receive_condition send_list receive_list closed
       set_buffer set_closed set_mutex set_cond set_list
       get_mutex get_cond get_list list_mutex].

Ltac fields_in H :=
  cbn [buffer mutex send_list_mutex receive_list_mutex send_condition
       receive_condition send_list receive_list closed
       set_buffer set_closed set_mutex set_cond set_list
       get_mutex get_cond get_list list_mutex] in H.

(** Running the primitives under a bind, in a world whose structure at
    [c] is known: the world has the shape [upd_chan c ch w]. *)
Section Run.
Context {B : Type}.
Implicit Types (w : world) (ch : chan_t).

Lemma bind_ret {A} (a : A) (k : A -> M B) w : bind (ret a) k w = k a w.
Proof. reflexivity. Qed.

Lemma bind_bind {A A'} (m : M A) (f : A -> M A') (k : A' -> M B) w :
  bind (bind m f) k w = bind m (fun a => bind (f a) k) w.
Proof. unfold bind. destruct (m w); reflexivity. Qed.

Lemma bind_run {A} (m : M A) (k : A -> M B) a w w' :
  m w = Ret a w' -> bind m k w = k a w'.
Proof. intros H. unfold bind. by rewrite H. Qed.

Lemma bind_get_chan c ch (k : chan_t -> M B) w :
  bind (get_chan c) k (upd_chan c ch w) = k ch (upd_chan c ch w).
Proof. unfold bind, get_chan. by rewrite lookup_upd_chan. Qed.

Lemma bind_put_chan c ch ch' (k : unit -> M B) w :
  bind (put_chan c ch') k (upd_chan c ch w) = k tt (upd_chan c ch' w).
Proof.
  unfold bind, put_chan. rewrite lookup_upd_chan.
  f_equal. apply upd_chan_upd_chan.
Qed.

Lemma bind_lock c f ch (k : Z -> M B) w :
  get_mutex f ch = MutexFree ->
  bind (pthread_mutex_lock c f) k (upd_chan c ch w)
  = k 0 (upd_chan c (set_mutex f MutexHeld ch) w).
Proof.
  intros Hm. unfold pthread_mutex_lock.
  rewrite bind_bind, bind_get_chan, Hm, bind_bind, bind_put_chan.
  reflexivity.
Qed.

Lemma bind_unlock c f ch (k : Z -> M B) w :
  get_mutex f ch = MutexHeld ->
  bind (pthread_mutex_unlock c f) k (upd_chan c ch w)
  = k 0 (upd_chan c (set_mutex f MutexFree ch) w).
Proof.
  intros Hm. unfold pthread_mutex_unlock.
  rewrite bind_bind, bind_get_chan, Hm, bind_bind, bind_put_chan.
  reflexivity.
Qed.

(** The status of a signal or broadcast is not looked at. *)
Lemma bind_signal c f ch (k : M B) w :
  bind (pthread_cond_signal c f) (fun _ => k) (upd_chan c ch w)
  = k (upd_chan c ch w).
Proof.
  unfold pthread_cond_signal. rewrite bind_bind, bind_get_chan.
  by destruct (get_cond f ch).
Qed.

Lemma bind_broadcast c f ch (k : M B) w :
  bind (pthread_cond_broadcast c f) (fun _ => k) (upd_chan c ch w)
  = k (upd_chan c ch w).
Proof.
  unfold pthread_cond_broadcast. rewrite bind_bind, bind_get_chan.
  by destruct (get_cond f ch).
Qed.
End Run.

(** A known structure gives the world the shape the lemmas above
    expect. *)
Lemma world_shape c ch w : chans w !! c = Some ch -> w = upd_chan c ch w.
Proof. intros H. symmetry. by apply upd_chan_id. Qed.

(** ** Closed channels *)

Lemma channel_send_closed w c ch v blocking :
  c ≠ NULL -> chans w !! c = Some ch -> mutex ch = MutexFree ->
  closed ch = true ->
  channel_send c v blocking w = Ret CLOSED_ERROR w.
Proof.
  intros Hc H Hm Hcl. unfold channel_send.
  destruct (Z.eqb_spec c NULL) as [|_]; [done|].
  rewrite (world_shape c ch w H) at 1.
  rewrite bind_lock by done.
  rewrite andb_false_r. unfold channel_send_locked.
  rewrite bind_get_chan. fields. rewrite Hcl.
  rewrite bind_unlock by done.
  rewrite set_mutex_release, upd_chan_id by done. reflexivity.
Qed.

Lemma channel_receive_closed w c ch blocking :
  c ≠ NULL -> chans w !! c = Some ch -> mutex ch = MutexFree ->
  closed ch = true ->
  channel_receive c blocking w = Ret (CLOSED_ERROR, None) w.
Proof.
  intros Hc H Hm Hcl. unfold channel_receive.
  destruct (Z.eqb_spec c NULL) as [|_]; [done|].
  rewrite (world_shape c ch w H) at 1.
  rewrite bind_lock by done.
  rewrite andb_false_r. unfold channel_receive_locked.
  rewrite bind_get_chan. fields. rewrite Hcl.
  rewrite bind_unlock by done.
  rewrite set_mutex_release, upd_chan_id by done. reflexivity.
Qed.

(** ** Posting the tokens of a waiter list *)

Lemma live_cons s t ts :
  live s (t :: ts) = true <-> is_Some (s !! t) /\ live s ts = true.
Proof.
  simpl. rewrite andb_true_iff, bool_decide_eq_true. reflexivity.
Qed.

Lemma live_insert s t n ts :
  is_Some (s !! t) -> live s ts = true -> live (<[t := n]> s) ts = true.
Proof.
  intros Ht. induction ts as [|u ts IH]; [done|].
  rewrite !live_cons. intros [Hu Hts]. split; [|auto].
  rewrite lookup_insert. case_decide; [by eexists | done].
Qed.

Lemma live_post_all s ts us :
  live s ts = true -> live s us = true -> live (post_all ts s) us = true.
Proof.
  revert s. induction ts as [|t ts IH]; intros s Hts Hus; [done|].
  apply live_cons in Hts as [[n Hn] Hts]. simpl. rewrite Hn.
  apply IH; apply live_insert; eauto.
Qed.

Lemma live_notified l s us :
  live s (tokens l) = true -> live s us = true ->
  live (notified l s) us = true.
Proof.
  intros. unfold notified. destruct (_ =? _); auto using live_post_all.
Qed.

Lemma set_sems_id w : set_sems (sems w) w = w.
Proof. by destruct w. Qed.

Lemma set_sems_upd_chan s c ch w :
  set_sems s (upd_chan c ch w) = upd_chan c ch (set_sems s w).
Proof. reflexivity. Qed.

Lemma foreach_sem_post ts w :
  live (sems w) ts = true ->
  foreach_node ts sem_post w = Ret tt (set_sems (post_all ts (sems w)) w).
Proof.
  revert w. induction ts as [|t ts IH]; intros w Hl.
  - simpl. unfold ret. by rewrite set_sems_id.
  - apply live_cons in Hl as [[n Hn] Hl]. simpl.
    unfold bind at 1. unfold sem_post at 1. rewrite Hn.
    rewrite IH by (simpl; by apply live_insert). reflexivity.
Qed.

Lemma list_foreach_sem_post l w :
  live (sems w) (tokens l) = true ->
  list_foreach l sem_post w
  = Ret tt (set_sems (post_all (tokens l) (sems w)) w).
Proof.
  destruct l as [l|]; simpl; [apply foreach_sem_post|].
  intros _. unfold ret. by rewrite set_sems_id.
Qed.

Lemma notify_list_run {B} c snd ch (k : unit -> M B) w :
  get_mutex (list_mutex snd) ch = MutexFree ->
  live (sems w) (tokens (get_list snd ch)) = true ->
  bind (notify_list c snd) k (upd_chan c ch w)
  = k tt (upd_chan c ch (set_sems (notified (get_list snd ch) (sems w)) w)).
Proof.
  intros Hm Hl. unfold notify_list.
  rewrite bind_bind, bind_lock by done.
  rewrite bind_bind, bind_get_chan.
  assert (Hg : get_list snd (set_mutex (list_mutex snd) MutexHeld ch)
               = get_list snd ch) by (by destruct snd).
  rewrite Hg. unfold notified.
  destruct (list_count (get_list snd ch) =? 0); simpl negb; cbv iota.
  - rewrite bind_bind, bind_ret, bind_bind.
    rewrite bind_unlock by apply get_set_mutex.
    rewrite set_mutex_release, bind_ret, set_sems_id by done. reflexivity.
  - rewrite bind_bind. unfold bind at 1.
    rewrite list_foreach_sem_post by done.
    rewrite set_sems_upd_chan, bind_bind.
    rewrite bind_unlock by apply get_set_mutex.
    rewrite set_mutex_release, bind_ret by done. reflexivity.
Qed.

(** ** Channels ready for a call *)

Lemma chan_ready_Ready w c ch :
  chans w !! c = Some ch -> chan_ready w c = true <-> Ready w c ch.
Proof.
  intros H. unfold chan_ready, buffer_ok. rewrite H.
  rewrite !andb_true_iff, !bool_decide_eq_true, negb_true_iff.
  rewrite Z.eqb_neq, !Z.leb_le, Z.ltb_lt.
  split.
  - intros [[[[[[? ?] ?] ?] [[? ?] ?]] ?] ?]. by constructor.
  - intros []. tauto.
Qed.

(** Within bounds, the test [capacity - size == 0] on [size_t] values
    is the test for a full buffer. *)
Lemma full_test b :
  0 <= buffer_capacity b < 2 ^ SIZE_WIDTH ->
  buffer_current_size b <= buffer_capacity b ->
  (size_wrap (buffer_capacity b - buffer_current_size b) =? 0)
  = (buffer_current_size b =? buffer_capacity b).
Proof.
  intros Hc Hs. unfold size_wrap.
  assert (0 <= buffer_current_size b)
    by (unfold buffer_current_size; lia).
  rewrite Z.mod_small by lia.
  destruct (Z.eqb_spec (buffer_current_size b) (buffer_capacity b));
    [apply Z.eqb_eq | apply Z.eqb_neq]; lia.
Qed.

(** ** Sending and receiving on an open channel *)

Lemma channel_send_perform_run w c ch v :
  Ready w c ch ->
  buffer_current_size (buffer ch) ≠ buffer_capacity (buffer ch) ->
  channel_send_perform c v
    (upd_chan c (set_mutex Fmutex MutexHeld ch) w)
  = Ret SUCCESS
      (upd_chan c (set_buffer (pushed v (buffer ch)) ch)
         (set_sems (notified (receive_list ch) (sems w)) w)).
Proof.
  intros [] Hroom. unfold channel_send_perform.
  rewrite bind_get_chan. fields. unfold buffer_add.
  destruct (Z.ltb_spec (buffer_current_size (buffer ch))
              (buffer_capacity (buffer ch))); [|lia].
  rewrite bind_put_chan, bind_signal, bind_unlock by done.
  rewrite (notify_list_run c false) by done.
  fields. unfold ret. repeat f_equal.
  destruct ch; simpl in *; subst; reflexivity.
Qed.

Lemma channel_send_nonblocking_full w c ch v :
  Ready w c ch -> closed ch = false ->
  buffer_current_size (buffer ch) = buffer_capacity (buffer ch) ->
  channel_send c v false w = Ret WOULDBLOCK w.
Proof.
  intros HR Hop Hfull. pose proof HR as []. unfold channel_send.
  destruct (Z.eqb_spec c NULL) as [|_]; [done|].
  rewrite (world_shape c ch w) at 1 by done.
  rewrite bind_lock by done. cbn [negb andb Z.eqb].
  unfold channel_send_locked. rewrite bind_get_chan. fields.
  rewrite Hop, full_test by done.
  rewrite (proj2 (Z.eqb_eq _ _) Hfull).
  rewrite bind_unlock by done.
  rewrite set_mutex_release, upd_chan_id by done. reflexivity.
Qed.

Lemma channel_send_nonblocking_room w c ch v :
  Ready w c ch -> closed ch = false ->
  buffer_current_size (buffer ch) ≠ buffer_capacity (buffer ch) ->
  channel_send c v false w
  = Ret SUCCESS
      (upd_chan c (set_buffer (pushed v (buffer ch)) ch)
         (set_sems (notified (receive_list ch) (sems w)) w)).
Proof.
  intros HR Hop Hroom. pose proof HR as []. unfold channel_send.
  destruct (Z.eqb_spec c NULL) as [|_]; [done|].
  rewrite (world_shape c ch w) at 1 by done.
  rewrite bind_lock by done. cbn [negb andb Z.eqb].
  unfold channel_send_locked. rewrite bind_get_chan. fields.
  rewrite Hop, full_test by done.
  rewrite (proj2 (Z.eqb_neq _ _) Hroom).
  by apply channel_send_perform_run.
Qed.

Lemma channel_receive_perform_run w c ch x rest :
  Ready w c ch ->
  buf_items (buffer ch) = x :: rest ->
  channel_receive_perform c
    (upd_chan c (set_mutex Fmutex MutexHeld ch) w)
  = Ret (SUCCESS, Some x)
      (upd_chan c (set_buffer (popped (buffer ch)) ch)
         (set_sems (notified (send_list ch) (sems w)) w)).
Proof.
  intros [] Hitems. unfold channel_receive_perform.
  rewrite bind_get_chan. fields. unfold buffer_remove. rewrite Hitems.
  rewrite bind_put_chan, bind_signal, bind_unlock by done.
  rewrite (notify_list_run c true) by done.
  fields. unfold ret, popped. rewrite Hitems. repeat f_equal.
  destruct ch; simpl in *; subst; reflexivity.
Qed.

Lemma empty_test b :
  (buffer_current_size b =? 0) = bool_decide (buf_items b = []).
Proof.
  unfold buffer_current_size. destruct (buf_items b); reflexivity.
Qed.

Lemma channel_receive_nonblocking_empty w c ch :
  Ready w c ch -> closed ch = false ->
  buf_items (buffer ch) = [] ->
  channel_receive c false w = Ret (WOULDBLOCK, None) w.
Proof.
  intros HR Hop Hempty. pose proof HR as []. unfold channel_receive.
  destruct (Z.eqb_spec c NULL) as [|_]; [done|].
  rewrite (world_shape c ch w) at 1 by done.
  rewrite bind_lock by done. cbn [negb andb Z.eqb].
  unfold channel_receive_locked. rewrite bind_get_chan. fields.
  rewrite Hop, empty_test, Hempty.
  rewrite bool_decide_eq_true_2 by done.
  rewrite bind_unlock by done.
  rewrite set_mutex_release, upd_chan_id by done. reflexivity.
Qed.

Lemma channel_receive_nonblocking_item w c ch x rest :
  Ready w c ch -> closed ch = false ->
  buf_items (buffer ch) = x :: rest ->
  channel_receive c false w
  = Ret (SUCCESS, Some x)
      (upd_chan c (set_buffer (popped (buffer ch)) ch)
         (set_sems (notified (send_list ch) (sems w)) w)).
Proof.
  intros HR Hop Hitems. pose proof HR as []. unfold channel_receive.
  destruct (Z.eqb_spec c NULL) as [|_]; [done|].
  rewrite (world_shape c ch w) at 1 by done.
  rewrite bind_lock by done. cbn [negb andb Z.eqb].
  unfold channel_receive_locked. rewrite bind_get_chan. fields.
  rewrite Hop, empty_test, Hitems.
  rewrite bool_decide_eq_false_2 by done.
  by apply (channel_receive_perform_run w c ch x rest).
Qed.

(** ** C2 *)

(** C2.  On a channel whose closed flag is set, [channel_send] and
    [channel_receive] return [CLOSED_ERROR] in blocking and in
    non-blocking mode, whatever the buffer holds; the world, and with it
    the buffer, is left as it was, and [channel_receive] does not store
    to its out-slot. *)
Theorem closed_channel_rejects (w : world) (c : ptr) (ch : chan_t)
  (v : val) (blocking : bool) :
  c ≠ NULL ->
  chans w !! c = Some ch ->
  mutex ch = MutexFree ->
  closed ch = true ->
  channel_send c v blocking w = Ret CLOSED_ERROR w
  /\ channel_receive c blocking w = Ret (CLOSED_ERROR, None) w.
Proof.
  intros. split.
  - by apply (channel_send_closed w c ch).
  - by apply (channel_receive_closed w c ch).
Qed.

Lemma closed_channel_rejects_witness :
  channel_send 1 9 true (demo_world [5; 6] true)
  = Ret CLOSED_ERROR (demo_world [5; 6] true)
  /\ channel_receive 1 true (demo_world [5; 6] true)
     = Ret (CLOSED_ERROR, None) (demo_world [5; 6] true).
Proof.
  apply (closed_channel_rejects (demo_world [5; 6] true) 1
           (demo_chan [5; 6] true) 9 true);
    [discriminate | reflexivity | reflexivity | reflexivity].
Defined.

(** ** C3 *)

(** C3.  On an open channel, a non-blocking [channel_send] returns
    [WOULDBLOCK] and leaves the world unchanged when the buffer is full
    ([size] equals [capacity]); otherwise it appends the value at the
    tail of the buffer, posts the tokens of the receive list and
    returns [SUCCESS]. *)
Theorem channel_send_nonblocking (w : world) (c : ptr) (ch : chan_t)
  (v : val) :
  chan_ready w c = true ->
  chans w !! c = Some ch ->
  closed ch = false ->
  channel_send c v false w
  = if buffer_current_size (buffer ch) =? buffer_capacity (buffer ch)
    then Ret WOULDBLOCK w
    else Ret SUCCESS
           (upd_chan c
              (set_buffer
                 {| buf_capacity := buf_capacity (buffer ch);
                    buf_items := buf_items (buffer ch) ++ [v] |} ch)
              (set_sems (notified (receive_list ch) (sems w)) w)).
Proof.
  intros Hr H Hop. apply (chan_ready_Ready w c ch H) in Hr.
  destruct (Z.eqb_spec (buffer_current_size (buffer ch))
              (buffer_capacity (buffer ch))).
  - by apply (channel_send_nonblocking_full w c ch).
  - by apply (channel_send_nonblocking_room w c ch).
Qed.

Lemma channel_send_nonblocking_witness :
  channel_send 1 7 false (demo_world [5] false)
  = Ret SUCCESS (demo_world [5; 7] false)
  /\ channel_send 1 7 false (demo_world [5; 6] false)
     = Ret WOULDBLOCK (demo_world [5; 6] false).
Proof.
  split.
  - rewrite (channel_send_nonblocking (demo_world [5] false) 1
               (demo_chan [5] false) 7);
      [vm_compute; reflexivity | reflexivity | reflexivity | reflexivity].
  - rewrite (channel_send_nonblocking (demo_world [5; 6] false) 1
               (demo_chan [5; 6] false) 7);
      [vm_compute; reflexivity | reflexivity | reflexivity | reflexivity].
Defined.

(** ** C4 *)

(** C4.  On an open channel, a non-blocking [channel_receive] returns
    [WOULDBLOCK] without storing to the out-slot and leaves the world
    unchanged when the buffer is empty; otherwise it removes the
    oldest buffered value, stores it in the out-slot, posts the tokens
    of the send list and returns [SUCCESS]. *)
Theorem channel_receive_nonblocking (w : world) (c : ptr) (ch : chan_t) :
  chan_ready w c = true ->
  chans w !! c = Some ch ->
  closed ch = false ->
  channel_receive c false w
  = match buf_items (buffer ch) with
    | [] => Ret (WOULDBLOCK, None) w
    | oldest :: rest =>
        Ret (SUCCESS, Some oldest)
          (upd_chan c
             (set_buffer
                {| buf_capacity := buf_capacity (buffer ch);
                   buf_items := rest |} ch)
             (set_sems (notified (send_list ch) (sems w)) w))
    end.
Proof.
  intros Hr H Hop. apply (chan_ready_Ready w c ch H) in Hr.
  destruct (buf_items (buffer ch)) as [|x rest] eqn:Hitems.
  - by apply (channel_receive_nonblocking_empty w c ch).
  - rewrite (channel_receive_nonblocking_item w c ch x rest) by done.
    unfold popped. by rewrite Hitems.
Qed.

Lemma channel_receive_nonblocking_witness :
  channel_receive 1 false (demo_world [5; 6] false)
  = Ret (SUCCESS, Some 5) (demo_world [6] false)
  /\ channel_receive 1 false (demo_world [] false)
     = Ret (WOULDBLOCK, None) (demo_world [] false).
Proof.
  split.
  - rewrite (channel_receive_nonblocking (demo_world [5; 6] false) 1
               (demo_chan [5; 6] false));
      [vm_compute; reflexivity | reflexivity | reflexivity | reflexivity].
  - rewrite (channel_receive_nonblocking (demo_world [] false) 1
               (demo_chan [] false));
      [vm_compute; reflexivity | reflexivity | reflexivity | reflexivity].
Defined.

(** ** C9 *)

Lemma new_chan_addr_fresh w :
  new_chan_addr w ≠ NULL /\ chans w !! new_chan_addr w = None.
Proof.
  pose proof (is_fresh ({[NULL]} ∪ dom (chans w))) as Hf.
  fold (new_chan_addr w) in Hf. split.
  - intros E. apply Hf. rewrite E. set_solver.
  - apply not_elem_of_dom. set_solver.
Qed.

Lemma list_create_result w :
  exists l w', list_create w = Ret l w' /\ chans w' = chans w
               /\ sems w' = sems w
               /\ list_count l = 0 /\ tokens l = [].
Proof.
  unfold list_create, malloc, bind, next_outcome.
  destruct (oracle w) as [|[] rest]; simpl; eauto 10.
Qed.

(** C9.  [channel_create] returns the null handle exactly when the
    allocation of the channel structure fails.  Otherwise it returns a
    non-null address that was not in use, and the structure at that
    address has a buffer of the given capacity and size 0, free
    mutexes, initialised condition variables and a closed flag that is
    false; each of its two waiter lists is an allocated list with no
    node and [count] 0 when the allocation of that list succeeds, and
    the null pointer when it fails.  The channels that existed and the
    semaphores are untouched, and three allocations are used up. *)
Theorem channel_create_result (w : world) (size : Z) :
  match oracle w with
  | false :: rest => channel_create size w = Ret NULL (set_oracle rest w)
  | _ =>
      new_chan_addr w ≠ NULL
      /\ chans w !! new_chan_addr w = None
      /\ channel_create size w
         = Ret (new_chan_addr w)
             {| chans :=
                  <[new_chan_addr w :=
                      {| buffer := {| buf_capacity := size;
                                      buf_items := [] |};
                         mutex := MutexFree;
                         send_list_mutex := MutexFree;
                         receive_list_mutex := MutexFree;
                         send_condition := CondReady;
                         receive_condition := CondReady;
                         send_list :=
                           if hd true (tail (oracle w))
                           then Some {| head := []; count := 0 |}
                           else None;
                         receive_list :=
                           if hd true (tail (tail (oracle w)))
                           then Some {| head := []; count := 0 |}
                           else None;
                         closed := false |}]> (chans w);
                sems := sems w;
                oracle := tail (tail (tail (oracle w))) |}
  end.
Proof.
  destruct (new_chan_addr_fresh w) as [Hn Hf].
  unfold channel_create, list_create, malloc, next_outcome, bind, ret,
    new_chan_addr, set_oracle in *.
  destruct w as [cs sm o]. cbn [chans sems oracle] in *.
  destruct o as [|[] [|[] [|[] rest]]]; cbn; done.
Qed.

(** C9, as stated, fails: an allocation failure does not always give
    the null handle.  When the allocation of the structure succeeds and
    the allocation of a waiter list fails, [channel_create] returns a
    channel, and the list is a null pointer. *)
Lemma channel_create_ignores_list_failure :
  ~ (forall (w : world) (size : Z),
        (exists k, (k < 3)%nat /\ oracle w !! k = Some false) ->
        exists w', channel_create size w = Ret NULL w').
Proof.
  intros Hall.
  destruct (Hall {| chans := ∅; sems := ∅; oracle := [true; false] |} 2)
    as (w' & Hrun).
  { exists 1%nat. split; [lia | reflexivity]. }
  assert (Hc : exists w1,
             channel_create 2 {| chans := ∅; sems := ∅;
                                 oracle := [true; false] |} = Ret 1 w1
             /\ (send_list <$> chans w1 !! 1) = Some None)
    by (eexists; split; vm_compute; reflexivity).
  destruct Hc as (w1 & Hc & _). rewrite Hc in Hrun. discriminate.
Qed.

(** With no allocation failure ahead, the first channel of an empty
    world is at address 1. *)
Example channel_create_first :
  channel_create 2 empty_world
  = Ret 1 {| chans := {[1 := demo_chan [] false]}; sems := ∅;
             oracle := [] |}.
Proof. vm_compute. reflexivity. Qed.

(** A failing [list_create] leaves a null list in the new channel. *)
Example channel_create_null_list :
  exists w, channel_create 2 {| chans := ∅; sems := ∅;
                                oracle := [true; false] |} = Ret 1 w
            /\ (send_list <$> chans w !! 1) = Some None.
Proof. eexists. split; vm_compute; reflexivity. Qed.

(** ** C10 *)

Lemma pthread_mutex_lock_valid w c f ch :
  chans w !! c = Some ch -> get_mutex f ch ≠ MutexUninit ->
  pthread_mutex_lock c f w
  = match get_mutex f ch with
    | MutexHeld => Wait (OnMutex c f) w
    | _ => Ret 0 (upd_chan c (set_mutex f MutexHeld ch) w)
    end.
Proof.
  intros H Hv. rewrite (world_shape c ch w H) at 1.
  unfold pthread_mutex_lock. rewrite bind_get_chan.
  destruct (get_mutex f ch); [done| |].
  - rewrite bind_put_chan. reflexivity.
  - unfold wait. by rewrite <- (world_shape c ch w H).
Qed.

(** C10.  With an initialised core mutex, the plain lock that the
    non-blocking paths of [channel_send] and [channel_receive] call
    never reports a failure: whenever it returns, it returns 0 (while
    the mutex is held elsewhere it does not return, the thread
    waits).  The branch that answers [WOULDBLOCK] for a failed lock is
    therefore not taken, and the non-blocking call is the lock followed
    by the rest of the function. *)
Theorem nonblocking_lock_never_fails (w : world) (c : ptr) (ch : chan_t)
  (v : val) :
  c ≠ NULL ->
  chans w !! c = Some ch ->
  mutex ch ≠ MutexUninit ->
  (forall r w', pthread_mutex_lock c Fmutex w = Ret r w' -> r = 0)
  /\ channel_send c v false w
     = (pthread_mutex_lock c Fmutex;; channel_send_locked c v false) w
  /\ channel_receive c false w
     = (pthread_mutex_lock c Fmutex;; channel_receive_locked c false) w.
Proof.
  intros Hc H Hv.
  pose proof (pthread_mutex_lock_valid w c Fmutex ch H Hv) as Hl.
  split; [|split].
  - intros r w' E. rewrite Hl in E. simpl in E.
    destruct (mutex ch); congruence.
  - unfold channel_send. destruct (Z.eqb_spec c NULL) as [|_]; [done|].
    unfold bind. rewrite Hl. simpl. by destruct (mutex ch).
  - unfold channel_receive. destruct (Z.eqb_spec c NULL) as [|_]; [done|].
    unfold bind. rewrite Hl. simpl. by destruct (mutex ch).
Qed.

Lemma nonblocking_lock_never_fails_witness :
  (forall r w',
      pthread_mutex_lock 1 Fmutex (demo_world [5; 6] false) = Ret r w' ->
      r = 0)
  /\ channel_send 1 7 false (demo_world [5; 6] false)
     = (pthread_mutex_lock 1 Fmutex;; channel_send_locked 1 7 false)
         (demo_world [5; 6] false)
  /\ channel_receive 1 false (demo_world [5; 6] false)
     = (pthread_mutex_lock 1 Fmutex;; channel_receive_locked 1 false)
         (demo_world [5; 6] false).
Proof.
  apply (nonblocking_lock_never_fails (demo_world [5; 6] false) 1
           (demo_chan [5; 6] false) 7);
    [discriminate | reflexivity | discriminate].
Defined.

(** While another thread holds the core mutex, the non-blocking send
    waits for it: it does not answer [WOULDBLOCK]. *)
Example nonblocking_send_waits_for_mutex :
  let w := upd_chan 1 (set_mutex Fmutex MutexHeld (demo_chan [5] false))
             (demo_world [5] false) in
  channel_send 1 7 false w = Wait (OnMutex 1 Fmutex) w.
Proof. vm_compute. reflexivity. Qed.

(** The branch is taken only when the lock reports an error, as for a
    mutex that was never initialised. *)
Example nonblocking_send_uninitialised_mutex :
  let w := upd_chan 1 (set_mutex Fmutex MutexUninit (demo_chan [5] false))
             (demo_world [5] false) in
  channel_send 1 7 false w = Ret WOULDBLOCK w.
Proof. vm_compute. reflexivity. Qed.

(** ** C8: channel_destroy in the channel model *)

Lemma bind_mutex_destroy {B} c f ch (k : Z -> M B) w :
  get_mutex f ch = MutexFree ->
  bind (pthread_mutex_destroy c f) k (upd_chan c ch w)
  = k 0 (upd_chan c (set_mutex f MutexUninit ch) w).
Proof.
  intros Hm. unfold pthread_mutex_destroy.
  rewrite bind_bind, bind_get_chan, Hm, bind_bind, bind_put_chan.
  reflexivity.
Qed.

Lemma bind_cond_destroy {B} c f ch (k : M B) w :
  bind (pthread_cond_destroy c f) (fun _ => k) (upd_chan c ch w)
  = k (upd_chan c (set_cond f CondUninit ch) w).
Proof.
  unfold pthread_cond_destroy. rewrite bind_bind, bind_get_chan.
  destruct (get_cond f ch) eqn:E.
  - rewrite bind_ret. f_equal. f_equal.
    destruct ch, f; simpl in *; subst; reflexivity.
  - rewrite bind_bind, bind_put_chan. reflexivity.
Qed.

Lemma free_chan_upd c ch w :
  free_chan c (upd_chan c ch w) = Ret tt (del_chan c w).
Proof.
  unfold free_chan. rewrite lookup_upd_chan. f_equal.
  apply world_eq; simpl; [apply delete_insert_eq | done | done].
Qed.

Lemma channel_destroy_null w : channel_destroy NULL w = Ret OTHER_ERROR w.
Proof. reflexivity. Qed.

Lemma channel_destroy_open w c ch :
  c ≠ NULL -> chans w !! c = Some ch -> closed ch = false ->
  channel_destroy c w = Ret DESTROY_ERROR w.
Proof.
  intros Hc H Hop. unfold channel_destroy.
  destruct (Z.eqb_spec c NULL) as [|_]; [done|].
  rewrite (world_shape c ch w H) at 1. rewrite bind_get_chan, Hop.
  cbn [negb]. unfold ret. by rewrite <- (world_shape c ch w H).
Qed.

(** [list_destroy] returns for a null list and for a chain of at most
    one node. *)
Lemma list_destroy_short l w :
  (length (tokens l) <= 1)%nat -> list_destroy l w = Ret tt w.
Proof.
  destruct l as [[[|t [|u ts]] n]|]; simpl; intros; try reflexivity; lia.
Qed.

Lemma channel_destroy_closed w c ch :
  c ≠ NULL -> chans w !! c = Some ch -> closed ch = true ->
  mutex ch = MutexFree -> send_list_mutex ch = MutexFree ->
  receive_list_mutex ch = MutexFree ->
  (length (tokens (send_list ch)) <= 1)%nat ->
  (length (tokens (receive_list ch)) <= 1)%nat ->
  channel_destroy c w = Ret SUCCESS (del_chan c w).
Proof.
  intros Hc H Hcl Hm Hs Hr Hsl Hrl. unfold channel_destroy.
  destruct (Z.eqb_spec c NULL) as [|_]; [done|].
  rewrite (world_shape c ch w H) at 1. rewrite bind_get_chan, Hcl.
  cbn [negb]. unfold buffer_free. rewrite bind_ret.
  rewrite !bind_mutex_destroy by done.
  rewrite !bind_cond_destroy.
  rewrite (bind_run _ _ _ _ _ (list_destroy_short _ _ Hsl)).
  rewrite (bind_run _ _ _ _ _ (list_destroy_short _ _ Hrl)).
  rewrite (bind_run _ _ _ _ _ (free_chan_upd _ _ _)).
  reflexivity.
Qed.

(** ** Both modes on an open channel *)

Lemma channel_send_open w c ch v blocking :
  Ready w c ch -> closed ch = false ->
  channel_send c v blocking w
  = if buffer_current_size (buffer ch) =? buffer_capacity (buffer ch)
    then if blocking then Wait (OnCond c Fsend_condition) w
         else Ret WOULDBLOCK w
    else Ret SUCCESS (after_send c ch v w).
Proof.
  intros HR Hop. destruct blocking.
  - pose proof HR as []. unfold channel_send.
    destruct (Z.eqb_spec c NULL) as [|_]; [done|].
    rewrite (world_shape c ch w) at 1 by done.
    rewrite bind_lock by done. cbn [negb andb].
    unfold channel_send_locked. rewrite bind_get_chan. fields.
    rewrite Hop. unfold channel_send_loop. rewrite bind_get_chan. fields.
    rewrite full_test by done.
    destruct (Z.eqb_spec (buffer_current_size (buffer ch))
                (buffer_capacity (buffer ch))).
    + unfold pthread_cond_wait. rewrite bind_unlock by done.
      rewrite set_mutex_release, upd_chan_id by done. reflexivity.
    + by apply channel_send_perform_run.
  - destruct (Z.eqb_spec (buffer_current_size (buffer ch))
                (buffer_capacity (buffer ch))).
    + by apply (channel_send_nonblocking_full w c ch).
    + by apply (channel_send_nonblocking_room w c ch).
Qed.

Lemma channel_receive_open w c ch blocking :
  Ready w c ch -> closed ch = false ->
  channel_receive c blocking w
  = match buf_items (buffer ch) with
    | [] => if blocking then Wait (OnCond c Freceive_condition) w
            else Ret (WOULDBLOCK, None) w
    | x :: _ => Ret (SUCCESS, Some x) (after_receive c ch w)
    end.
Proof.
  intros HR Hop. destruct blocking.
  - pose proof HR as []. unfold channel_receive.
    destruct (Z.eqb_spec c NULL) as [|_]; [done|].
    rewrite (world_shape c ch w) at 1 by done.
    rewrite bind_lock by done. cbn [negb andb].
    unfold channel_receive_locked. rewrite bind_get_chan. fields.
    rewrite Hop. unfold channel_receive_loop. rewrite bind_get_chan. fields.
    rewrite empty_test.
    destruct (buf_items (buffer ch)) as [|x rest] eqn:Hitems.
    + rewrite bool_decide_eq_true_2 by done.
      unfold pthread_cond_wait. rewrite bind_unlock by done.
      rewrite set_mutex_release, upd_chan_id by done. reflexivity.
    + rewrite bool_decide_eq_false_2 by done.
      by apply (channel_receive_perform_run w c ch x rest).
  - destruct (buf_items (buffer ch)) as [|x rest] eqn:Hitems.
    + by apply (channel_receive_nonblocking_empty w c ch).
    + by apply (channel_receive_nonblocking_item w c ch x rest).
Qed.

(** A channel stays ready across a successful send or receive. *)
Lemma Ready_after_send w c ch v :
  Ready w c ch ->
  buffer_current_size (buffer ch) ≠ buffer_capacity (buffer ch) ->
  Ready (after_send c ch v w) c (set_buffer (pushed v (buffer ch)) ch).
Proof.
  intros [] Hroom. constructor; fields; try done.
  - apply lookup_upd_chan.
  - unfold buffer_current_size, buffer_capacity, pushed in *. simpl.
    rewrite length_app. simpl. lia.
  - simpl. by apply live_notified.
  - simpl. by apply live_notified.
Qed.

Lemma Ready_after_receive w c ch :
  Ready w c ch ->
  Ready (after_receive c ch w) c (set_buffer (popped (buffer ch)) ch).
Proof.
  intros []. constructor; fields; try done.
  - apply lookup_upd_chan.
  - unfold buffer_current_size, buffer_capacity, popped in *. simpl.
    destruct (buf_items (buffer ch)); simpl in *; lia.
  - simpl. by apply live_notified.
  - simpl. by apply live_notified.
Qed.

(** ** C5: one sender and one receiver, one after the other *)

Lemma run_ops_fifo c ops :
  forall w ch, Ready w c ch -> closed ch = false ->
    fifo_outcome c (buf_items (buffer ch)) ops (run_ops c ops w).
Proof.
  induction ops as [|[v b|b] ops IH]; intros w ch HR Hop.
  - simpl. exists ch. rewrite !app_nil_r. auto.
  - cbn [run_ops]. unfold bind at 1.
    rewrite (channel_send_open w c ch v b HR Hop).
    destruct (Z.eqb_spec (buffer_current_size (buffer ch))
                (buffer_capacity (buffer ch))) as [Hfull|Hroom].
    + destruct b; [reflexivity|].
      specialize (IH w ch HR Hop). unfold bind.
      destruct (run_ops c ops w) as [[sent received] w'| |]; simpl in *; auto.
    + specialize (IH _ _ (Ready_after_send w c ch v HR Hroom) Hop).
      unfold bind.
      destruct (run_ops c ops (after_send c ch v w))
        as [[sent received] w'| |]; simpl in *; auto.
      * destruct IH as (ch' & ? & ? & E). exists ch'.
        rewrite <- E, <- app_assoc. auto.
      * rewrite IH. apply orb_true_r.
  - cbn [run_ops]. unfold bind at 1.
    rewrite (channel_receive_open w c ch b HR Hop).
    destruct (buf_items (buffer ch)) as [|x items] eqn:Hitems.
    + destruct b; [reflexivity|].
      specialize (IH w ch HR Hop). rewrite Hitems in IH. unfold bind.
      destruct (run_ops c ops w) as [[sent received] w'| |]; simpl in *; auto.
    + specialize (IH _ _ (Ready_after_receive w c ch HR) Hop).
      fields_in IH. unfold popped in IH. rewrite Hitems in IH.
      simpl in IH. unfold bind.
      destruct (run_ops c ops (after_receive c ch w))
        as [[sent received] w'| |]; simpl in *; auto.
      * destruct IH as (ch' & ? & ? & E). exists ch'.
        rewrite E. auto.
      * rewrite IH. apply orb_true_r.
Qed.

(** Sending into an empty channel with room and receiving gives the
    value back. *)
Lemma send_then_receive w c ch v b1 b2 :
  Ready w c ch -> closed ch = false -> buf_items (buffer ch) = [] ->
  0 < buffer_capacity (buffer ch) ->
  channel_send c v b1 w = Ret SUCCESS (after_send c ch v w)
  /\ channel_receive c b2 (after_send c ch v w)
     = Ret (SUCCESS, Some v)
         (after_receive c (set_buffer (pushed v (buffer ch)) ch)
            (after_send c ch v w)).
Proof.
  intros HR Hop Hempty Hcap.
  assert (Hroom : buffer_current_size (buffer ch)
                  ≠ buffer_capacity (buffer ch)).
  { unfold buffer_current_size. rewrite Hempty. simpl. lia. }
  split.
  - rewrite (channel_send_open w c ch v b1 HR Hop).
    by rewrite (proj2 (Z.eqb_neq _ _) Hroom).
  - rewrite (channel_receive_open _ c _ b2
               (Ready_after_send w c ch v HR Hroom) Hop).
    fields. unfold pushed. simpl. rewrite Hempty. reflexivity.
Qed.

(** C5, as stated, fails: on an open channel that is not full but holds
    an older value, the receive after [channel_send(v)] yields the
    older value.  Here the buffer of capacity 2 holds 5; after sending
    7 the receive yields 5. *)
Lemma roundtrip_fails_with_buffered_value :
  ~ (forall (w : world) (c : ptr) (ch : chan_t) (v : val),
        chan_ready w c = true -> chans w !! c = Some ch ->
        closed ch = false ->
        buffer_current_size (buffer ch) ≠ buffer_capacity (buffer ch) ->
        exists w1 w2,
          channel_send c v false w = Ret SUCCESS w1
          /\ channel_receive c false w1 = Ret (SUCCESS, Some v) w2).
Proof.
  intros Hall.
  destruct (Hall (demo_world [5] false) 1 (demo_chan [5] false) 7)
    as (w1 & w2 & Hs & Hr); try reflexivity; try discriminate.
  assert (Hs' : channel_send 1 7 false (demo_world [5] false)
                = Ret SUCCESS (demo_world [5; 7] false))
    by (vm_compute; reflexivity).
  assert (Hr' : channel_receive 1 false (demo_world [5; 7] false)
                = Ret (SUCCESS, Some 5) (demo_world [7] false))
    by (vm_compute; reflexivity).
  rewrite Hs' in Hs. injection Hs as <-.
  rewrite Hr' in Hr. discriminate.
Qed.

(** C5, amended.  On an open channel whose buffer is empty:
    - if the capacity is at least 1, [channel_send(v)] followed by
      [channel_receive] yields [v], in either mode;
    - for every sequence of sends and receives made one after the
      other, the values received are the values sent, in the order
      they were sent, up to the values still in the buffer: the
      sequence sent is the sequence received followed by the buffer
      content.  The run returns unless a blocking call suspends; it is
      never undefined. *)
Theorem channel_fifo (w : world) (c : ptr) (ch : chan_t) :
  chan_ready w c = true ->
  chans w !! c = Some ch ->
  closed ch = false ->
  buf_items (buffer ch) = [] ->
  (forall v b1 b2, 0 < buffer_capacity (buffer ch) ->
     exists w1 w2,
       channel_send c v b1 w = Ret SUCCESS w1
       /\ channel_receive c b2 w1 = Ret (SUCCESS, Some v) w2)
  /\ (forall ops,
        match run_ops c ops w with
        | Ret (sent, received) w' =>
            exists ch', chans w' !! c = Some ch'
                        /\ sent = received ++ buf_items (buffer ch')
        | Wait _ _ => existsb op_blocking ops = true
        | Undef => False
        end).
Proof.
  intros Hr H Hop Hempty. apply (chan_ready_Ready w c ch H) in Hr.
  split.
  - intros v b1 b2 Hcap.
    destruct (send_then_receive w c ch v b1 b2 Hr Hop Hempty Hcap).
    eauto.
  - intros ops. pose proof (run_ops_fifo c ops w ch Hr Hop) as Hf.
    rewrite Hempty in Hf. unfold fifo_outcome in Hf.
    destruct (run_ops c ops w) as [[sent received] w'| |]; auto.
    destruct Hf as (ch' & [] & _ & E). eauto.
Qed.

Lemma channel_fifo_witness :
  (forall v b1 b2, 0 < buffer_capacity (buffer (demo_chan [] false)) ->
     exists w1 w2,
       channel_send 1 v b1 (demo_world [] false) = Ret SUCCESS w1
       /\ channel_receive 1 b2 w1 = Ret (SUCCESS, Some v) w2)
  /\ (forall ops,
        match run_ops 1 ops (demo_world [] false) with
        | Ret (sent, received) w' =>
            exists ch', chans w' !! 1 = Some ch'
                        /\ sent = received ++ buf_items (buffer ch')
        | Wait _ _ => existsb op_blocking ops = true
        | Undef => False
        end).
Proof.
  apply (channel_fifo (demo_world [] false) 1 (demo_chan [] false));
    reflexivity.
Defined.

(** A run: three sends (the third finds the buffer full), then three
    receives (the third finds it empty). *)
Example run_ops_example :
  run_ops 1 [OpSend 10 false; OpSend 20 false; OpSend 30 false;
             OpReceive false; OpReceive false; OpReceive false]
    (demo_world [] false)
  = Ret ([10; 20], [10; 20]) (demo_world [] false).
Proof. vm_compute. reflexivity. Qed.

(** ** Properties of channel structures that calls keep *)

(** The calls keep every relation between the old and the new
    structure at an address that is reflexive and transitive and that
    the field updates they make respect. *)

Section Preserve.
Variable rel : chan_t -> chan_t -> Prop.
Hypothesis rel_refl : forall ch, rel ch ch.
Hypothesis rel_trans : forall a b c, rel a b -> rel b c -> rel a c.
Hypothesis rel_mutex : forall f m ch, rel ch (set_mutex f m ch).
Hypothesis rel_buffer : forall b ch, rel ch (set_buffer b ch).
Hypothesis rel_close : forall ch, rel ch (set_closed true ch).

Lemma evolves_refl w : evolves rel w w.
Proof. intros c ch H. eauto. Qed.

Lemma evolves_trans w1 w2 w3 :
  evolves rel w1 w2 -> evolves rel w2 w3 -> evolves rel w1 w3.
Proof.
  intros H12 H23 c ch H. destruct (H12 c ch H) as (ch2 & H2 & R2).
  destruct (H23 c ch2 H2) as (ch3 & H3 & R3). eauto.
Qed.

Lemma evolves_same_chans w w' : chans w' = chans w -> evolves rel w w'.
Proof. intros E c ch H. rewrite E. eauto. Qed.

Lemma evolves_upd c ch ch' w :
  chans w !! c = Some ch -> rel ch ch' -> evolves rel w (upd_chan c ch' w).
Proof.
  intros H R c0 ch0 H0. destruct (decide (c = c0)) as [<-|Hne].
  - rewrite lookup_upd_chan. assert (ch0 = ch) as -> by congruence.
    eauto.
  - rewrite lookup_upd_chan_ne by done. eauto.
Qed.

Lemma keeps_ret {A} (a : A) : keeps rel (ret a).
Proof. intros w. apply evolves_refl. Qed.

Lemma keeps_wait {A} p : keeps rel (@wait A p).
Proof. intros w. apply evolves_refl. Qed.

Lemma keeps_undef {A} : keeps rel (@undef A).
Proof. intros w. exact I. Qed.

Lemma keeps_bind {A B} (m : M A) (k : A -> M B) :
  keeps rel m -> (forall a, keeps rel (k a)) -> keeps rel (bind m k).
Proof.
  intros Hm Hk w. specialize (Hm w). unfold bind.
  destruct (m w) as [a w1|p w1|]; simpl in *; auto.
  specialize (Hk a w1).
  destruct (k a w1); simpl in *; eauto using evolves_trans.
Qed.

Lemma keeps_stable {A} (m : M A) : stable m -> keeps rel m.
Proof.
  intros Hm w. specialize (Hm w).
  destruct (m w); simpl; auto using evolves_same_chans.
Qed.

Lemma keeps_weaken {A} c ch (m : M A) : keeps rel m -> keeps_at rel c ch m.
Proof. intros Hm w _. apply Hm. Qed.

Lemma keeps_get {A} c (k : chan_t -> M A) :
  (forall ch, keeps_at rel c ch (k ch)) -> keeps rel (bind (get_chan c) k).
Proof.
  intros Hk w. unfold bind, get_chan.
  destruct (chans w !! c) as [ch|] eqn:H; [|exact I]. by apply Hk.
Qed.

Lemma keeps_at_put {A} c ch ch' (k : M A) :
  rel ch ch' -> keeps_at rel c ch' k ->
  keeps_at rel c ch (bind (put_chan c ch') (fun _ => k)).
Proof.
  intros R Hk w H. unfold bind, put_chan. rewrite H.
  fold (upd_chan c ch' w).
  specialize (Hk (upd_chan c ch' w) (lookup_upd_chan _ _ _)).
  pose proof (evolves_upd c ch ch' w H R).
  destruct (k (upd_chan c ch' w)); simpl in *; eauto using evolves_trans.
Qed.

Lemma keeps_at_bind_stable {A B} c ch (m : M A) (k : A -> M B) :
  stable m -> (forall a, keeps_at rel c ch (k a)) ->
  keeps_at rel c ch (bind m k).
Proof.
  intros Hm Hk w H. specialize (Hm w). unfold bind.
  destruct (m w) as [a w1|p w1|]; simpl; auto using evolves_same_chans.
  assert (H1 : chans w1 !! c = Some ch) by (by rewrite Hm).
  specialize (Hk a w1 H1). pose proof (evolves_same_chans w w1 Hm).
  destruct (k a w1); simpl in *; eauto using evolves_trans.
Qed.

Lemma keeps_at_bind {A B} c ch (m : M A) (k : A -> M B) :
  keeps_at rel c ch m -> (forall a, keeps rel (k a)) -> keeps_at rel c ch (bind m k).
Proof.
  intros Hm Hk w H. specialize (Hm w H). unfold bind.
  destruct (m w) as [a w1|p w1|]; simpl in *; auto.
  specialize (Hk a w1).
  destruct (k a w1); simpl in *; eauto using evolves_trans.
Qed.

Lemma keeps_at_put_last c ch ch' :
  rel ch ch' -> keeps_at rel c ch (put_chan c ch').
Proof.
  intros R w H. unfold put_chan. rewrite H. simpl.
  by apply (evolves_upd c ch ch' w).
Qed.

(** *** The thread library *)

Lemma keeps_lock c f : keeps rel (pthread_mutex_lock c f).
Proof.
  apply keeps_get. intros ch. destruct (get_mutex f ch).
  - apply keeps_weaken, keeps_ret.
  - apply keeps_at_put; [apply rel_mutex|]. apply keeps_weaken, keeps_ret.
  - apply keeps_weaken, keeps_wait.
Qed.

Lemma keeps_unlock c f : keeps rel (pthread_mutex_unlock c f).
Proof.
  apply keeps_get. intros ch. destruct (get_mutex f ch).
  - apply keeps_weaken, keeps_ret.
  - apply keeps_weaken, keeps_undef.
  - apply keeps_at_put; [apply rel_mutex|]. apply keeps_weaken, keeps_ret.
Qed.

Lemma keeps_signal c f : keeps rel (pthread_cond_signal c f).
Proof.
  apply keeps_get. intros ch.
  destruct (get_cond f ch); apply keeps_weaken, keeps_ret.
Qed.

Lemma keeps_broadcast c f : keeps rel (pthread_cond_broadcast c f).
Proof.
  apply keeps_get. intros ch.
  destruct (get_cond f ch); apply keeps_weaken, keeps_ret.
Qed.

Lemma keeps_cond_wait {A} c cv m : keeps rel (@pthread_cond_wait A c cv m).
Proof.
  apply keeps_bind; [apply keeps_unlock|]. intros _. apply keeps_wait.
Qed.

Lemma keeps_cond_wait_return c m : keeps rel (pthread_cond_wait_return c m).
Proof.
  apply keeps_bind; [apply keeps_lock|]. intros _. apply keeps_ret.
Qed.

Lemma stable_ret {A} (a : A) : stable (ret a).
Proof. intros w. reflexivity. Qed.

Lemma stable_bind {A B} (m : M A) (k : A -> M B) :
  stable m -> (forall a, stable (k a)) -> stable (bind m k).
Proof.
  intros Hm Hk w. specialize (Hm w). unfold bind.
  destruct (m w) as [a w1|p w1|]; simpl in *; auto.
  specialize (Hk a w1). destruct (k a w1); simpl in *; congruence.
Qed.

Lemma stable_next_outcome : stable next_outcome.
Proof. intros w. unfold next_outcome. by destruct (oracle w). Qed.

Lemma stable_sem_post s : stable (sem_post s).
Proof. intros w. unfold sem_post. by destruct (sems w !! s). Qed.

Lemma stable_sem_wait s : stable (sem_wait s).
Proof. intros w. unfold sem_wait. by destruct (sems w !! s) as [[|n]|]. Qed.

Lemma stable_sem_destroy s : stable (sem_destroy s).
Proof. intros w. unfold sem_destroy. by destruct (sems w !! s). Qed.

Lemma stable_sem_init s : stable (sem_init s).
Proof.
  apply stable_bind; [apply stable_next_outcome|].
  intros [] w; reflexivity.
Qed.

Lemma stable_list_foreach l : stable (list_foreach l sem_post).
Proof.
  destruct l as [l|]; [|apply stable_ret]. simpl.
  induction (head l) as [|t ts IH]; simpl; [apply stable_ret|].
  apply stable_bind; [apply stable_sem_post | auto].
Qed.

Lemma stable_list_insert l s : stable (list_insert l s).
Proof.
  destruct l as [l|]; [|apply stable_ret]. simpl.
  apply stable_bind; [apply stable_next_outcome|].
  intros []; apply stable_ret.
Qed.
(** *** channel.c *)

Lemma keeps_notify_list c snd : keeps rel (notify_list c snd).
Proof.
  unfold notify_list.
  apply keeps_bind; [apply keeps_lock|]. intros _.
  apply keeps_get. intros ch. apply keeps_weaken.
  apply keeps_bind.
  - destruct (negb _); [|apply keeps_ret].
    apply keeps_stable, stable_list_foreach.
  - intros _. apply keeps_bind; [apply keeps_unlock|]. intros _.
    apply keeps_ret.
Qed.

(** What follows the update of the buffer in a send or a receive. *)
Lemma keeps_after_transfer {A} c cv snd (a : A) :
  keeps rel (pthread_cond_signal c cv;;
         pthread_mutex_unlock c Fmutex;;
         notify_list c snd;;
         ret a).
Proof.
  apply keeps_bind; [apply keeps_signal|]. intros _.
  apply keeps_bind; [apply keeps_unlock|]. intros _.
  apply keeps_bind; [apply keeps_notify_list|]. intros _.
  apply keeps_ret.
Qed.

Lemma keeps_unlock_ret {A} c (a : A) :
  keeps rel (pthread_mutex_unlock c Fmutex;; ret a).
Proof.
  apply keeps_bind; [apply keeps_unlock|]. intros _. apply keeps_ret.
Qed.

Lemma keeps_send_perform c v : keeps rel (channel_send_perform c v).
Proof.
  apply keeps_get. intros ch. destruct (buffer_add v (buffer ch)).
  - apply keeps_at_put; [apply rel_buffer|].
    apply keeps_weaken, keeps_after_transfer.
  - apply keeps_weaken, keeps_undef.
Qed.

Lemma keeps_send_loop c v : keeps rel (channel_send_loop c v).
Proof.
  apply keeps_get. intros ch. apply keeps_weaken.
  destruct (_ =? _); [apply keeps_cond_wait | apply keeps_send_perform].
Qed.

Lemma keeps_send_wake c v : keeps rel (channel_send_wake c v).
Proof.
  apply keeps_bind; [apply keeps_cond_wait_return|]. intros _.
  apply keeps_get. intros ch. apply keeps_weaken.
  destruct (closed ch); [apply keeps_unlock_ret | apply keeps_send_loop].
Qed.

Lemma keeps_send_locked c v blocking :
  keeps rel (channel_send_locked c v blocking).
Proof.
  apply keeps_get. intros ch. apply keeps_weaken.
  destruct (closed ch); [apply keeps_unlock_ret|].
  destruct blocking; [apply keeps_send_loop|].
  destruct (_ =? _); [apply keeps_unlock_ret | apply keeps_send_perform].
Qed.

Lemma keeps_send c v blocking : keeps rel (channel_send c v blocking).
Proof.
  unfold channel_send. destruct (c =? NULL); [apply keeps_ret|].
  apply keeps_bind; [apply keeps_lock|]. intros r.
  destruct (_ && _); [apply keeps_ret | apply keeps_send_locked].
Qed.

Lemma keeps_receive_perform c : keeps rel (channel_receive_perform c).
Proof.
  apply keeps_get. intros ch.
  destruct (buffer_remove (buffer ch)) as [[x b]|].
  - apply keeps_at_put; [apply rel_buffer|].
    apply keeps_weaken, keeps_after_transfer.
  - apply keeps_weaken, keeps_undef.
Qed.

Lemma keeps_receive_loop c : keeps rel (channel_receive_loop c).
Proof.
  apply keeps_get. intros ch. apply keeps_weaken.
  destruct (_ =? _); [apply keeps_cond_wait | apply keeps_receive_perform].
Qed.

Lemma keeps_receive_wake c : keeps rel (channel_receive_wake c).
Proof.
  apply keeps_bind; [apply keeps_cond_wait_return|]. intros _.
  apply keeps_get. intros ch. apply keeps_weaken.
  destruct (closed ch);
    [apply keeps_unlock_ret | apply keeps_receive_loop].
Qed.

Lemma keeps_receive_locked c blocking :
  keeps rel (channel_receive_locked c blocking).
Proof.
  apply keeps_get. intros ch. apply keeps_weaken.
  destruct (closed ch); [apply keeps_unlock_ret|].
  destruct blocking; [apply keeps_receive_loop|].
  destruct (_ =? _);
    [apply keeps_unlock_ret | apply keeps_receive_perform].
Qed.

Lemma keeps_receive c blocking : keeps rel (channel_receive c blocking).
Proof.
  unfold channel_receive. destruct (c =? NULL); [apply keeps_ret|].
  apply keeps_bind; [apply keeps_lock|]. intros r.
  destruct (_ && _); [apply keeps_ret | apply keeps_receive_locked].
Qed.

Lemma keeps_close c : keeps rel (channel_close c).
Proof.
  unfold channel_close. destruct (c =? NULL); [apply keeps_ret|].
  apply keeps_bind; [apply keeps_lock|]. intros _.
  apply keeps_get. intros ch.
  destruct (closed ch); [apply keeps_weaken, keeps_unlock_ret|].
  apply keeps_at_put; [apply rel_close|]. apply keeps_weaken.
  apply keeps_bind; [apply keeps_broadcast|]. intros _.
  apply keeps_bind; [apply keeps_broadcast|]. intros _.
  apply keeps_bind; [apply keeps_unlock|]. intros _.
  apply keeps_bind; [apply keeps_notify_list|]. intros _.
  apply keeps_bind; [apply keeps_notify_list|]. intros _.
  apply keeps_ret.
Qed.

Lemma keeps_select_attempt i e l : keeps rel (select_attempt i e l).
Proof.
  unfold select_attempt. destruct (is_send e).
  - apply keeps_bind; [apply keeps_send|]. intros st. apply keeps_ret.
  - apply keeps_bind; [apply keeps_receive|]. intros [st [v|]];
      apply keeps_ret.
Qed.

Lemma keeps_select_probe n : forall i l, keeps rel (select_probe n i l).
Proof.
  induction n as [|n IH]; intros i l; simpl; [apply keeps_ret|].
  destruct (l !! i) as [e|]; [|apply keeps_undef].
  apply keeps_bind; [apply keeps_select_attempt|]. intros [st l'].
  destruct (decide (st ≠ WOULDBLOCK)); [apply keeps_ret | apply IH].
Qed.

Lemma keeps_for_each_entry n (body : select_t -> M unit) :
  (forall e, keeps rel (body e)) ->
  forall i l, keeps rel (for_each_entry n i l body).
Proof.
  intros Hb. induction n as [|n IH]; intros i l; simpl;
    [apply keeps_ret|].
  destruct (l !! i) as [e|]; [|apply keeps_undef].
  apply keeps_bind; [apply Hb | intros _; apply IH].
Qed.

(** *** channel_select, for relations that the list updates respect *)

Hypothesis rel_list : forall snd l ch, rel ch (set_list snd l ch).

Lemma keeps_register_entry s e : keeps rel (select_register_entry s e).
Proof.
  unfold select_register_entry.
  apply keeps_bind; [apply keeps_lock|]. intros _.
  apply keeps_get. intros ch. apply keeps_at_bind.
  - destruct (list_find _ _).
    + apply keeps_weaken, keeps_ret.
    + apply keeps_at_bind_stable; [apply stable_list_insert|].
      intros l. apply keeps_at_put_last, rel_list.
  - intros _. apply keeps_bind; [apply keeps_unlock|]. intros _.
    apply keeps_ret.
Qed.

Lemma keeps_deregister_entry s e : keeps rel (select_deregister_entry s e).
Proof.
  unfold select_deregister_entry.
  apply keeps_bind; [apply keeps_lock|]. intros _.
  apply keeps_get. intros ch. apply keeps_at_bind.
  - destruct (list_find _ _).
    + apply keeps_at_put_last, rel_list.
    + apply keeps_weaken, keeps_ret.
  - intros _. apply keeps_bind; [apply keeps_unlock|]. intros _.
    apply keeps_ret.
Qed.

Lemma keeps_select_pass s n l : keeps rel (select_pass s n l).
Proof.
  unfold select_pass.
  apply keeps_bind; [apply keeps_select_probe|]. intros [[[st i]|] l'].
  - apply keeps_bind.
    { apply keeps_for_each_entry. apply keeps_deregister_entry. }
    intros _. apply keeps_bind.
    { apply keeps_stable, stable_sem_destroy. }
    intros _. apply keeps_ret.
  - apply keeps_bind; [apply keeps_stable, stable_sem_wait|].
    intros _. apply keeps_ret.
Qed.

Lemma keeps_select_loop passes s n :
  forall l, keeps rel (select_loop passes s n l).
Proof.
  induction passes as [|passes IH]; intros l; simpl; [apply keeps_ret|].
  apply keeps_bind; [apply keeps_select_pass|].
  intros [res|l']; [apply keeps_ret | apply IH].
Qed.

Lemma keeps_select_wake passes s n l :
  keeps rel (channel_select_wake passes s n l).
Proof.
  apply keeps_bind; [apply keeps_stable, stable_sem_wait|]. intros _.
  apply keeps_select_loop.
Qed.

Lemma keeps_select passes n l : keeps rel (channel_select passes n l).
Proof.
  unfold channel_select. destruct l as [l|]; [|apply keeps_ret].
  destruct (n =? 0); [apply keeps_ret|].
  intros w.
  apply (keeps_bind (sem_init (sem_local_addr w))).
  { apply keeps_stable, stable_sem_init. }
  intros r. destruct (r =? -1); [apply keeps_ret|].
  apply keeps_bind.
  { apply keeps_for_each_entry. apply keeps_register_entry. }
  intros _. apply keeps_select_loop.
Qed.
End Preserve.

(** ** C6 *)

Lemma channel_close_closed w c ch :
  c ≠ NULL -> chans w !! c = Some ch -> mutex ch = MutexFree ->
  closed ch = true ->
  channel_close c w = Ret CLOSED_ERROR w.
Proof.
  intros Hc H Hm Hcl. unfold channel_close.
  destruct (Z.eqb_spec c NULL) as [|_]; [done|].
  rewrite (world_shape c ch w H) at 1.
  rewrite bind_lock, bind_get_chan by done. fields. rewrite Hcl.
  rewrite bind_unlock by done.
  rewrite set_mutex_release, upd_chan_id by done. reflexivity.
Qed.

Lemma channel_close_open w c ch :
  Ready w c ch -> closed ch = false ->
  channel_close c w = Ret SUCCESS (after_close c ch w).
Proof.
  intros [] Hop. unfold channel_close.
  destruct (Z.eqb_spec c NULL) as [|_]; [done|].
  rewrite (world_shape c ch w) at 1 by done.
  rewrite bind_lock, bind_get_chan by done. fields. rewrite Hop.
  rewrite bind_put_chan, !bind_broadcast, bind_unlock by done.
  rewrite (notify_list_run c true) by done. fields.
  rewrite (notify_list_run c false)
    by (done || (simpl; by apply live_notified)).
  fields. unfold ret, after_close. repeat f_equal.
  destruct ch; simpl in *; subst; reflexivity.
Qed.

Lemma api_call_keeps x w :
  match api_world x w with
  | Some w' => evolves stays_closed w w'
  | None => True
  end.
Proof.
  assert (Hk : forall A (m : M A), keeps stays_closed m ->
                 match world_after (m w) with
                 | Some w' => evolves stays_closed w w'
                 | None => True
                 end).
  { intros A m Hm. specialize (Hm w). by destruct (m w). }
  assert (Ht : forall a b c : chan_t,
             stays_closed a b -> stays_closed b c -> stays_closed a c)
    by (unfold stays_closed; auto).
  destruct x; simpl; apply Hk.
  - apply keeps_send; unfold stays_closed; auto.
  - apply keeps_send_wake; unfold stays_closed; auto.
  - apply keeps_receive; unfold stays_closed; auto.
  - apply keeps_receive_wake; unfold stays_closed; auto.
  - apply keeps_close; unfold stays_closed; auto.
  - apply keeps_select; unfold stays_closed; auto.
  - apply keeps_select_wake; unfold stays_closed; auto.
Qed.

(** C6.  The closed flag only goes from false to true: after a send, a
    receive, a close or a select (the first part of the call or a
    resumption of it), returned or suspended, a channel whose flag was
    set is still allocated and its flag is still set.  [channel_close]
    on a closed channel returns [CLOSED_ERROR] and changes nothing; on
    an open channel it sets the flag, posts the tokens of both lists
    and returns [SUCCESS]. *)
Theorem closed_flag_monotonic (w : world) (c : ptr) (ch : chan_t) :
  chans w !! c = Some ch ->
  (forall x w', api_world x w = Some w' -> closed ch = true ->
     exists ch', chans w' !! c = Some ch' /\ closed ch' = true)
  /\ (c ≠ NULL -> mutex ch = MutexFree -> closed ch = true ->
      channel_close c w = Ret CLOSED_ERROR w)
  /\ (chan_ready w c = true -> closed ch = false ->
      channel_close c w = Ret SUCCESS (after_close c ch w)
      /\ (closed <$> chans (after_close c ch w) !! c) = Some true).
Proof.
  intros H. split; [|split].
  - intros x w' Hx Hcl. pose proof (api_call_keeps x w) as Hk.
    rewrite Hx in Hk. destruct (Hk c ch H) as (ch' & H' & R). eauto.
  - intros. by apply (channel_close_closed w c ch).
  - intros Hr Hop. apply (chan_ready_Ready w c ch H) in Hr. split.
    + by apply channel_close_open.
    + unfold after_close. by rewrite lookup_upd_chan.
Qed.

Lemma closed_flag_monotonic_witness :
  (forall x w', api_world x (demo_world [5] true) = Some w' ->
     closed (demo_chan [5] true) = true ->
     exists ch', chans w' !! 1 = Some ch' /\ closed ch' = true)
  /\ channel_close 1 (demo_world [5] true)
     = Ret CLOSED_ERROR (demo_world [5] true)
  /\ channel_close 1 (demo_world [5] false)
     = Ret SUCCESS (demo_world [5] true).
Proof.
  split; [|split].
  - apply (closed_flag_monotonic (demo_world [5] true) 1
             (demo_chan [5] true)). reflexivity.
  - apply (closed_flag_monotonic (demo_world [5] true) 1
             (demo_chan [5] true)); [reflexivity | discriminate | reflexivity..].
  - apply (closed_flag_monotonic (demo_world [5] false) 1
             (demo_chan [5] false)); reflexivity.
Defined.

(** ** Worlds in which no thread is inside a call *)

Lemma world_ready_AllReady w : world_ready w = true <-> AllReady w.
Proof.
  unfold world_ready, AllReady. rewrite forallb_forall. split.
  - intros Hall c ch H. apply chan_ready_Ready; [done|].
    apply Hall. apply list_elem_of_In, elem_of_elements, elem_of_dom. eauto.
  - intros Hall c Hc.
    apply list_elem_of_In, elem_of_elements, elem_of_dom in Hc as [ch H].
    apply (chan_ready_Ready w c ch H). auto.
Qed.

Lemma entries_valid_lookup w l i e :
  entries_valid w l = true -> l !! i = Some e ->
  is_Some (chans w !! channel e).
Proof.
  unfold entries_valid. rewrite forallb_forall. intros Hall Hi.
  apply list_elem_of_lookup_2, list_elem_of_In, Hall in Hi.
  by apply bool_decide_eq_true in Hi.
Qed.

(** ** Facts about linked_list.c *)

Lemma find_node_None ts s i :
  find_node ts s i = None <-> s ∉ ts.
Proof.
  revert i. induction ts as [|t ts IH]; intros i; simpl.
  - split; [intros _; apply not_elem_of_nil | done].
  - rewrite not_elem_of_cons. destruct (Z.eqb_spec t s) as [->|Hne].
    + split; [done | intros [? _]; done].
    + rewrite IH. split; [intros; split; auto | intros [_ ?]; done].
Qed.

Lemma find_node_Some ts s i j :
  find_node ts s i = Some j ->
  exists k, j = (i + k)%nat /\ ts !! k = Some s
            /\ occurrences s (delete k ts) = pred (occurrences s ts)
            /\ (forall t, t ∈ delete k ts -> t ∈ ts).
Proof.
  revert i. induction ts as [|t ts IH]; intros i; simpl; [done|].
  destruct (Z.eqb_spec t s) as [->|Hne].
  - intros [= <-]. exists 0%nat. repeat split; [lia| |].
    + unfold occurrences. simpl. by destruct (Z.eq_dec s s).
    + simpl. intros t Ht. by apply elem_of_cons; right.
  - intros Hf. destruct (IH _ Hf) as (k & -> & Hk & Ho & Hsub).
    exists (S k). repeat split; [lia|done| |].
    + unfold occurrences in *. simpl.
      destruct (Z.eq_dec t s); [done | exact Ho].
    + simpl. intros u Hu. apply elem_of_cons in Hu as [->|Hu].
      * apply elem_of_cons; by left.
      * apply elem_of_cons; right; auto.
Qed.

Lemma occurrences_zero s ts : occurrences s ts = 0%nat <-> s ∉ ts.
Proof.
  unfold occurrences. rewrite list_elem_of_In.
  symmetry. apply count_occ_not_In.
Qed.

(** [list_find] finds a token exactly when the list holds it. *)
Lemma list_find_None l s : list_find l s = None <-> s ∉ tokens l.
Proof.
  destruct l as [l|]; simpl; [apply find_node_None|].
  split; [intros _; apply not_elem_of_nil | done].
Qed.

(** Removing the node [list_find] returns takes one occurrence of the
    token away and adds nothing. *)
Lemma list_remove_found l s k :
  list_find l s = Some k ->
  occurrences s (tokens (list_remove l (Some k)))
  = pred (occurrences s (tokens l))
  /\ (forall t, t ∈ tokens (list_remove l (Some k)) -> t ∈ tokens l).
Proof.
  destruct l as [l|]; simpl; [|done]. intros Hf.
  destruct (find_node_Some _ _ _ _ Hf) as (k' & -> & _ & Ho & Hsub).
  simpl in *. auto.
Qed.

(** [list_insert] either leaves the list as it is (null list, failed
    allocation) or puts the token in front. *)
Lemma list_insert_result l s w :
  exists l' o',
    list_insert l s w = Ret l' (set_oracle o' w)
    /\ (tokens l' = tokens l \/ tokens l' = s :: tokens l).
Proof.
  destruct l as [l|]; simpl.
  - unfold bind, malloc, next_outcome.
    destruct (oracle w) as [|[] rest] eqn:Ho.
    + exists (Some {| head := s :: head l; count := size_wrap (count l + 1) |}),
        (oracle w).
      split; [|by right]. unfold ret. f_equal. by destruct w.
    + eexists _, rest. split; [reflexivity | by right].
    + eexists _, rest. split; [reflexivity | by left].
  - exists None, (oracle w). split; [|by left].
    unfold ret. f_equal. by destruct w.
Qed.

(** ** The loops of channel_select in a ready world *)

Lemma set_list_same snd ch : set_list snd (get_list snd ch) ch = ch.
Proof. destruct ch, snd; reflexivity. Qed.

Lemma set_oracle_id w : set_oracle (oracle w) w = w.
Proof. by destruct w. Qed.

Lemma Ready_list_mutex w c ch snd :
  Ready w c ch -> get_mutex (list_mutex snd) ch = MutexFree.
Proof. intros []. by destruct snd. Qed.

Lemma get_list_set_mutex snd f m ch :
  get_list snd (set_mutex f m ch) = get_list snd ch.
Proof. by destruct snd. Qed.

Lemma unlock_after_set_list snd l ch :
  get_mutex (list_mutex snd) ch = MutexFree ->
  set_mutex (list_mutex snd) MutexFree
    (set_list snd l (set_mutex (list_mutex snd) MutexHeld ch))
  = set_list snd l ch.
Proof. destruct ch, snd; simpl; intros; subst; reflexivity. Qed.

Lemma register_entry_run w s e ch :
  Ready w (channel e) ch ->
  exists l' o',
    select_register_entry s e w
    = Ret tt (upd_chan (channel e) (set_list (is_send e) l' ch)
                (set_oracle o' w))
    /\ (tokens l' = tokens (get_list (is_send e) ch)
        \/ ((s ∉ tokens (get_list (is_send e) ch))
            /\ tokens l' = s :: tokens (get_list (is_send e) ch))).
Proof.
  intros HR. pose proof (Ready_list_mutex w _ ch (is_send e) HR) as Hm.
  pose proof HR as [].
  destruct (list_find (get_list (is_send e) ch) s) as [k|] eqn:Hf.
  - exists (get_list (is_send e) ch), (oracle w).
    split; [|by left]. unfold select_register_entry.
    rewrite (world_shape (channel e) ch w) at 1 by done.
    rewrite bind_lock, bind_get_chan, get_list_set_mutex, Hf by done.
    rewrite bind_ret, bind_unlock by apply get_set_mutex.
    rewrite set_mutex_release, set_list_same, set_oracle_id by done.
    reflexivity.
  - destruct (list_insert_result (get_list (is_send e) ch) s
                (upd_chan (channel e)
                   (set_mutex (list_mutex (is_send e)) MutexHeld ch) w))
      as (l' & o' & Hrun & Htok).
    exists l', o'. split.
    + unfold select_register_entry.
      rewrite (world_shape (channel e) ch w) at 1 by done.
      rewrite bind_lock, bind_get_chan, get_list_set_mutex, Hf by done.
      rewrite bind_bind, (bind_run _ _ _ _ _ Hrun).
      change (set_oracle o' (upd_chan ?c ?x w))
        with (upd_chan c x (set_oracle o' w)).
      rewrite bind_put_chan, bind_unlock by (by destruct (is_send e)).
      rewrite unlock_after_set_list by done. reflexivity.
    + apply list_find_None in Hf. destruct Htok; auto.
Qed.

Lemma deregister_entry_run w s e ch :
  Ready w (channel e) ch ->
  select_deregister_entry s e w
  = Ret tt
      (upd_chan (channel e)
         (set_list (is_send e)
            (list_remove (get_list (is_send e) ch)
               (list_find (get_list (is_send e) ch) s)) ch) w).
Proof.
  intros HR. pose proof (Ready_list_mutex w _ ch (is_send e) HR) as Hm.
  pose proof HR as []. unfold select_deregister_entry.
  rewrite (world_shape (channel e) ch w) at 1 by done.
  rewrite bind_lock, bind_get_chan, get_list_set_mutex by done.
  destruct (list_find (get_list (is_send e) ch) s) as [k|] eqn:Hf.
  - rewrite bind_put_chan, bind_unlock by (by destruct (is_send e)).
    rewrite unlock_after_set_list by done. reflexivity.
  - rewrite bind_ret, bind_unlock by apply get_set_mutex.
    rewrite set_mutex_release by done.
    assert (E : list_remove (get_list (is_send e) ch) None
                = get_list (is_send e) ch)
      by (by destruct (get_list (is_send e) ch)).
    rewrite E, set_list_same. reflexivity.
Qed.

(** ** Invariants of a select call *)

Lemma entries_valid_Valid w l : entries_valid w l = true -> Valid w l.
Proof.
  intros Hv c snd Hin. unfold targets in Hin.
  apply list_elem_of_fmap in Hin as (e & [= -> ->] & He).
  apply list_elem_of_lookup in He as [i Hi].
  by apply (entries_valid_lookup w l i e).
Qed.

Lemma target_of_lookup l i e :
  l !! i = Some e -> (channel e, is_send e) ∈ targets l.
Proof.
  intros Hi. unfold targets. apply list_elem_of_fmap. exists e.
  split; [done|]. by apply list_elem_of_lookup_2 in Hi.
Qed.

Lemma token_absent_once s w : token_absent s w -> token_once s w.
Proof.
  intros Ha c snd. specialize (Ha c snd).
  apply occurrences_zero in Ha. lia.
Qed.

(** The lists after the update of one list. *)
Lemma reg_upd_list c snd l' ch w c0 snd0 :
  chans w !! c = Some ch ->
  reg (upd_chan c (set_list snd l' ch) w) c0 snd0
  = if decide ((c0, snd0) = (c, snd)) then tokens l' else reg w c0 snd0.
Proof.
  intros H. unfold reg. destruct (decide (c = c0)) as [<-|Hne].
  - rewrite lookup_upd_chan, H.
    case_decide as E.
    + injection E as ->. by destruct snd.
    + destruct snd, snd0; try reflexivity; by destruct E.
  - rewrite lookup_upd_chan_ne by done.
    case_decide as E; [|done]. injection E as -> ->. done.
Qed.

Lemma live_kept s s' ts :
  sems_kept s s' -> live s ts = true -> live s' ts = true.
Proof.
  intros Hk. unfold live. rewrite !forallb_forall. intros Hl t Ht.
  apply bool_decide_eq_true. apply Hk.
  specialize (Hl t Ht). by apply bool_decide_eq_true in Hl.
Qed.

Lemma live_elem s ts :
  live s ts = true <-> forall t, t ∈ ts -> is_Some (s !! t).
Proof.
  unfold live. rewrite forallb_forall. split.
  - intros Hl t Ht. apply list_elem_of_In in Ht.
    specialize (Hl t Ht). by apply bool_decide_eq_true in Hl.
  - intros Hl t Ht. apply bool_decide_eq_true, Hl, list_elem_of_In, Ht.
Qed.

Lemma sems_kept_post_all ts s : sems_kept s (post_all ts s).
Proof.
  revert s. induction ts as [|t ts IH]; intros s u Hu; [done|].
  simpl. apply IH. destruct (s !! t) eqn:E; [|done].
  rewrite lookup_insert. case_decide; [by eexists | done].
Qed.

Lemma sems_kept_notified l s : sems_kept s (notified l s).
Proof.
  unfold notified. destruct (_ =? _); [by intros t|].
  apply sems_kept_post_all.
Qed.

Lemma Ready_frame w w' c ch :
  Ready w c ch -> chans w' !! c = Some ch ->
  sems_kept (sems w) (sems w') -> Ready w' c ch.
Proof.
  intros [] H Hk. constructor; eauto using live_kept.
Qed.

(** Updating one ready channel to a ready channel, with no semaphore
    lost, keeps the world ready. *)
Lemma AllReady_upd w w0 c ch' :
  AllReady w -> is_Some (chans w !! c) ->
  chans w0 = chans w -> sems_kept (sems w) (sems w0) ->
  Ready (upd_chan c ch' w0) c ch' ->
  AllReady (upd_chan c ch' w0).
Proof.
  intros Hall Hc Ech Hk HR c0 ch0 H0.
  destruct (decide (c = c0)) as [<-|Hne].
  - rewrite lookup_upd_chan in H0. by injection H0 as <-.
  - rewrite lookup_upd_chan_ne in H0 by done.
    rewrite Ech in H0. apply (Ready_frame w); [by apply Hall| |done].
    rewrite lookup_upd_chan_ne by done. by rewrite Ech.
Qed.

Lemma Ready_set_list w w0 c ch snd l' :
  Ready w c ch -> sems w0 = sems w ->
  live (sems w) (tokens l') = true ->
  Ready (upd_chan c (set_list snd l' ch) w0) c (set_list snd l' ch).
Proof.
  intros [] Es Hl. constructor; fields; try done.
  - apply lookup_upd_chan.
  - simpl. rewrite Es. by destruct snd.
  - simpl. rewrite Es. by destruct snd.
Qed.

(** A loop over the entries that establishes [Inv (S j)] from [Inv j]
    at entry [j] runs to its end. *)
Lemma for_each_entry_inv (Inv : nat -> world -> Prop) l body :
  (forall j e w, l !! j = Some e -> Inv j w ->
     exists w', body e w = Ret tt w' /\ Inv (S j) w') ->
  forall n i w, (i + n <= length l)%nat -> Inv i w ->
    exists w', for_each_entry n i l body w = Ret tt w'
               /\ Inv (i + n)%nat w'.
Proof.
  intros Hstep. induction n as [|n IH]; intros i w Hlen Hinv; simpl.
  - exists w. rewrite Nat.add_0_r. auto.
  - destruct (lookup_lt_is_Some_2 l i) as [e He]; [lia|]. rewrite He.
    destruct (Hstep i e w He Hinv) as (w1 & Hrun & Hinv1).
    rewrite (bind_run _ _ _ _ _ Hrun).
    destruct (IH (S i) w1) as (w2 & Hrun2 & Hinv2); [lia|done|].
    exists w2. split; [done|].
    replace (i + S n)%nat with (S i + n)%nat by lia. done.
Qed.

Lemma Registered_targets s l l' w :
  targets l' = targets l -> Registered s l w -> Registered s l' w.
Proof.
  intros E []. constructor; try done.
  - unfold Valid. by rewrite E.
  - unfold token_within. by rewrite E.
Qed.

Lemma Valid_upd w w0 l c ch' :
  Valid w l -> chans w0 = chans w -> Valid (upd_chan c ch' w0) l.
Proof.
  intros Hv E c0 snd0 Hin. specialize (Hv c0 snd0 Hin). simpl.
  rewrite lookup_insert. case_decide; [by eexists | by rewrite E].
Qed.

Lemma register_entry_inv s l w i e :
  Registered s l w -> l !! i = Some e ->
  exists w', select_register_entry s e w = Ret tt w'
             /\ Registered s l w' /\ sems w' = sems w.
Proof.
  intros [Hall Hs Hv Honce Hin] Hi.
  pose proof (target_of_lookup l i e Hi) as Ht.
  destruct (Hv _ _ Ht) as [ch Hch]. pose proof (Hall _ _ Hch) as HR.
  destruct (register_entry_run w s e ch HR) as (l' & o' & Hrun & Htok).
  eexists. split; [exact Hrun|]. split; [|reflexivity].
  assert (Hlive : live (sems w) (tokens l') = true).
  { destruct HR. apply live_elem. intros t Hel.
    assert (Hold : forall u, u ∈ tokens (get_list (is_send e) ch) ->
                             is_Some (sems w !! u)).
    { apply live_elem. by destruct (is_send e). }
    destruct Htok as [E|[_ E]]; rewrite E in Hel; [by apply Hold|].
    apply elem_of_cons in Hel as [->|Hel]; [done | by apply Hold]. }
  assert (Hreg : forall c0 snd0,
    reg (upd_chan (channel e) (set_list (is_send e) l' ch)
           (set_oracle o' w)) c0 snd0
    = if decide ((c0, snd0) = (channel e, is_send e)) then tokens l'
      else reg w c0 snd0).
  { intros. by rewrite (reg_upd_list _ _ _ ch). }
  assert (Hown : reg w (channel e) (is_send e)
                 = tokens (get_list (is_send e) ch))
    by (unfold reg; by rewrite Hch).
  constructor.
  - apply (AllReady_upd w); [done | by eexists | done | by intros t |].
    by apply (Ready_set_list w).
  - done.
  - by apply (Valid_upd w).
  - intros c0 snd0. rewrite Hreg. case_decide as E; [|apply Honce].
    destruct Htok as [Et|[Hnot Et]]; rewrite Et.
    + rewrite <- Hown. apply Honce.
    + apply occurrences_zero in Hnot. unfold occurrences in *. simpl.
      destruct (Z.eq_dec s s); [lia | done].
  - intros c0 snd0. rewrite Hreg. case_decide as E; [|apply Hin].
    intros _. by rewrite E.
Qed.

Lemma deregister_entry_inv s l w j e :
  Registered s l w -> removed_before s l j w -> l !! j = Some e ->
  exists w', select_deregister_entry s e w = Ret tt w'
             /\ Registered s l w' /\ removed_before s l (S j) w'
             /\ sems w' = sems w.
Proof.
  intros [Hall Hs Hv Honce Hin] Hrem Hj.
  pose proof (target_of_lookup l j e Hj) as Ht.
  destruct (Hv _ _ Ht) as [ch Hch]. pose proof (Hall _ _ Hch) as HR.
  pose proof (deregister_entry_run w s e ch HR) as Hrun.
  set (L := get_list (is_send e) ch) in *.
  set (L' := list_remove L (list_find L s)) in *.
  eexists. split; [exact Hrun|].
  assert (Hown : reg w (channel e) (is_send e) = tokens L)
    by (unfold reg; by rewrite Hch).
  assert (Hle : (occurrences s (tokens L) <= 1)%nat)
    by (rewrite <- Hown; apply Honce).
  assert (Hsub : forall t, t ∈ tokens L' -> t ∈ tokens L).
  { subst L'. destruct (list_find L s) as [k|] eqn:Hf.
    - by apply (list_remove_found L s k).
    - by destruct L. }
  assert (Hgone : s ∉ tokens L').
  { subst L'. destruct (list_find L s) as [k|] eqn:Hf.
    - apply occurrences_zero.
      destruct (list_remove_found L s k Hf) as [-> _]. lia.
    - apply list_find_None in Hf. by destruct L. }
  assert (Hreg : forall c0 snd0,
    reg (upd_chan (channel e) (set_list (is_send e) L' ch) w) c0 snd0
    = if decide ((c0, snd0) = (channel e, is_send e)) then tokens L'
      else reg w c0 snd0).
  { intros. by rewrite (reg_upd_list _ _ _ ch). }
  split; [|split; [|done]].
  - constructor.
    + apply (AllReady_upd w); [done | by eexists | done | by intros t |].
      apply (Ready_set_list w); [done..|].
      destruct HR. apply live_elem. intros t Hel.
      assert (Hold : forall u, u ∈ tokens L -> is_Some (sems w !! u)).
      { apply live_elem. subst L. by destruct (is_send e). }
      auto.
    + done.
    + by apply (Valid_upd w).
    + intros c0 snd0. rewrite Hreg. case_decide as E; [|apply Honce].
      apply occurrences_zero in Hgone. lia.
    + intros c0 snd0. rewrite Hreg. case_decide as E; [|apply Hin].
      intros _. by rewrite E.
  - intros j' e' Hlt Hj'. rewrite Hreg. case_decide as E; [done|].
    destruct (decide (j' = j)) as [->|Hne].
    + rewrite Hj in Hj'. injection Hj' as <-. by destruct E.
    + apply (Hrem j'); [lia | done].
Qed.

(** ** Probing the entries *)

Lemma select_attempt_probe i e l w :
  l !! i = Some e ->
  select_attempt i e l w
  = (let* (status, slot) := probe e in ret (status, store_slot i slot l)) w.
Proof.
  intros Hi. unfold select_attempt, probe, store_slot.
  destruct (is_send e) eqn:Es.
  - rewrite bind_bind. reflexivity.
  - unfold bind. destruct (channel_receive (channel e) false w)
      as [[st [v|]] w'| |]; try reflexivity. by rewrite Hi, Es.
Qed.

Lemma bind_select_attempt {B} i e l
  (k : chan_status * list select_t -> M B) w :
  l !! i = Some e ->
  bind (select_attempt i e l) k w
  = bind (probe e) (fun r => k (r.1, store_slot i r.2 l)) w.
Proof.
  intros Hi. unfold bind at 1. rewrite select_attempt_probe by done.
  unfold bind. by destruct (probe e w) as [[st slot] w'| |].
Qed.

Lemma targets_store_slot i slot l : targets (store_slot i slot l) = targets l.
Proof.
  unfold store_slot. destruct slot as [v|]; [|done].
  destruct (l !! i) as [e|] eqn:Hi; [|done].
  unfold targets. rewrite list_fmap_insert. simpl.
  apply list_insert_id. by rewrite list_lookup_fmap, Hi.
Qed.

Lemma reg_same_lists w w0 c ch ch' c0 snd0 :
  chans w !! c = Some ch -> chans w0 = chans w ->
  send_list ch' = send_list ch -> receive_list ch' = receive_list ch ->
  reg (upd_chan c ch' w0) c0 snd0 = reg w c0 snd0.
Proof.
  intros H E Hs Hr. unfold reg. simpl. rewrite lookup_insert, E.
  case_decide as Ec; [|done]. subst c0. rewrite H.
  destruct snd0; simpl; congruence.
Qed.

(** A successful transfer keeps the state of a select call. *)
Lemma Registered_transfer s l w c ch ch' sm :
  Registered s l w -> chans w !! c = Some ch ->
  sems_kept (sems w) sm ->
  Ready (upd_chan c ch' (set_sems sm w)) c ch' ->
  send_list ch' = send_list ch -> receive_list ch' = receive_list ch ->
  Registered s l (upd_chan c ch' (set_sems sm w)).
Proof.
  intros [Hall Hs Hv Honce Hin] H Hk HR Esl Erl.
  assert (Hreg : forall c0 snd0,
             reg (upd_chan c ch' (set_sems sm w)) c0 snd0 = reg w c0 snd0)
    by (intros; by apply (reg_same_lists w _ c ch)).
  constructor.
  - apply (AllReady_upd w); [done | by eexists | done | done | done].
  - by apply Hk.
  - by apply (Valid_upd w).
  - intros c0 snd0. rewrite Hreg. apply Honce.
  - intros c0 snd0. rewrite Hreg. apply Hin.
Qed.

(** In the state of a select call every probe returns; a probe that
    answers [WOULDBLOCK] changes nothing, and a probe of a closed
    channel answers [CLOSED_ERROR]. *)
Lemma probe_total s l w e :
  Registered s l w -> (channel e, is_send e) ∈ targets l ->
  exists st slot w',
    probe e w = Ret (st, slot) w'
    /\ Registered s l w'
    /\ sems_kept (sems w) (sems w')
    /\ (st = WOULDBLOCK -> w' = w /\ slot = None)
    /\ (forall ch, chans w !! channel e = Some ch -> closed ch = true ->
        st = CLOSED_ERROR).
Proof.
  intros HReg Ht. pose proof HReg as [Hall Hs Hv Honce Hin].
  destruct (Hv _ _ Ht) as [ch Hch]. pose proof (Hall _ _ Hch) as HR.
  pose proof HR as [].
  assert (Hsame : sems_kept (sems w) (sems w)) by (by intros t).
  unfold probe. destruct (closed ch) eqn:Hcl.
  - exists CLOSED_ERROR, None, w. split.
    + destruct (is_send e).
      * by rewrite (bind_run _ _ _ _ _
                      (channel_send_closed w _ ch _ false ready_addr0 Hch
                         ready_mutex0 Hcl)).
      * by rewrite (channel_receive_closed w _ ch false ready_addr0 Hch
                      ready_mutex0 Hcl).
    + split; [done|]. split; [done|]. split; [discriminate | done].
  - assert (Hopen : forall st ch0, chans w !! channel e = Some ch0 ->
                      closed ch0 = true -> st = CLOSED_ERROR)
      by (intros st ch0 E0 C0; congruence).
    destruct (is_send e).
    + pose proof (channel_send_open w _ ch (data e) false HR Hcl) as Hsend.
      destruct (Z.eqb_spec (buffer_current_size (buffer ch))
                  (buffer_capacity (buffer ch))) as [Hfull|Hroom].
      * exists WOULDBLOCK, None, w.
        split; [by rewrite (bind_run _ _ _ _ _ Hsend)|].
        split; [done|]. split; [done|]. split; [done | apply Hopen].
      * exists SUCCESS, None, (after_send (channel e) ch (data e) w).
        split; [by rewrite (bind_run _ _ _ _ _ Hsend)|].
        split; [|split; [|split]].
        -- apply (Registered_transfer s l w _ ch); try done.
           ++ apply sems_kept_notified.
           ++ by apply Ready_after_send.
        -- apply sems_kept_notified.
        -- discriminate.
        -- apply Hopen.
    + rewrite (channel_receive_open w _ ch false HR Hcl).
      destruct (buf_items (buffer ch)) as [|x rest] eqn:Hitems.
      * exists WOULDBLOCK, None, w. split; [reflexivity|].
        split; [done|]. split; [done|]. split; [done | apply Hopen].
      * exists SUCCESS, (Some x), (after_receive (channel e) ch w).
        split; [reflexivity|]. split; [|split; [|split]].
        -- apply (Registered_transfer s l w _ ch); try done.
           ++ apply sems_kept_notified.
           ++ by apply Ready_after_receive.
        -- apply sems_kept_notified.
        -- discriminate.
        -- apply Hopen.
Qed.

(** ** The passes of channel_select in a ready world *)

(** The inner loop returns at the first entry whose probe does not
    answer [WOULDBLOCK]. *)
Lemma select_probe_first s l w i e st slot w2 :
  Registered s l w ->
  l !! i = Some e ->
  probe e w = Ret (st, slot) w2 -> st ≠ WOULDBLOCK ->
  forall k n i0,
    i = (i0 + k)%nat -> (k < n)%nat ->
    (forall j ej, (i0 <= j < i)%nat -> l !! j = Some ej ->
       exists slot' w', probe ej w = Ret (WOULDBLOCK, slot') w') ->
    select_probe n i0 l w = Ret (Some (st, i), store_slot i slot l) w2.
Proof.
  intros HReg Hi Hp Hst. induction k as [|k IH]; intros n i0 -> Hn Hpre.
  - destruct n as [|n]; [lia|]. rewrite Nat.add_0_r in Hi. cbn [select_probe].
    rewrite Hi, bind_select_attempt by done.
    rewrite (bind_run _ _ _ _ _ Hp). cbn [fst snd].
    rewrite decide_True by done. by rewrite Nat.add_0_r.
  - destruct n as [|n]; [lia|].
    destruct (lookup_lt_is_Some_2 l i0) as [ej Hj].
    { apply lookup_lt_Some in Hi. lia. }
    destruct (Hpre i0 ej) as (slot' & w' & Hpj); [lia|done|].
    destruct (probe_total s l w ej HReg (target_of_lookup l i0 ej Hj))
      as (st0 & slot0 & w0 & Hp0 & _ & _ & Hwb & _).
    rewrite Hpj in Hp0. injection Hp0 as <- <- <-.
    destruct (Hwb eq_refl) as [-> ->].
    cbn [select_probe]. rewrite Hj, bind_select_attempt by done.
    rewrite (bind_run _ _ _ _ _ Hpj). cbn [fst snd].
    rewrite decide_False by (intros E; by apply E).
    unfold store_slot. apply IH; [lia|lia|].
    intros j ej' Hr. apply Hpre. lia.
Qed.

(** The inner loop always comes to an end, in the state of the call;
    when it runs through, nothing has changed. *)
Lemma select_probe_total s l w n :
  Registered s l w ->
  forall i0, (i0 + n <= length l)%nat ->
  exists found l' w',
    select_probe n i0 l w = Ret (found, l') w'
    /\ targets l' = targets l
    /\ Registered s l' w'
    /\ sems_kept (sems w) (sems w')
    /\ match found with
       | Some (st, _) => st ≠ WOULDBLOCK
       | None => w' = w /\ l' = l
       end.
Proof.
  intros HReg. induction n as [|n IH]; intros i0 Hlen; cbn [select_probe].
  - exists None, l, w. split; [reflexivity|]. split; [done|].
    split; [done|]. split; [by intros t | done].
  - destruct (lookup_lt_is_Some_2 l i0) as [e He]; [lia|].
    destruct (probe_total s l w e HReg (target_of_lookup l i0 e He))
      as (st & slot & w1 & Hp & HReg1 & Hk & Hwb & _).
    assert (Hstep : forall B (k : _ -> M B),
               bind (select_attempt i0 e l) k w
               = k (st, store_slot i0 slot l) w1).
    { intros B k. rewrite bind_select_attempt by done.
      by rewrite (bind_run _ _ _ _ _ Hp). }
    destruct (decide (st ≠ WOULDBLOCK)) as [Hst|Hst].
    + exists (Some (st, i0)), (store_slot i0 slot l), w1.
      pose proof (targets_store_slot i0 slot l) as Et.
      split.
      { rewrite He, Hstep. by rewrite decide_True by done. }
      split; [done|]. split; [by apply (Registered_targets s l)|].
      split; done.
    + assert (st = WOULDBLOCK) as ->
        by (destruct (decide (st = WOULDBLOCK)); [done | by destruct Hst]).
      destruct (Hwb eq_refl) as [-> ->].
      destruct (IH (S i0)) as (found & l' & w' & Hrun & Hrest); [lia|].
      exists found, l', w'. split; [|exact Hrest].
      rewrite He, Hstep. rewrite decide_False by (intros E; by apply E).
      exact Hrun.
Qed.

Lemma deregister_all s l w :
  Registered s l w ->
  exists w', for_each_entry (length l) 0 l (select_deregister_entry s) w
             = Ret tt w'
             /\ Registered s l w'
             /\ removed_before s l (length l) w'
             /\ sems w' = sems w.
Proof.
  intros HReg.
  destruct (for_each_entry_inv
              (fun j w0 => Registered s l w0 /\ removed_before s l j w0
                           /\ sems w0 = sems w)
              l (select_deregister_entry s)) with (n := length l)
           (i := 0%nat) (w := w) as (w' & Hrun & Hinv).
  - intros j e w0 Hj (HR0 & Hrem0 & Es).
    destruct (deregister_entry_inv s l w0 j e HR0 Hrem0 Hj)
      as (w1 & Hrun & HR1 & Hrem1 & Es1).
    exists w1. split; [done|]. split; [done|]. split; [done|].
    by rewrite Es1.
  - lia.
  - split; [done|]. split; [|done]. intros j' e' Hlt. lia.
  - exists w'. simpl in Hinv. tauto.
Qed.

Lemma removed_all_absent s l w :
  Registered s l w -> removed_before s l (length l) w -> token_absent s w.
Proof.
  intros [_ _ _ _ Hin] Hrem c snd Hel.
  specialize (Hin c snd Hel). unfold targets in Hin.
  apply list_elem_of_fmap in Hin as (e & [= -> ->] & He).
  apply list_elem_of_lookup in He as [j Hj].
  apply (Hrem j e); [by apply lookup_lt_Some in Hj | done | done].
Qed.

Lemma sem_destroy_run s w :
  is_Some (sems w !! s) ->
  sem_destroy s w = Ret tt (set_sems (delete s (sems w)) w).
Proof. intros [n Hn]. unfold sem_destroy. by rewrite Hn. Qed.

(** Destroying a semaphore that is in no list keeps the world ready. *)
Lemma AllReady_sem_destroy s w :
  AllReady w -> token_absent s w ->
  AllReady (set_sems (delete s (sems w)) w).
Proof.
  intros Hall Habs c ch H. simpl in H. destruct (Hall c ch H).
  assert (Hl : forall snd, live (delete s (sems w))
                             (tokens (get_list snd ch)) = true).
  { intros snd. apply live_elem. intros t Ht.
    assert (Hne : t ≠ s).
    { intros ->. apply (Habs c snd). unfold reg. by rewrite H. }
    rewrite lookup_delete_ne by done.
    assert (Hold : live (sems w) (tokens (get_list snd ch)) = true)
      by (by destruct snd).
    by apply (proj1 (live_elem _ _) Hold). }
  constructor; try done.
  - apply (Hl true).
  - apply (Hl false).
Qed.

(** The index the inner loop returns is the index of an entry. *)
Lemma select_probe_index n :
  forall i0 l w st i l' w',
    select_probe n i0 l w = Ret (Some (st, i), l') w' -> (i < i0 + n)%nat.
Proof.
  induction n as [|n IH]; intros i0 l w st i l' w'; cbn [select_probe].
  - intros [=].
  - destruct (l !! i0) as [e|]; [|done]. unfold bind.
    destruct (select_attempt i0 e l w) as [[st1 l1] w1| |]; try done.
    destruct (decide (st1 ≠ WOULDBLOCK)).
    + intros [= _ <- _ _]. lia.
    + intros Hrec. apply IH in Hrec. lia.
Qed.

(** [sem_wait] on the semaphore of a select call. *)
Lemma sem_wait_Registered s l w :
  Registered s l w ->
  match sem_wait s w with
  | Ret _ w' =>
      Registered s l w'
      /\ exists c, sems w !! s = Some (S c) /\ sems w' !! s = Some c
  | Wait p w' => p = OnSem s /\ w' = w /\ sems w !! s = Some 0%nat
  | Undef => False
  end.
Proof.
  intros [Hall [n Hn] Hv Honce Hin]. unfold sem_wait. rewrite Hn.
  destruct n as [|n]; [done|]. split.
  - constructor; try done.
    + intros c ch H. apply (Ready_frame w); [by apply Hall | done |].
      intros t Ht. simpl. rewrite lookup_insert.
      case_decide; [by eexists | done].
    + simpl. rewrite lookup_insert_eq. by eexists.
  - exists n. split; [done|]. simpl. apply lookup_insert_eq.
Qed.

(** A pass whose inner loop finds an entry removes the token from the
    lists, destroys the semaphore and returns what the loop found. *)
Lemma select_pass_hit s l w st i l' w2 :
  Registered s l w ->
  select_probe (length l) 0 l w = Ret (Some (st, i), l') w2 ->
  exists w3,
    select_pass s (length l) l w
    = Ret (inl (st, Some (Z.of_nat i), l')) w3
    /\ token_absent s w3 /\ AllReady w3.
Proof.
  intros HReg Hrun. unfold select_pass.
  destruct (select_probe_total s l w (length l) HReg 0%nat)
    as (found & l1 & w1 & Hrun1 & Et & HReg1 & _ & _); [lia|].
  rewrite Hrun in Hrun1. injection Hrun1 as <- <- <-.
  rewrite (bind_run _ _ _ _ _ Hrun).
  assert (Elen : length l' = length l).
  { apply (f_equal length) in Et. unfold targets in Et.
    by rewrite !length_fmap in Et. }
  destruct (deregister_all s l' w2 HReg1)
    as (w3 & Hrun3 & HReg3 & Hrem & Es).
  rewrite <- Elen, (bind_run _ _ _ _ _ Hrun3).
  pose proof HReg3 as [Hall3 Hs3 _ _ _].
  rewrite (bind_run _ _ _ _ _ (sem_destroy_run s w3 Hs3)).
  pose proof (removed_all_absent s l' w3 HReg3 Hrem) as Habs.
  eexists. split; [reflexivity|]. split.
  - intros c snd. apply (Habs c snd).
  - by apply AllReady_sem_destroy.
Qed.

(** A pass of the loop in the state of the call: it returns, or its
    [sem_wait] takes a post and the pass ends with nothing else
    changed, or it waits in [sem_wait] at count zero. *)
Lemma select_pass_total s l w :
  Registered s l w ->
  match select_pass s (length l) l w with
  | Ret (inl r) w' => select_done s l r w'
  | Ret (inr l') w' =>
      l' = l /\ Registered s l w'
      /\ exists c, sems w !! s = Some (S c) /\ sems w' !! s = Some c
  | Wait p w' => p = OnSem s /\ w' = w /\ sems w !! s = Some 0%nat
  | Undef => False
  end.
Proof.
  intros HReg.
  destruct (select_probe_total s l w (length l) HReg 0%nat)
    as (found & l' & w1 & Hrun & Et & HReg1 & Hk & Hfound); [lia|].
  destruct found as [[st i]|].
  - destruct (select_pass_hit s l w st i l' w1 HReg Hrun)
      as (w3 & -> & Habs & Hall).
    split; [done|]. split; [done|]. split; [done|].
    exists i. split; [done|]. apply select_probe_index in Hrun. lia.
  - destruct Hfound as [-> ->]. unfold select_pass.
    rewrite (bind_run _ _ _ _ _ Hrun).
    pose proof (sem_wait_Registered s l w HReg) as Hw. unfold bind.
    destruct (sem_wait s w) as [[] w'|p w'|]; [|done|done].
    destruct Hw as [HReg' Hc]. simpl. auto.
Qed.

(** The loop in the state of the call. *)
Lemma select_loop_total s l passes :
  forall w, Registered s l w ->
    match select_loop passes s (length l) l w with
    | Ret (Some r) w' => select_done s l r w'
    | Ret None w' => Registered s l w'
    | Wait p w' =>
        p = OnSem s /\ Registered s l w' /\ sems w' !! s = Some 0%nat
    | Undef => False
    end.
Proof.
  induction passes as [|passes IH]; intros w HReg; simpl; [done|].
  pose proof (select_pass_total s l w HReg) as Hp. unfold bind.
  destruct (select_pass s (length l) l w) as [[r|l'] w'|p w'|];
    [done| |by destruct Hp as (-> & -> & ?)|done].
  destruct Hp as (-> & HReg' & _). by apply IH.
Qed.

(** With more passes allowed than the semaphore holds posts, the loop
    does not run out of passes: it returns or waits. *)
Lemma select_loop_enough s l passes :
  forall w c, Registered s l w -> sems w !! s = Some c ->
    (c < passes)%nat ->
    forall w', select_loop passes s (length l) l w ≠ Ret None w'.
Proof.
  induction passes as [|passes IH]; intros w c HReg Hc Hlt w'; [lia|].
  simpl. pose proof (select_pass_total s l w HReg) as Hp. unfold bind.
  destruct (select_pass s (length l) l w) as [[r|l'] w1|p w1|];
    [done| |done|done].
  destruct Hp as (-> & HReg1 & c1 & Hc1 & Hc1').
  apply (IH w1 c1); [done | done |]. rewrite Hc in Hc1.
  injection Hc1 as ->. lia.
Qed.

(** The loop returns in the pass in which the inner loop finds an
    entry. *)
Lemma select_loop_hit s l w st i l' w2 passes :
  Registered s l w ->
  select_probe (length l) 0 l w = Ret (Some (st, i), l') w2 ->
  exists w3,
    select_loop (S passes) s (length l) l w
    = Ret (Some (st, Some (Z.of_nat i), l')) w3
    /\ token_absent s w3 /\ AllReady w3.
Proof.
  intros HReg Hrun.
  destruct (select_pass_hit s l w st i l' w2 HReg Hrun)
    as (w3 & Hpass & Habs & Hall).
  exists w3. split; [|done]. simpl.
  by rewrite (bind_run _ _ _ _ _ Hpass).
Qed.

(** ** Registration *)

Lemma sem_init_run s w :
  hd true (oracle w) = true -> sem_init s w = Ret 0 (after_sem_init s w).
Proof.
  intros Ho. unfold sem_init, bind, next_outcome, after_sem_init.
  destruct (oracle w) as [|ok rest] eqn:E; simpl in *.
  - by rewrite E.
  - subst ok. reflexivity.
Qed.

Lemma sem_local_addr_fresh w :
  sem_local_addr w ≠ NULL /\ sems w !! sem_local_addr w = None.
Proof.
  pose proof (is_fresh ({[NULL]} ∪ dom (sems w))) as Hf.
  fold (sem_local_addr w) in Hf. split.
  - intros E. apply Hf. rewrite E. set_solver.
  - apply not_elem_of_dom. set_solver.
Qed.

(** In a ready world the tokens in the lists are live, so the fresh
    address of [sem_local] is in no list. *)
Lemma fresh_token_absent w :
  AllReady w -> token_absent (sem_local_addr w) w.
Proof.
  intros Hall c snd Hel. unfold reg in Hel.
  destruct (chans w !! c) as [ch|] eqn:H; [|by apply not_elem_of_nil in Hel].
  destruct (Hall c ch H).
  assert (Hl : live (sems w) (tokens (get_list snd ch)) = true)
    by (by destruct snd).
  apply (proj1 (live_elem _ _) Hl) in Hel as [n Hn].
  destruct (sem_local_addr_fresh w) as [_ Hf]. congruence.
Qed.

Lemma Registered_after_sem_init w l :
  AllReady w -> Valid w l ->
  Registered (sem_local_addr w) l (after_sem_init (sem_local_addr w) w).
Proof.
  intros Hall Hv. pose proof (fresh_token_absent w Hall) as Habs.
  constructor.
  - intros c ch H. apply (Ready_frame w); [by apply Hall | done |].
    intros t Ht. simpl. rewrite lookup_insert.
    case_decide; [by eexists | done].
  - simpl. rewrite lookup_insert_eq. by eexists.
  - exact Hv.
  - apply token_absent_once. exact Habs.
  - intros c snd Hel. by apply Habs in Hel.
Qed.

Lemma register_all s l w :
  Registered s l w ->
  exists w', for_each_entry (length l) 0 l (select_register_entry s) w
             = Ret tt w'
             /\ Registered s l w' /\ sems w' = sems w.
Proof.
  intros HReg.
  destruct (for_each_entry_inv
              (fun _ w0 => Registered s l w0 /\ sems w0 = sems w)
              l (select_register_entry s)) with (n := length l)
           (i := 0%nat) (w := w) as (w' & Hrun & Hinv).
  - intros j e w0 Hj [HR0 Es0].
    destruct (register_entry_inv s l w0 j e HR0 Hj)
      as (w1 & Hrun1 & HR1 & Es1).
    exists w1. split; [done|]. split; [done|]. by rewrite Es1.
  - lia.
  - done.
  - eauto.
Qed.

Lemma channel_select_run w l :
  AllReady w -> Valid w l -> l ≠ [] -> hd true (oracle w) = true ->
  exists w1,
    select_registration (sem_local_addr w) l w = Ret tt w1
    /\ Registered (sem_local_addr w) l w1
    /\ sems w1 !! sem_local_addr w = Some 0%nat
    /\ evolves stays_closed w w1
    /\ forall passes,
         channel_select passes (Z.of_nat (length l)) (Some l) w
         = select_loop passes (sem_local_addr w) (length l) l w1.
Proof.
  intros Hall Hv Hne Ho. set (s := sem_local_addr w).
  pose proof (sem_init_run s w Ho) as Hinit.
  destruct (register_all s l (after_sem_init s w)
              (Registered_after_sem_init w l Hall Hv))
    as (w1 & Hreg & HReg1 & Es1).
  exists w1. split; [|split; [done|split; [|split]]].
  - unfold select_registration.
    by rewrite (bind_run _ _ _ _ _ Hinit).
  - rewrite Es1. simpl. apply lookup_insert_eq.
  - assert (Hk : keeps stays_closed
                   (for_each_entry (length l) 0 l
                      (select_register_entry s))).
    { apply keeps_for_each_entry; unfold stays_closed; auto.
      intros e. apply keeps_register_entry; unfold stays_closed; auto. }
    specialize (Hk (after_sem_init s w)). rewrite Hreg in Hk.
    intros c ch H. apply (Hk c ch H).
  - intros passes. unfold channel_select.
    destruct (Z.eqb_spec (Z.of_nat (length l)) 0) as [E|_].
    { destruct l; simpl in E; [done | lia]. }
    fold s. rewrite (bind_run _ _ _ _ _ Hinit).
    replace (0 =? -1) with false by reflexivity.
    rewrite Nat2Z.id. by rewrite (bind_run _ _ _ _ _ Hreg).
Qed.

Lemma probe_closed w e ch :
  Ready w (channel e) ch -> closed ch = true ->
  probe e w = Ret (CLOSED_ERROR, None) w.
Proof.
  intros [] Hcl. unfold probe. destruct (is_send e).
  - by rewrite (bind_run _ _ _ _ _
                  (channel_send_closed w _ ch _ false ready_addr0
                     ready_lookup0 ready_mutex0 Hcl)).
  - by apply (channel_receive_closed w _ ch).
Qed.

(** ** C1 *)







(** The same array with a second, valid entry in front: the first
    entry would block, the null entry would answer [OTHER_ERROR], and
    the call is undefined. *)
Example select_null_handle_second :
  channel_select 1 2
    (Some [{| channel := 2; is_send := false; data := 0 |};
           {| channel := NULL; is_send := true; data := 9 |}])
    demo_world2 = Undef.
Proof. vm_compute. reflexivity. Qed.

(** The select of the example returns the value of channel 1 in the
    slot of entry 0 and leaves both waiter lists empty. *)
Example select_example :
  channel_select 1 2 (Some demo_entries) demo_world2
  = Ret (Some (SUCCESS, Some 0,
               [ {| channel := 1; is_send := false; data := 7 |};
                 {| channel := 2; is_send := false; data := 0 |} ]))
      {| chans := <[1 := demo_chan [] false]> {[2 := demo_chan [] false]};
         sems := ∅; oracle := [] |}.
Proof. vm_compute. reflexivity. Qed.

(** Two closed channels: the select returns [CLOSED_ERROR] for entry
    0. *)
Example select_all_closed :
  let w := {| chans := <[1 := demo_chan [7] true]>
                         {[2 := demo_chan [] true]};
              sems := ∅; oracle := [] |} in
  channel_select 1 2 (Some demo_entries) w
  = Ret (Some (CLOSED_ERROR, Some 0, demo_entries)) w.
Proof. vm_compute. reflexivity. Qed.

(** ** C7 *)

(** C7.  In a world where no thread is inside a call, for any array of
    entries on allocated channels (the same channel and direction may
    occur several times) and any bound on the passes of the loop, with
    [s] the address of the call's private semaphore:
    - when [channel_select] returns, [s] is in no waiter list; while it
      waits in [sem_wait], and while its loop goes on, [s] is at most
      once in every waiter list; its behaviour is never undefined, and
      with at least one pass allowed the loop does not go on: the call
      returns or waits;
    - the same holds when the waiting call is resumed in a world that
      is ready and in which [s] is still registered at most once per
      list. *)
Theorem select_token_discipline (w : world) (l : list select_t)
  (passes : nat) :
  world_ready w = true ->
  entries_valid w l = true ->
  match channel_select passes (Z.of_nat (length l)) (Some l) w with
  | Ret (Some _) w' => token_absent (sem_local_addr w) w'
  | Ret None w' => token_once (sem_local_addr w) w' /\ passes = 0%nat
  | Wait _ w' => token_once (sem_local_addr w) w'
  | Undef => False
  end
  /\ (forall s w1,
        Registered s l w1 ->
        match channel_select_wake passes s (Z.of_nat (length l)) l w1 with
        | Ret (Some _) w' => token_absent s w'
        | Ret None w' => token_once s w'
        | Wait _ w' => token_once s w'
        | Undef => False
        end).
Proof.
  intros Hr Hv. apply world_ready_AllReady in Hr.
  apply entries_valid_Valid in Hv.
  pose proof (fresh_token_absent w Hr) as Habs.
  split.
  - destruct l as [|e0 l0].
    { simpl. exact Habs. }
    destruct (hd true (oracle w)) eqn:Ho.
    + destruct (channel_select_run w (e0 :: l0) Hr Hv) as
        (w1 & _ & HReg1 & Hzero & _ & Hsel); [done | done |].
      rewrite Hsel.
      pose proof (select_loop_total _ _ passes w1 HReg1) as Hp.
      pose proof (select_loop_enough _ _ passes w1 0%nat HReg1 Hzero)
        as Hen.
      destruct (select_loop passes _ _ _ w1) as [[r|] w'|p w'|];
        [by destruct Hp as (_ & ? & _)| |by destruct Hp as (_ & [] & _)
        |done].
      split; [by destruct Hp|].
      destruct passes as [|passes]; [done|].
      exfalso. apply (Hen ltac:(lia) w'). reflexivity.
    + unfold channel_select.
      destruct (Z.eqb_spec (Z.of_nat (length (e0 :: l0))) 0) as [E|_].
      { simpl in E. lia. }
      unfold sem_init, bind, next_outcome.
      destruct (oracle w) as [|[] rest]; simpl in Ho; done.
  - intros s w1 HReg1. unfold channel_select_wake.
    pose proof (sem_wait_Registered s l w1 HReg1) as Hw. unfold bind.
    destruct (sem_wait s w1) as [[] w2|p w2|]; [| |done].
    + rewrite Nat2Z.id. destruct Hw as [HReg2 _].
      pose proof (select_loop_total s l passes w2 HReg2) as Hp.
      destruct (select_loop passes s (length l) l w2)
        as [[r|] w'|p w'|];
        [by destruct Hp as (_ & ? & _)|by destruct Hp
        |by destruct Hp as (_ & [] & _)|done].
    + destruct Hw as (_ & -> & _). by destruct HReg1.
Qed.

Lemma select_token_discipline_witness :
  match channel_select 3 (Z.of_nat (length demo_twice)) (Some demo_twice)
          demo_world2 with
  | Ret (Some _) w' => token_absent (sem_local_addr demo_world2) w'
  | Ret None w' =>
      token_once (sem_local_addr demo_world2) w' /\ 3%nat = 0%nat
  | Wait _ w' => token_once (sem_local_addr demo_world2) w'
  | Undef => False
  end
  /\ (forall s w1,
        Registered s demo_twice w1 ->
        match channel_select_wake 3 s (Z.of_nat (length demo_twice))
                demo_twice w1 with
        | Ret (Some _) w' => token_absent s w'
        | Ret None w' => token_once s w'
        | Wait _ w' => token_once s w'
        | Undef => False
        end).
Proof.
  apply (select_token_discipline demo_world2 demo_twice 3);
    vm_compute; reflexivity.
Defined.

(** The call of the example waits with its token, at address 1, once
    in the receive list of channel 2. *)
Example select_twice_registers_once :
  channel_select 3 2 (Some demo_twice) demo_world2
  = Wait (OnSem 1) demo_waiting.
Proof. vm_compute. reflexivity. Qed.

(** After a send on channel 2 has posted the token, the resumed call
    receives the value through its first entry and leaves no token
    behind. *)
Example select_twice_resumed :
  (channel_send 2 9 false;; channel_select_wake 3 1 2 demo_twice)
    demo_waiting
  = Ret (Some (SUCCESS, Some 0,
               [ {| channel := 2; is_send := false; data := 9 |};
                 {| channel := 2; is_send := false; data := 0 |} ]))
      demo_world2.
Proof. vm_compute. reflexivity. Qed.

(** A post that nothing backs (the channel is still empty) costs the
    resumed call one pass: it takes the post, probes again and waits. *)
Example select_twice_spurious_post :
  (sem_post 1;; channel_select_wake 3 1 2 demo_twice) demo_waiting
  = Wait (OnSem 1) demo_waiting.
Proof. vm_compute. reflexivity. Qed.

(** ** Notes on list_destroy *)

(** With two nodes the loop of [list_destroy] reads the freed first
    node and frees it again. *)
Example list_destroy_two_nodes w :
  list_destroy (Some {| head := [3; 4]; count := 2 |}) w = Undef.
Proof. reflexivity. Qed.

(** [channel_destroy] therefore depends on the caller having waited
    for every select call on the channel, as the comment above it in
    [channel.c] asks: with two tokens still registered it is
    undefined. *)
Example channel_destroy_with_waiters :
  let ch := set_list false (Some {| head := [3; 4]; count := 2 |})
              (demo_chan [] true) in
  channel_destroy 1 {| chans := {[1 := ch]};
                       sems := <[3 := 0%nat]> {[4 := 0%nat]};
                       oracle := [] |} = Undef.
Proof. vm_compute. reflexivity. Qed.

(** ** Resuming a blocked call on a closed channel *)

(** A sender or receiver released from [pthread_cond_wait] by
    [channel_close] finds the flag set and returns [CLOSED_ERROR]. *)
Lemma channel_wake_closed w c ch v :
  chans w !! c = Some ch -> mutex ch = MutexFree -> closed ch = true ->
  channel_send_wake c v w = Ret CLOSED_ERROR w
  /\ channel_receive_wake c w = Ret (CLOSED_ERROR, None) w.
Proof.
  intros H Hm Hcl. split.
  - unfold channel_send_wake, pthread_cond_wait_return.
    rewrite (world_shape c ch w H) at 1.
    rewrite bind_bind, bind_lock, bind_ret, bind_get_chan by done.
    fields. rewrite Hcl, bind_unlock by done.
    rewrite set_mutex_release, upd_chan_id by done. reflexivity.
  - unfold channel_receive_wake, pthread_cond_wait_return.
    rewrite (world_shape c ch w H) at 1.
    rewrite bind_bind, bind_lock, bind_ret, bind_get_chan by done.
    fields. rewrite Hcl, bind_unlock by done.
    rewrite set_mutex_release, upd_chan_id by done. reflexivity.
Qed.

(** * The list functions node by node, and calls that wait *)

(** ** Running linked_list.c on the heap *)

Lemma heap_eq {E} (h1 h2 : Nodes.heap E) :
  Nodes.node_at h1 = Nodes.node_at h2 ->
  Nodes.list_at h1 = Nodes.list_at h2 ->
  Nodes.oracle h1 = Nodes.oracle h2 ->
  Nodes.env h1 = Nodes.env h2 ->
  h1 = h2.
Proof. destruct h1, h2; simpl; intros; subst; reflexivity. Qed.

Section NodeRun.
Context {E B : Type}.
Implicit Types (h : Nodes.heap E).

Lemma nbind_ret {A} (a : A) (k : A -> Nodes.N E B) h :
  Nodes.bind (Nodes.ret a) k h = k a h.
Proof. reflexivity. Qed.

Lemma nbind_bind {A A'} (m : Nodes.N E A) (f : A -> Nodes.N E A')
  (k : A' -> Nodes.N E B) h :
  Nodes.bind (Nodes.bind m f) k h
  = Nodes.bind m (fun a => Nodes.bind (f a) k) h.
Proof. unfold Nodes.bind. destruct (m h); reflexivity. Qed.

Lemma nbind_run {A} (m : Nodes.N E A) (k : A -> Nodes.N E B) a h h' :
  m h = Nodes.Done a h' -> Nodes.bind m k h = k a h'.
Proof. intros H. unfold Nodes.bind. by rewrite H. Qed.

Lemma bind_get_data p n (k : ptr -> Nodes.N E B) h :
  Nodes.node_at h !! p = Some n ->
  Nodes.bind (Nodes.get_data p) k h = k (Nodes.data n) h.
Proof.
  intros H. unfold Nodes.get_data, Nodes.bind, Nodes.load_node.
  by rewrite H.
Qed.

Lemma bind_get_next p n (k : ptr -> Nodes.N E B) h :
  Nodes.node_at h !! p = Some n ->
  Nodes.bind (Nodes.get_next p) k h = k (Nodes.next n) h.
Proof.
  intros H. unfold Nodes.get_next, Nodes.bind, Nodes.load_node.
  by rewrite H.
Qed.

Lemma bind_get_prev p n (k : ptr -> Nodes.N E B) h :
  Nodes.node_at h !! p = Some n ->
  Nodes.bind (Nodes.get_prev p) k h = k (Nodes.prev n) h.
Proof.
  intros H. unfold Nodes.get_prev, Nodes.bind, Nodes.load_node.
  by rewrite H.
Qed.

Lemma bind_set_data p n v (k : unit -> Nodes.N E B) h :
  Nodes.node_at h !! p = Some n ->
  Nodes.bind (Nodes.set_data p v) k h
  = k tt (upd_node p {| Nodes.data := v; Nodes.next := Nodes.next n;
                        Nodes.prev := Nodes.prev n |} h).
Proof.
  intros H. unfold Nodes.set_data, Nodes.bind, Nodes.load_node,
    Nodes.store_node.
  by rewrite H, H.
Qed.

Lemma bind_set_next p n v (k : unit -> Nodes.N E B) h :
  Nodes.node_at h !! p = Some n ->
  Nodes.bind (Nodes.set_next p v) k h
  = k tt (upd_node p {| Nodes.data := Nodes.data n; Nodes.next := v;
                        Nodes.prev := Nodes.prev n |} h).
Proof.
  intros H. unfold Nodes.set_next, Nodes.bind, Nodes.load_node,
    Nodes.store_node.
  by rewrite H, H.
Qed.

Lemma bind_set_prev p n v (k : unit -> Nodes.N E B) h :
  Nodes.node_at h !! p = Some n ->
  Nodes.bind (Nodes.set_prev p v) k h
  = k tt (upd_node p {| Nodes.data := Nodes.data n;
                        Nodes.next := Nodes.next n; Nodes.prev := v |} h).
Proof.
  intros H. unfold Nodes.set_prev, Nodes.bind, Nodes.load_node,
    Nodes.store_node.
  by rewrite H, H.
Qed.

Lemma bind_get_head l x (k : ptr -> Nodes.N E B) h :
  Nodes.list_at h !! l = Some x ->
  Nodes.bind (Nodes.get_head l) k h = k (Nodes.head x) h.
Proof.
  intros H. unfold Nodes.get_head, Nodes.bind, Nodes.load_list.
  by rewrite H.
Qed.

Lemma bind_get_count l x (k : Z -> Nodes.N E B) h :
  Nodes.list_at h !! l = Some x ->
  Nodes.bind (Nodes.get_count l) k h = k (Nodes.count x) h.
Proof.
  intros H. unfold Nodes.get_count, Nodes.bind, Nodes.load_list.
  by rewrite H.
Qed.

Lemma bind_set_head l x v (k : unit -> Nodes.N E B) h :
  Nodes.list_at h !! l = Some x ->
  Nodes.bind (Nodes.set_head l v) k h
  = k tt (upd_list l {| Nodes.head := v; Nodes.count := Nodes.count x |} h).
Proof.
  intros H. unfold Nodes.set_head, Nodes.bind, Nodes.load_list,
    Nodes.store_list.
  by rewrite H, H.
Qed.

Lemma bind_set_count l x v (k : unit -> Nodes.N E B) h :
  Nodes.list_at h !! l = Some x ->
  Nodes.bind (Nodes.set_count l v) k h
  = k tt (upd_list l {| Nodes.head := Nodes.head x; Nodes.count := v |} h).
Proof.
  intros H. unfold Nodes.set_count, Nodes.bind, Nodes.load_list,
    Nodes.store_list.
  by rewrite H, H.
Qed.

Lemma bind_free_node p n (k : unit -> Nodes.N E B) h :
  p ≠ NULL -> Nodes.node_at h !! p = Some n ->
  Nodes.bind (Nodes.free_node p) k h = k tt (del_node p h).
Proof.
  intros Hp H. unfold Nodes.free_node.
  destruct (Z.eqb_spec p NULL); [done|].
  unfold Nodes.bind. by rewrite H.
Qed.

Lemma bind_free_list l x (k : unit -> Nodes.N E B) h :
  l ≠ NULL -> Nodes.list_at h !! l = Some x ->
  Nodes.bind (Nodes.free_list l) k h = k tt (del_list l h).
Proof.
  intros Hp H. unfold Nodes.free_list.
  destruct (Z.eqb_spec l NULL); [done|].
  unfold Nodes.bind. by rewrite H.
Qed.
End NodeRun.

(** ** Chains of nodes *)

Section NodeFacts.
Context {E : Type}.
Implicit Types (h : Nodes.heap E) (cells : list (ptr * ptr)).

Lemma linked_Linked nd cells : linked nd cells = true <-> Linked nd cells.
Proof.
  unfold linked. rewrite !andb_true_iff, !bool_decide_eq_true, forallb_forall.
  split.
  - intros [[Hnd Hnn] Hall]. constructor; [done|done|].
    intros i a d Hi. specialize (Hall i).
    rewrite Hi in Hall. eapply bool_decide_eq_true_1, Hall.
    apply in_seq. apply lookup_lt_Some in Hi. lia.
  - intros [Hnd Hnn Hall]. split; [done|]. intros i _.
    destruct (cells !! i) as [[a d]|] eqn:Hi; [|done].
    apply bool_decide_eq_true. by apply Hall.
Qed.

Lemma list_rep_inv h l cells c :
  list_rep h l cells c = true <->
  l ≠ NULL
  /\ Nodes.list_at h !! l
     = Some {| Nodes.head := addr_at cells 0; Nodes.count := c |}
  /\ Linked (Nodes.node_at h) cells.
Proof.
  unfold list_rep.
  rewrite !andb_true_iff, negb_true_iff, Z.eqb_neq, bool_decide_eq_true.
  rewrite linked_Linked. tauto.
Qed.

Lemma addr_at_lookup cells i a d : cells !! i = Some (a, d) -> addr_at cells i = a.
Proof. unfold addr_at. by intros ->. Qed.

Lemma addr_at_end cells i : (length cells <= i)%nat -> addr_at cells i = NULL.
Proof. intros H. unfold addr_at. by rewrite lookup_ge_None_2. Qed.

Lemma Linked_addr nd cells i a d :
  Linked nd cells -> cells !! i = Some (a, d) -> a ≠ NULL.
Proof.
  intros [_ Hnn _] Hi ->. apply Hnn.
  apply list_elem_of_fmap. exists (NULL, d). split; [done|].
  by apply list_elem_of_lookup_2 in Hi.
Qed.

(** Two positions of a chain with the same address are the same
    position. *)
Lemma Linked_inj nd cells i j a d d' :
  Linked nd cells -> cells !! i = Some (a, d) -> cells !! j = Some (a, d') ->
  i = j.
Proof.
  intros [Hnd _ _] Hi Hj.
  apply (NoDup_lookup _ i j a Hnd); rewrite list_lookup_fmap.
  - by rewrite Hi.
  - by rewrite Hj.
Qed.

Lemma find_node_first ts s i j :
  find_node ts s i = Some j ->
  exists k, j = (i + k)%nat /\ ts !! k = Some s
            /\ forall k', (k' < k)%nat -> ts !! k' ≠ Some s.
Proof.
  revert i. induction ts as [|t ts IH]; intros i; simpl; [done|].
  destruct (Z.eqb_spec t s) as [->|Hne].
  - intros [= <-]. exists 0%nat. split; [lia|]. split; [done|]. lia.
  - intros Hf. destruct (IH _ Hf) as (k & -> & Hk & Hfirst).
    exists (S k). split; [lia|]. split; [done|].
    intros [|k'] Hlt; simpl; [congruence|]. apply Hfirst. lia.
Qed.

(** The loop of [list_find] from node [i] of a chain. *)
Lemma list_find_loop_run h cells d :
  Linked (Nodes.node_at h) cells ->
  forall k i fuel,
    (i + k = length cells)%nat -> (k < fuel)%nat ->
    Nodes.list_find_loop fuel (addr_at cells i) d h
    = Nodes.Done
        (match find_node (drop i cells.*2) d i with
         | Some j => addr_at cells j
         | None => NULL
         end) h.
Proof.
  intros HL. induction k as [|k IH]; intros i fuel Hlen Hfuel;
    (destruct fuel as [|fuel]; [lia|]); cbn [Nodes.list_find_loop].
  - rewrite addr_at_end by lia.
    rewrite drop_ge by (rewrite length_fmap; lia). reflexivity.
  - destruct (lookup_lt_is_Some_2 cells i) as [[a d0] Hi]; [lia|].
    rewrite (addr_at_lookup _ _ _ _ Hi).
    pose proof (Linked_addr _ _ _ _ _ HL Hi) as Ha.
    destruct (Z.eqb_spec a NULL) as [|_]; [done|]. cbn [negb].
    pose proof (linked_node _ _ HL i a d0 Hi) as Hn.
    rewrite (bind_get_data a _ _ h Hn). cbn [node_of Nodes.data].
    assert (Hd : cells.*2 !! i = Some d0)
      by (by rewrite list_lookup_fmap, Hi).
    rewrite (drop_S _ _ _ Hd). cbn [find_node].
    destruct (d0 =? d).
    + by rewrite (addr_at_lookup _ _ _ _ Hi).
    + rewrite (bind_get_next a _ _ h Hn). cbn [node_of Nodes.next].
      apply IH; lia.
Qed.

Lemma new_addr_fresh h :
  Nodes.new_addr h ≠ NULL
  /\ Nodes.node_at h !! Nodes.new_addr h = None
  /\ Nodes.list_at h !! Nodes.new_addr h = None.
Proof.
  pose proof (is_fresh ({[NULL]} ∪ dom (Nodes.node_at h)
                        ∪ dom (Nodes.list_at h))) as Hf.
  fold (Nodes.new_addr h) in Hf. split; [|split].
  - intros Heq. apply Hf. rewrite Heq. set_solver.
  - apply not_elem_of_dom. set_solver.
  - apply not_elem_of_dom. set_solver.
Qed.

Lemma Linked_allocated nd cells a :
  Linked nd cells -> a ∈ cells.*1 -> is_Some (nd !! a).
Proof.
  intros HL Ha. apply list_elem_of_fmap in Ha as ([a' d] & -> & Hin).
  apply list_elem_of_lookup in Hin as [i Hi].
  simpl. rewrite (linked_node _ _ HL i a' d Hi). by eexists.
Qed.

(** [list_find] on a chain: the first node that holds the pointer. *)
Lemma list_find_ok h (l : ptr) cells (c : Z) (d : ptr) (fuel : nat) :
  list_rep h l cells c = true ->
  (length cells < fuel)%nat ->
  match list_find (Some {| head := cells.*2; count := c |}) d with
  | Some i =>
      Nodes.list_find fuel l d h = Nodes.Done (addr_at cells i) h
      /\ addr_at cells i ≠ NULL
      /\ data_at cells i = d
      /\ forall j, (j < i)%nat -> data_at cells j ≠ d
  | None =>
      Nodes.list_find fuel l d h = Nodes.Done NULL h /\ d ∉ cells.*2
  end.
Proof.
  intros Hrep Hfuel. apply list_rep_inv in Hrep as (Hl & Hat & HL).
  assert (Hrun : Nodes.list_find fuel l d h
                 = Nodes.Done
                     (match find_node cells.*2 d 0 with
                      | Some j => addr_at cells j
                      | None => NULL
                      end) h).
  { unfold Nodes.list_find. destruct (Z.eqb_spec l NULL) as [|_]; [done|].
    cbn [negb]. rewrite (bind_get_head l _ _ h Hat). cbn [Nodes.head].
    apply (list_find_loop_run h cells d HL (length cells) 0%nat fuel); lia. }
  cbn [list_find head]. destruct (find_node cells.*2 d 0) as [i|] eqn:Hf.
  - destruct (find_node_first _ _ _ _ Hf) as (k & -> & Hk & Hfirst).
    simpl. rewrite list_lookup_fmap in Hk.
    destruct (cells !! k) as [[a d']|] eqn:Hc; [|done].
    simpl in Hk. injection Hk as ->.
    split; [exact Hrun|]. split; [|split].
    + rewrite (addr_at_lookup _ _ _ _ Hc). by apply (Linked_addr _ _ _ _ _ HL Hc).
    + unfold data_at. by rewrite Hc.
    + intros j Hj. specialize (Hfirst j Hj).
      rewrite list_lookup_fmap in Hfirst. unfold data_at.
      destruct (cells !! j) as [[a' d'']|] eqn:Hcj.
      * simpl in Hfirst. congruence.
      * apply lookup_ge_None in Hcj. apply lookup_lt_Some in Hc. lia.
  - split; [exact Hrun|]. by apply find_node_None in Hf.
Qed.
End NodeFacts.

Section NodeInsert.
Context {E : Type}.
Implicit Types (h : Nodes.heap E) (cells : list (ptr * ptr)).

Lemma upd_node_upd_node p n1 n2 h :
  upd_node p n2 (upd_node p n1 h) = upd_node p n2 h.
Proof. apply heap_eq; simpl; [apply insert_insert_eq | done..]. Qed.

Lemma upd_list_upd_list p x1 x2 h :
  upd_list p x2 (upd_list p x1 h) = upd_list p x2 h.
Proof. apply heap_eq; simpl; [done | apply insert_insert_eq | done..]. Qed.

Lemma set_count_run l x v h :
  Nodes.list_at h !! l = Some x ->
  Nodes.set_count l v h
  = Nodes.Done tt
      (upd_list l {| Nodes.head := Nodes.head x; Nodes.count := v |} h).
Proof.
  intros H. unfold Nodes.set_count, Nodes.bind, Nodes.load_list,
    Nodes.store_list.
  by rewrite H, H.
Qed.

Lemma malloc_node_ok h :
  hd true (Nodes.oracle h) = true ->
  Nodes.malloc_node h
  = Nodes.Done (Nodes.new_addr h)
      (upd_node (Nodes.new_addr h)
         {| Nodes.data := NULL; Nodes.next := NULL; Nodes.prev := NULL |}
         (set_mallocs (tail (Nodes.oracle h)) h)).
Proof.
  intros Ho. unfold Nodes.malloc_node.
  destruct (Nodes.oracle h) as [|[] rest]; simpl in *; done.
Qed.

Lemma insert_tail l x a h :
  Nodes.list_at h !! l = Some x ->
  Nodes.bind (Nodes.set_head l a)
    (fun _ => Nodes.bind (Nodes.get_count l)
                (fun c0 => Nodes.set_count l (size_wrap (c0 + 1)))) h
  = Nodes.Done tt
      (upd_list l {| Nodes.head := a;
                     Nodes.count := size_wrap (Nodes.count x + 1) |} h).
Proof.
  intros H. rewrite (bind_set_head l x) by done.
  rewrite (bind_get_count l {| Nodes.head := a; Nodes.count := Nodes.count x |})
    by (simpl; apply lookup_insert_eq).
  rewrite (set_count_run l {| Nodes.head := a; Nodes.count := Nodes.count x |})
    by (simpl; apply lookup_insert_eq).
  cbn [Nodes.head Nodes.count]. by rewrite upd_list_upd_list.
Qed.

Lemma list_insert_ok h l cells c d :
  list_rep h l cells c = true ->
  hd true (Nodes.oracle h) = true ->
  exists h',
    Nodes.list_insert l d h = Nodes.Done tt h'
    /\ list_rep h' l ((Nodes.new_addr h, d) :: cells) (size_wrap (c + 1)) = true
    /\ (forall b, b ≠ Nodes.new_addr h -> b ∉ cells.*1 ->
                  Nodes.node_at h' !! b = Nodes.node_at h !! b)
    /\ (forall l', l' ≠ l -> Nodes.list_at h' !! l' = Nodes.list_at h !! l')
    /\ Nodes.oracle h' = tail (Nodes.oracle h)
    /\ Nodes.env h' = Nodes.env h.
Proof.
  intros Hrep Ho. apply list_rep_inv in Hrep as (Hl & Hat & HL).
  destruct (new_addr_fresh h) as (Ha & Hfn & Hfl).
  set (a := Nodes.new_addr h) in *.
  assert (Hnew : a ∉ cells.*1).
  { intros Hin. apply (Linked_allocated _ _ _ HL) in Hin as [n Hn]. congruence. }
  unfold Nodes.list_insert. destruct (Z.eqb_spec l NULL) as [|_]; [done|].
  cbn [negb]. rewrite (nbind_run _ _ _ _ _ (malloc_node_ok h Ho)). fold a.
  destruct (Z.eqb_spec a NULL) as [|_]; [done|]. cbn [negb].
  rewrite (bind_set_data a
             {| Nodes.data := NULL; Nodes.next := NULL; Nodes.prev := NULL |})
    by (simpl; apply lookup_insert_eq).
  cbn [Nodes.next Nodes.prev]. rewrite upd_node_upd_node.
  rewrite (bind_get_head l {| Nodes.head := addr_at cells 0; Nodes.count := c |})
    by exact Hat.
  cbn [Nodes.head].
  rewrite (bind_set_next a
             {| Nodes.data := d; Nodes.next := NULL; Nodes.prev := NULL |})
    by (simpl; apply lookup_insert_eq).
  cbn [Nodes.data Nodes.prev]. rewrite upd_node_upd_node.
  rewrite (bind_set_prev a
             {| Nodes.data := d; Nodes.next := addr_at cells 0;
                Nodes.prev := NULL |})
    by (simpl; apply lookup_insert_eq).
  cbn [Nodes.data Nodes.next]. rewrite upd_node_upd_node.
  rewrite (bind_get_head l {| Nodes.head := addr_at cells 0; Nodes.count := c |})
    by exact Hat.
  cbn [Nodes.head].
  destruct cells as [|[b db] rest].
  - cbn [addr_at lookup list_lookup]. simpl (NULL =? NULL). cbn [negb].
    rewrite nbind_ret.
    rewrite (insert_tail l {| Nodes.head := NULL; Nodes.count := c |})
      by exact Hat.
    eexists. split; [reflexivity|]. cbn [Nodes.count].
    split; [|split; [|split; [|split]]].
    + apply list_rep_inv. split; [done|]. split.
      * simpl. apply lookup_insert_eq.
      * constructor.
        -- simpl. apply NoDup_singleton.
        -- simpl. intros Hin. apply list_elem_of_singleton in Hin. done.
        -- intros [|i] a' d' Hi; [|done]. injection Hi as <- <-.
           simpl. apply lookup_insert_eq.
    + intros b Hb _. simpl. by rewrite lookup_insert_ne.
    + intros l' Hl'. simpl. by rewrite lookup_insert_ne.
    + reflexivity.
    + reflexivity.
  - assert (Hb0 : (((b, db) :: rest) : list (ptr * ptr)) !! 0%nat = Some (b, db))
      by reflexivity.
    pose proof (Linked_addr _ _ _ _ _ HL Hb0) as Hb.
    pose proof (linked_node _ _ HL 0%nat b db Hb0) as Hnb.
    assert (Hab : a ≠ b).
    { intros ->. apply Hnew. simpl. apply list_elem_of_here. }
    change (addr_at ((b, db) :: rest) 0) with b in *.
    destruct (Z.eqb_spec b NULL) as [|_]; [done|]. cbn [negb].
    rewrite (bind_set_prev b (node_of ((b, db) :: rest) 0 db))
      by (simpl; by rewrite lookup_insert_ne).
    rewrite (insert_tail l {| Nodes.head := b; Nodes.count := c |})
      by exact Hat.
    eexists. split; [reflexivity|]. cbn [Nodes.count].
    split; [|split; [|split; [|split]]].
    + apply list_rep_inv. split; [done|]. split.
      * simpl. apply lookup_insert_eq.
      * destruct HL as [Hnd Hnn Hnode]. constructor.
        -- simpl. apply NoDup_cons. split; [exact Hnew | exact Hnd].
        -- simpl. intros Hin. apply elem_of_cons in Hin as [Hin|Hin];
             [by symmetry in Hin | by apply Hnn].
        -- intros [|i] a' d' Hi.
           ++ injection Hi as <- <-. simpl.
              rewrite lookup_insert_ne by done. apply lookup_insert_eq.
           ++ change (((b, db) :: rest) !! i = Some (a', d')) in Hi.
              destruct i as [|i].
              ** injection Hi as <- <-. simpl. apply lookup_insert_eq.
              ** assert (Hne : a' ≠ b).
                 { intros ->.
                   assert (S i = 0%nat); [|lia].
                   apply (NoDup_lookup _ (S i) 0%nat b Hnd);
                     rewrite list_lookup_fmap; [by rewrite Hi | done]. }
                 assert (Hne' : a' ≠ a).
                 { intros ->. apply Hnew. apply list_elem_of_fmap.
                   exists (a, d'). split; [done|].
                   by apply list_elem_of_lookup_2 in Hi. }
                 simpl. rewrite !lookup_insert_ne by done.
                 apply (Hnode (S i) a' d' Hi).
    + intros b' Hb' Hnot. simpl.
      rewrite !lookup_insert_ne; [done | done |].
      intros ->. apply Hnot. simpl. apply list_elem_of_here.
    + intros l' Hl'. simpl. by rewrite lookup_insert_ne.
    + reflexivity.
    + reflexivity.
Qed.
End NodeInsert.

Section NodeRemove.
Context {E : Type}.
Implicit Types (h : Nodes.heap E) (cells : list (ptr * ptr)).

Lemma addr_at_delete cells i j :
  addr_at (delete i cells) j
  = addr_at cells (if decide (j < i)%nat then j else S j).
Proof.
  unfold addr_at. case_decide.
  - by rewrite list_lookup_delete_lt.
  - by rewrite list_lookup_delete_ge by lia.
Qed.

(** The nodes of a chain after node [i] has been unlinked and freed:
    the node before it has a new [next], the node after it a new
    [prev], and the others are as they were. *)
Lemma Linked_delete nd nd' cells i a d :
  Linked nd cells -> cells !! i = Some (a, d) ->
  (forall b n, b ∈ cells.*1 -> b ≠ a -> nd !! b = Some n ->
     nd' !! b
     = Some {| Nodes.data := Nodes.data n;
               Nodes.next := if decide (b = Nodes.prev (node_of cells i d))
                             then Nodes.next (node_of cells i d)
                             else Nodes.next n;
               Nodes.prev := if decide (b = Nodes.next (node_of cells i d))
                             then Nodes.prev (node_of cells i d)
                             else Nodes.prev n |}) ->
  Linked nd' (delete i cells).
Proof.
  intros HL Hi Hnd'. pose proof HL as [Hnd Hnn Hnode]. constructor.
  - rewrite list_fmap_delete.
    apply (sublist_NoDup _ _ Hnd (sublist_delete _ _)).
  - rewrite list_fmap_delete. intros Hin. apply Hnn.
    apply (elem_of_sublist _ _ _ Hin (sublist_delete _ _)).
  - intros j b db Hj.
    assert (Hex : exists j0, cells !! j0 = Some (b, db)
                  /\ (((j < i)%nat /\ j0 = j) \/ ((i <= j)%nat /\ j0 = S j))).
    { destruct (decide (j < i)%nat).
      - exists j. rewrite list_lookup_delete_lt in Hj by done. split; [done|lia].
      - exists (S j). rewrite list_lookup_delete_ge in Hj by lia.
        split; [done|lia]. }
    destruct Hex as (j0 & Hj0 & Hcase).
    assert (Hba : b ≠ a).
    { intros ->. assert (j0 = i); [|lia].
      by apply (Linked_inj nd cells j0 i a db d). }
    assert (Hin : b ∈ cells.*1).
    { apply list_elem_of_fmap. exists (b, db). split; [done|].
      by apply list_elem_of_lookup_2 in Hj0. }
    rewrite (Hnd' b _ Hin Hba (Hnode j0 b db Hj0)).
    unfold node_of. cbn [Nodes.data Nodes.next Nodes.prev]. f_equal.
    assert (Hidx : forall k, addr_at cells k = b -> (k < length cells)%nat ->
                             k = j0).
    { intros k Hk Hlt. destruct (lookup_lt_is_Some_2 cells k Hlt) as [[b' d'] Hk'].
      rewrite (addr_at_lookup _ _ _ _ Hk') in Hk. subst b'.
      by apply (Linked_inj nd cells k j0 b d' db). }
    assert (Hb : b ≠ NULL) by (by apply (Linked_addr nd cells j0 b db)).
    assert (Hlen : (i < length cells)%nat) by (by apply lookup_lt_Some in Hi).
    assert (Hlen0 : (j0 < length cells)%nat) by (by apply lookup_lt_Some in Hj0).
    assert (Hself : addr_at cells j0 = b) by (by apply (addr_at_lookup _ _ _ db)).
    f_equal.
    + (* next *)
      rewrite addr_at_delete. case_decide as Hp.
      * (* b is the node before [a] *)
        destruct i as [|i']; [by destruct Hb|].
        assert (i' = j0) by (apply Hidx; [done | lia]).
        case_decide; [lia|]. f_equal. lia.
      * case_decide as Hlt.
        -- f_equal. lia.
        -- destruct (decide (S j = i)) as [Hsi|Hsi].
           ++ exfalso. apply Hp. subst i. rewrite <- Hself. f_equal. lia.
           ++ f_equal. lia.
    + (* prev *)
      case_decide as Hn.
      * (* b is the node after [a] *)
        assert (Hsi : S i = j0).
        { apply Hidx; [done|]. destruct (decide (S i < length cells)%nat);
            [done|]. rewrite addr_at_end in Hn by lia. by destruct Hb. }
        assert (j = i) by lia. subst j.
        destruct i as [|i']; [done|]. rewrite addr_at_delete.
        case_decide; [done|lia].
      * destruct j as [|j'].
        -- destruct j0 as [|j0']; [done|]. exfalso. apply Hn.
           rewrite <- Hself. f_equal. lia.
        -- rewrite addr_at_delete. destruct j0 as [|j0']; [lia|].
           case_decide as Hlt.
           ++ destruct (decide (j0' = j')) as [->|Hne]; [done|].
              exfalso. apply Hn. rewrite <- Hself. f_equal. lia.
           ++ f_equal. lia.
Qed.

(** The first half of [list_remove]: the [next] of the node before
    [a], or the head of the list, now leads past [a]. *)
Lemma unlink_prev h l x a na :
  Nodes.list_at h !! l = Some x -> Nodes.node_at h !! a = Some na ->
  (Nodes.prev na = NULL \/ is_Some (Nodes.node_at h !! Nodes.prev na)) ->
  exists h1,
    (if negb (Nodes.prev na =? NULL)
     then Nodes.bind (Nodes.get_next a)
            (fun n => Nodes.set_next (Nodes.prev na) n)
     else Nodes.bind (Nodes.get_next a) (fun n => Nodes.set_head l n)) h
    = Nodes.Done tt h1
    /\ Nodes.list_at h1
       = <[l := {| Nodes.head := if decide (Nodes.prev na = NULL)
                                 then Nodes.next na else Nodes.head x;
                   Nodes.count := Nodes.count x |}]> (Nodes.list_at h)
    /\ (forall b,
          Nodes.node_at h1 !! b
          = if decide (Nodes.prev na ≠ NULL /\ b = Nodes.prev na)
            then (fun n => {| Nodes.data := Nodes.data n;
                              Nodes.next := Nodes.next na;
                              Nodes.prev := Nodes.prev n |})
                   <$> Nodes.node_at h !! b
            else Nodes.node_at h !! b)
    /\ Nodes.oracle h1 = Nodes.oracle h /\ Nodes.env h1 = Nodes.env h.
Proof.
  intros Hx Ha Hp. destruct (Z.eqb_spec (Nodes.prev na) NULL) as [Hz|Hnz];
    cbn [negb].
  - rewrite (bind_get_next a na) by done.
    eexists. split.
    { unfold Nodes.set_head, Nodes.bind, Nodes.load_list, Nodes.store_list.
      rewrite Hx, Hx. reflexivity. }
    simpl. split; [by rewrite decide_True by done|].
    split; [|done]. intros b. rewrite decide_False by tauto. done.
  - destruct Hp as [Hp|[np Hnp]]; [done|].
    rewrite (bind_get_next a na) by done.
    eexists. split.
    { unfold Nodes.set_next, Nodes.bind, Nodes.load_node, Nodes.store_node.
      rewrite Hnp, Hnp. reflexivity. }
    simpl. split.
    { rewrite decide_False by done. symmetry. apply insert_id.
      rewrite Hx. by destruct x. }
    split; [|done]. intros b. rewrite lookup_insert.
    destruct (decide (Nodes.prev na = b)) as [<-|Hne].
    + rewrite decide_True by done. by rewrite Hnp.
    + rewrite decide_False; [done|]. intros [_ ->]. done.
Qed.

(** The second half: the [prev] of the node after [a] now leads past
    [a]. *)
Lemma unlink_next h a na :
  Nodes.node_at h !! a = Some na ->
  (Nodes.next na = NULL \/ is_Some (Nodes.node_at h !! Nodes.next na)) ->
  exists h2,
    (if negb (Nodes.next na =? NULL)
     then Nodes.bind (Nodes.get_prev a)
            (fun p => Nodes.set_prev (Nodes.next na) p)
     else Nodes.ret tt) h
    = Nodes.Done tt h2
    /\ Nodes.list_at h2 = Nodes.list_at h
    /\ (forall b,
          Nodes.node_at h2 !! b
          = if decide (Nodes.next na ≠ NULL /\ b = Nodes.next na)
            then (fun n => {| Nodes.data := Nodes.data n;
                              Nodes.next := Nodes.next n;
                              Nodes.prev := Nodes.prev na |})
                   <$> Nodes.node_at h !! b
            else Nodes.node_at h !! b)
    /\ Nodes.oracle h2 = Nodes.oracle h /\ Nodes.env h2 = Nodes.env h.
Proof.
  intros Ha Hn. destruct (Z.eqb_spec (Nodes.next na) NULL) as [Hz|Hnz];
    cbn [negb].
  - exists h. split; [done|]. split; [done|]. split; [|done].
    intros b. rewrite decide_False by tauto. done.
  - destruct Hn as [Hn|[nn Hnn]]; [done|].
    rewrite (bind_get_prev a na) by done.
    eexists. split.
    { unfold Nodes.set_prev, Nodes.bind, Nodes.load_node, Nodes.store_node.
      rewrite Hnn, Hnn. reflexivity. }
    simpl. split; [done|]. split; [|done]. intros b. rewrite lookup_insert.
    destruct (decide (Nodes.next na = b)) as [<-|Hne].
    + rewrite decide_True by done. by rewrite Hnn.
    + rewrite decide_False; [done|]. intros [_ ->]. done.
Qed.

Lemma node_of_prev_cases cells i d :
  (i = 0%nat /\ Nodes.prev (node_of cells i d) = NULL)
  \/ (exists j, i = S j /\ Nodes.prev (node_of cells i d) = addr_at cells j).
Proof. destruct i as [|j]; [left | right; exists j]; done. Qed.

Lemma addr_at_cases cells k :
  ((length cells <= k)%nat /\ addr_at cells k = NULL)
  \/ (exists d, cells !! k = Some (addr_at cells k, d)).
Proof.
  unfold addr_at. destruct (cells !! k) as [[b d]|] eqn:Hk.
  - right. by exists d.
  - left. split; [by apply lookup_ge_None in Hk | done].
Qed.

Lemma list_remove_ok h l cells c i a d :
  list_rep h l cells c = true -> cells !! i = Some (a, d) ->
  exists h',
    Nodes.list_remove l a h = Nodes.Done tt h'
    /\ list_rep h' l (delete i cells) (size_wrap (c - 1)) = true
    /\ Nodes.node_at h' !! a = None
    /\ (forall b, b ∉ cells.*1 -> Nodes.node_at h' !! b = Nodes.node_at h !! b)
    /\ (forall l', l' ≠ l -> Nodes.list_at h' !! l' = Nodes.list_at h !! l')
    /\ Nodes.oracle h' = Nodes.oracle h
    /\ Nodes.env h' = Nodes.env h.
Proof.
  intros Hrep Hi. apply list_rep_inv in Hrep as (Hl & Hat & HL).
  pose proof (Linked_addr _ _ _ _ _ HL Hi) as Ha.
  pose proof (linked_node _ _ HL i a d Hi) as Hna.
  set (na := node_of cells i d) in *.
  (* the neighbours of [a] *)
  assert (Hpv : (Nodes.prev na = NULL /\ i = 0%nat)
                \/ (exists j dp, i = S j /\ cells !! j = Some (Nodes.prev na, dp)
                                 /\ Nodes.prev na ≠ NULL /\ Nodes.prev na ≠ a)).
  { destruct i as [|j]; [by left | right].
    destruct (lookup_lt_is_Some_2 cells j) as [[p dp] Hj].
    { apply lookup_lt_Some in Hi. lia. }
    exists j, dp. subst na. cbn [node_of Nodes.prev].
    rewrite (addr_at_lookup _ _ _ _ Hj). split; [done|]. split; [done|].
    split; [by apply (Linked_addr _ _ _ _ _ HL Hj)|].
    intros ->. assert (j = S j); [|lia].
    by apply (Linked_inj _ cells j (S j) a dp d HL). }
  assert (Hnx : (Nodes.next na = NULL /\ (length cells <= S i)%nat)
                \/ (exists dn, cells !! S i = Some (Nodes.next na, dn)
                               /\ Nodes.next na ≠ NULL /\ Nodes.next na ≠ a)).
  { subst na. cbn [node_of Nodes.next].
    destruct (addr_at_cases cells (S i)) as [[Hlen Hz]|[dn Hk]]; [by left|].
    right. exists dn. split; [done|].
    split; [by apply (Linked_addr _ _ _ _ _ HL Hk)|].
    intros Heq. rewrite Heq in Hk. assert (S i = i); [|lia].
    by apply (Linked_inj _ cells (S i) i a dn d HL). }
  assert (Hin : forall k b db, cells !! k = Some (b, db) -> b ∈ cells.*1).
  { intros k b db Hk. apply list_elem_of_fmap. exists (b, db).
    split; [done|]. by apply list_elem_of_lookup_2 in Hk. }
  unfold Nodes.list_remove.
  destruct (Z.eqb_spec l NULL) as [|_]; [done|].
  destruct (Z.eqb_spec a NULL) as [|_]; [done|]. cbn [negb andb].
  rewrite (bind_get_prev a na) by done.
  destruct (unlink_prev h l _ a na Hat Hna) as (h1 & Hrun1 & Hl1 & Hn1 & Ho1 & He1).
  { destruct Hpv as [[-> _]|(j & dp & _ & Hj & _)]; [by left | right].
    apply (Linked_allocated _ _ _ HL), (Hin j _ dp Hj). }
  rewrite (nbind_run _ _ _ _ _ Hrun1).
  assert (Hna1 : Nodes.node_at h1 !! a = Some na).
  { rewrite Hn1, decide_False; [done|]. intros [_ Heq].
    destruct Hpv as [[Hz _]|(j & dp & _ & _ & _ & Hne)]; congruence. }
  rewrite (bind_get_next a na) by done.
  destruct (unlink_next h1 a na Hna1) as (h2 & Hrun2 & Hl2 & Hn2 & Ho2 & He2).
  { destruct Hnx as [[-> _]|(dn & Hk & _)]; [by left | right].
    destruct (Linked_allocated _ _ _ HL (Hin _ _ dn Hk)) as [nn Hnn].
    rewrite Hn1.
    destruct (decide (Nodes.prev na ≠ NULL /\ Nodes.next na = Nodes.prev na));
      rewrite Hnn; [apply fmap_is_Some|]; by eexists. }
  rewrite (nbind_run _ _ _ _ _ Hrun2).
  assert (Hna2 : Nodes.node_at h2 !! a = Some na).
  { rewrite Hn2, decide_False; [done|]. intros [_ Heq].
    destruct Hnx as [[Hz _]|(dn & _ & _ & Hne)]; congruence. }
  rewrite (bind_free_node a na) by done.
  cbn [Nodes.head Nodes.count] in Hl1.
  set (x1 := {| Nodes.head := if decide (Nodes.prev na = NULL)
                              then Nodes.next na else addr_at cells 0;
                Nodes.count := c |}) in *.
  assert (Hat2 : Nodes.list_at (del_node a h2) !! l = Some x1).
  { simpl. rewrite Hl2, Hl1. apply lookup_insert_eq. }
  rewrite (bind_get_count l x1) by done.
  rewrite (set_count_run l x1) by done.
  eexists. split; [reflexivity|]. cbn [Nodes.head Nodes.count].
  split; [|split; [|split; [|split; [|split]]]].
  - apply list_rep_inv. split; [done|]. split.
    + simpl. rewrite lookup_insert_eq. do 2 f_equal.
      rewrite addr_at_delete.
      destruct Hpv as [[Hz ->]|(j & dp & -> & _ & Hnz & _)].
      * rewrite decide_True by done. by rewrite decide_False by lia.
      * rewrite decide_False by done. by rewrite decide_True by lia.
    + apply (Linked_delete _ _ cells i a d HL Hi).
      intros b n Hb Hne Hnb. fold na.
      cbn [Nodes.node_at upd_list del_node].
      rewrite lookup_delete_ne by done. rewrite Hn2, Hn1, Hnb.
      assert (Hbz : b ≠ NULL).
      { intros ->. by destruct HL as [_ Hnn _]. }
      assert (Hdn : forall (q : ptr) (X : Type) (x y : X),
                (if decide (q ≠ NULL /\ b = q) then x else y)
                = if decide (b = q) then x else y).
      { intros q X x y. destruct (decide (b = q)) as [<-|Hq].
        - by rewrite decide_True.
        - rewrite decide_False; [done|]. by intros [_ ?]. }
      rewrite !Hdn. clear Hnb. destruct n as [dn0 nn0 pn0].
      destruct (decide (b = Nodes.next na)), (decide (b = Nodes.prev na));
        simpl; reflexivity.
  - simpl. apply lookup_delete_eq.
  - intros b Hb. simpl.
    assert (Hne : b ≠ a) by (intros ->; apply Hb, (Hin i a d Hi)).
    rewrite lookup_delete_ne by done. rewrite Hn2, Hn1.
    rewrite !decide_False; [done| |].
    + intros [Hnz ->].
      destruct Hpv as [[Hz _]|(j & dp & _ & Hj & _)]; [done|].
      apply Hb, (Hin j _ dp Hj).
    + intros [Hnz ->].
      destruct Hnx as [[Hz _]|(dn & Hk & _)]; [done|].
      apply Hb, (Hin _ _ dn Hk).
  - intros l' Hl'. simpl. rewrite lookup_insert_ne by done.
    rewrite Hl2, Hl1. by rewrite lookup_insert_ne.
  - simpl. congruence.
  - simpl. congruence.
Qed.
End NodeRemove.

Section NodeMore.
Context {E : Type}.
Implicit Types (h : Nodes.heap E) (cells : list (ptr * ptr)).

Lemma del_list_upd_list l x h : del_list l (upd_list l x h) = del_list l h.
Proof. apply heap_eq; simpl; [done | apply delete_insert_eq | done..]. Qed.

Lemma free_list_run l x h :
  l ≠ NULL -> Nodes.list_at h !! l = Some x ->
  Nodes.free_list l h = Nodes.Done tt (del_list l h).
Proof.
  intros Hp H. unfold Nodes.free_list.
  destruct (Z.eqb_spec l NULL); [done|]. by rewrite H.
Qed.

Lemma get_data_run p n h :
  Nodes.node_at h !! p = Some n ->
  Nodes.get_data p h = Nodes.Done (Nodes.data n) h.
Proof.
  intros H. unfold Nodes.get_data, Nodes.bind, Nodes.load_node.
  by rewrite H.
Qed.

Lemma list_destroy_run h l cells c fuel :
  list_rep h l cells c = true -> (2 <= fuel)%nat ->
  Nodes.list_destroy fuel l h
  = match cells with
    | [] => Nodes.Done tt (del_list l h)
    | [(a, _)] => Nodes.Done tt (del_list l (del_node a h))
    | _ :: _ :: _ => Nodes.Fault
    end.
Proof.
  intros Hrep Hfuel. apply list_rep_inv in Hrep as (Hl & Hat & HL).
  destruct fuel as [|[|fuel]]; [lia|lia|].
  unfold Nodes.list_destroy. destruct (Z.eqb_spec l NULL) as [|_]; [done|].
  cbn [negb]. rewrite (bind_get_head l _ _ h Hat). cbn [Nodes.head].
  destruct cells as [|[a d] rest].
  - cbn [Nodes.list_destroy_loop].
    rewrite nbind_bind, (bind_get_head l _ _ h Hat). cbn [Nodes.head].
    change (addr_at [] 0) with NULL. simpl (NULL =? NULL). cbn [negb].
    rewrite nbind_ret. by apply (free_list_run l _ h Hl Hat).
  - assert (H0 : (((a, d) :: rest) : list (ptr * ptr)) !! 0%nat = Some (a, d))
      by reflexivity.
    pose proof (Linked_addr _ _ _ _ _ HL H0) as Ha.
    pose proof (linked_node _ _ HL 0%nat a d H0) as Hna.
    change (addr_at ((a, d) :: rest) 0) with a in *.
    cbn [Nodes.list_destroy_loop].
    rewrite nbind_bind, (bind_get_head l _ _ h Hat). cbn [Nodes.head].
    destruct (Z.eqb_spec a NULL) as [|_]; [done|]. cbn [negb].
    rewrite nbind_bind, (bind_get_next a _ _ h Hna).
    cbn [node_of Nodes.next].
    rewrite !nbind_bind, (bind_set_head l _ _ _ h Hat). cbn [Nodes.count].
    rewrite nbind_bind, (bind_free_node a (node_of ((a, d) :: rest) 0 d))
      by done.
    rewrite nbind_bind.
    rewrite (bind_get_head l {| Nodes.head := addr_at ((a, d) :: rest) 1;
                                Nodes.count := c |})
      by (simpl; apply lookup_insert_eq).
    cbn [Nodes.head].
    destruct rest as [|[b db] rest].
    + change (addr_at [(a, d)] 1) with NULL. simpl (NULL =? NULL). cbn [negb].
      rewrite nbind_ret.
      rewrite (free_list_run l {| Nodes.head := NULL; Nodes.count := c |})
        by (done || (simpl; apply lookup_insert_eq)).
      f_equal.
      apply heap_eq; simpl; [done | apply delete_insert_eq | done..].
    + assert (H1 : (((a, d) :: (b, db) :: rest) : list (ptr * ptr)) !! 1%nat
                   = Some (b, db)) by reflexivity.
      pose proof (Linked_addr _ _ _ _ _ HL H1) as Hb.
      change (addr_at ((a, d) :: (b, db) :: rest) 1) with b.
      destruct (Z.eqb_spec b NULL) as [|_]; [done|]. cbn [negb].
      rewrite nbind_bind. unfold Nodes.get_next at 1.
      rewrite nbind_bind. unfold Nodes.bind at 1, Nodes.load_node.
      simpl. by rewrite lookup_delete_eq.
Qed.

(** The loop of [list_foreach] from node [i] of a chain, for a callback
    that leaves the nodes alone. *)
Lemma list_foreach_loop_run cells (func : ptr -> Nodes.N E unit) :
  (forall d h0, match func d h0 with
                | Nodes.Done _ h1 => Nodes.node_at h1 = Nodes.node_at h0
                | _ => True
                end) ->
  forall k i fuel h,
    Linked (Nodes.node_at h) cells ->
    (i + k = length cells)%nat -> (k < fuel)%nat ->
    Nodes.list_foreach_loop fuel (addr_at cells i) func h
    = calls (drop i cells.*2) func h.
Proof.
  intros Hframe. induction k as [|k IH]; intros i fuel h HL Hlen Hfuel;
    (destruct fuel as [|fuel]; [lia|]); cbn [Nodes.list_foreach_loop].
  - rewrite addr_at_end by lia.
    rewrite drop_ge by (rewrite length_fmap; lia). reflexivity.
  - destruct (lookup_lt_is_Some_2 cells i) as [[a d0] Hi]; [lia|].
    rewrite (addr_at_lookup _ _ _ _ Hi).
    pose proof (Linked_addr _ _ _ _ _ HL Hi) as Ha.
    destruct (Z.eqb_spec a NULL) as [|_]; [done|]. cbn [negb].
    pose proof (linked_node _ _ HL i a d0 Hi) as Hn.
    rewrite (bind_get_data a _ _ h Hn). cbn [node_of Nodes.data].
    assert (Hd : cells.*2 !! i = Some d0)
      by (by rewrite list_lookup_fmap, Hi).
    rewrite (drop_S _ _ _ Hd). cbn [calls].
    specialize (Hframe d0 h). unfold Nodes.bind at 1 3.
    destruct (func d0 h) as [[] h1| |]; [|done|done].
    rewrite <- Hframe in HL, Hn.
    rewrite (bind_get_next a _ _ h1 Hn). cbn [node_of Nodes.next].
    apply IH; [done|lia|lia].
Qed.

Lemma steps_run h cells :
  Linked (Nodes.node_at h) cells ->
  forall i j, steps i (addr_at cells j) h
              = Nodes.Done (addr_at cells (j + i)) h.
Proof.
  intros HL. induction i as [|i IH]; intros j.
  - simpl. by rewrite Nat.add_0_r.
  - cbn [steps]. unfold Nodes.list_next.
    destruct (addr_at_cases cells j) as [[Hlen Hz]|[d Hj]].
    + rewrite Hz. simpl (NULL =? NULL). cbn [negb]. rewrite nbind_ret.
      rewrite <- (addr_at_end cells (S j)) by lia. rewrite IH.
      do 2 f_equal. lia.
    + pose proof (Linked_addr _ _ _ _ _ HL Hj) as Ha.
      destruct (Z.eqb_spec (addr_at cells j) NULL) as [|_]; [done|].
      cbn [negb].
      rewrite (bind_get_next _ _ _ h (linked_node _ _ HL j _ d Hj)).
      cbn [node_of Nodes.next]. rewrite IH. do 2 f_equal. lia.
Qed.

Lemma list_data_run h cells i :
  Linked (Nodes.node_at h) cells ->
  Nodes.list_data (addr_at cells i) h = Nodes.Done (data_at cells i) h.
Proof.
  intros HL. unfold Nodes.list_data, data_at.
  destruct (addr_at_cases cells i) as [[Hlen Hz]|[d Hi]].
  - rewrite Hz. simpl (NULL =? NULL). cbn [negb].
    by rewrite lookup_ge_None_2.
  - pose proof (Linked_addr _ _ _ _ _ HL Hi) as Ha.
    destruct (Z.eqb_spec (addr_at cells i) NULL) as [|_]; [done|].
    cbn [negb]. rewrite Hi.
    by rewrite (get_data_run _ _ h (linked_node _ _ HL i _ d Hi)).
Qed.
End NodeMore.

(** ** The two views of a list *)

Section NodeViews.
Context {E : Type}.
Implicit Types (h : Nodes.heap E) (cells : list (ptr * ptr)).

Lemma same_list_Some h l cells x :
  same_list h l cells (Some x) = true <->
  list_rep h l cells (count x) = true /\ cells.*2 = head x.
Proof.
  unfold same_list. by rewrite andb_true_iff, bool_decide_eq_true.
Qed.

Lemma same_list_None h l cells :
  same_list h l cells None = true <-> l = NULL /\ cells = [].
Proof.
  unfold same_list.
  by rewrite andb_true_iff, Z.eqb_eq, bool_decide_eq_true.
Qed.

Lemma set_mallocs_id h : set_mallocs (Nodes.oracle h) h = h.
Proof. by destruct h. Qed.

Lemma list_rep_frame h h' l cells c :
  Nodes.node_at h' = Nodes.node_at h -> Nodes.list_at h' = Nodes.list_at h ->
  list_rep h' l cells c = list_rep h l cells c.
Proof. intros Hn Hl. unfold list_rep. by rewrite Hn, Hl. Qed.

Lemma malloc_node_fails h rest :
  Nodes.oracle h = false :: rest ->
  Nodes.malloc_node h = Nodes.Done NULL (set_mallocs rest h).
Proof. intros Ho. unfold Nodes.malloc_node. by rewrite Ho. Qed.

(** X1.  [list_create] returns the null pointer when the allocation
    fails and touches nothing.  Otherwise it returns the address of a
    new block, which is not null and was not in use, holding a list
    with a null [head] and [count] 0; the nodes and the other lists are
    untouched.  In both cases the result is the list [list_create] of
    the channel model returns: no list, or the empty one. *)
Theorem list_create_views h (w : world) :
  match Nodes.oracle h with
  | false :: rest =>
      Nodes.list_create h = Nodes.Done NULL (set_mallocs rest h)
      /\ list_create (set_oracle (Nodes.oracle h) w)
         = Ret None (set_oracle rest w)
  | _ =>
      exists l h',
        Nodes.list_create h = Nodes.Done l h'
        /\ l ≠ NULL
        /\ Nodes.list_at h !! l = None /\ Nodes.node_at h !! l = None
        /\ h' = upd_list l {| Nodes.head := NULL; Nodes.count := 0 |}
                  (set_mallocs (tail (Nodes.oracle h)) h)
        /\ list_create (set_oracle (Nodes.oracle h) w)
           = Ret (Some {| head := []; count := 0 |})
               (set_oracle (Nodes.oracle h') w)
        /\ same_list h' l [] (Some {| head := []; count := 0 |}) = true
  end.
Proof.
  destruct (new_addr_fresh h) as (Ha & Hfn & Hfl).
  assert (Hok : hd true (Nodes.oracle h) = true ->
            exists l h',
              Nodes.list_create h = Nodes.Done l h'
              /\ l ≠ NULL
              /\ Nodes.list_at h !! l = None /\ Nodes.node_at h !! l = None
              /\ h' = upd_list l {| Nodes.head := NULL; Nodes.count := 0 |}
                        (set_mallocs (tail (Nodes.oracle h)) h)
              /\ list_create (set_oracle (Nodes.oracle h) w)
                 = Ret (Some {| head := []; count := 0 |})
                     (set_oracle (Nodes.oracle h') w)
              /\ same_list h' l [] (Some {| head := []; count := 0 |}) = true).
  { intros Ho. exists (Nodes.new_addr h). eexists.
    split; [|split; [done|split; [done|split; [done|split; [reflexivity|]]]]].
    - unfold Nodes.list_create.
      assert (Hm : Nodes.malloc_list h
                   = Nodes.Done (Nodes.new_addr h)
                       (upd_list (Nodes.new_addr h)
                          {| Nodes.head := NULL; Nodes.count := 0 |}
                          (set_mallocs (tail (Nodes.oracle h)) h))).
      { unfold Nodes.malloc_list.
        destruct (Nodes.oracle h) as [|[] rest]; simpl in *; done. }
      rewrite (nbind_run _ _ _ _ _ Hm).
      destruct (Z.eqb_spec (Nodes.new_addr h) NULL) as [|_]; [done|].
      cbn [negb]. rewrite !nbind_bind.
      rewrite (bind_set_head _ {| Nodes.head := NULL; Nodes.count := 0 |})
        by (simpl; apply lookup_insert_eq).
      rewrite upd_list_upd_list. cbn [Nodes.count].
      rewrite (bind_set_count _ {| Nodes.head := NULL; Nodes.count := 0 |})
        by (simpl; apply lookup_insert_eq).
      rewrite upd_list_upd_list. reflexivity.
    - split.
      + unfold list_create, malloc, bind, next_outcome. simpl.
        destruct (Nodes.oracle h) as [|[] rest]; simpl in *; done.
      + apply same_list_Some. split; [|done]. apply list_rep_inv.
        split; [done|]. split; [simpl; apply lookup_insert_eq|].
        constructor; [apply NoDup_nil_2 | apply not_elem_of_nil | done]. }
  destruct (Nodes.oracle h) as [|[] rest] eqn:Ho; [by apply Hok..|].
  split.
  - unfold Nodes.list_create, Nodes.malloc_list, Nodes.bind. rewrite Ho.
    reflexivity.
  - reflexivity.
Qed.

(** X2.  [list_insert] on a list that the heap holds: when the node is
    allocated, the list has one node more, a new block which is not
    null and was not in use; it is the head, holds the given pointer,
    and the old head follows it; [count] is one more (modulo the range
    of [size_t]).  When the allocation fails, or the list pointer is
    null, nothing but the record of allocations changes.  Blocks
    outside the chain and other lists are untouched.  The list that
    results is the one [list_insert] of the channel model returns. *)
Theorem list_insert_views h (l : ptr) cells (al : option list_t) (d : ptr)
  (w : world) :
  same_list h l cells al = true ->
  exists h' al',
    Nodes.list_insert l d h = Nodes.Done tt h'
    /\ list_insert al d (set_oracle (Nodes.oracle h) w)
       = Ret al' (set_oracle (Nodes.oracle h') w)
    /\ same_list h' l
         (match al with
          | Some _ => if hd true (Nodes.oracle h)
                      then (Nodes.new_addr h, d) :: cells else cells
          | None => cells
          end) al' = true
    /\ Nodes.new_addr h ≠ NULL
    /\ Nodes.node_at h !! Nodes.new_addr h = None
    /\ (forall b, b ≠ Nodes.new_addr h -> b ∉ cells.*1 ->
                  Nodes.node_at h' !! b = Nodes.node_at h !! b)
    /\ (forall l', l' ≠ l -> Nodes.list_at h' !! l' = Nodes.list_at h !! l')
    /\ Nodes.env h' = Nodes.env h.
Proof.
  intros Hsame. destruct (new_addr_fresh h) as (Ha & Hfn & _).
  destruct al as [x|].
  - apply same_list_Some in Hsame as [Hrep Hds].
    destruct (hd true (Nodes.oracle h)) eqn:Ho.
    + destruct (list_insert_ok h l cells (count x) d Hrep Ho)
        as (h' & Hrun & Hrep' & Hfr & Hfl & Ho' & He').
      exists h', (Some {| head := d :: head x;
                          count := size_wrap (count x + 1) |}).
      split; [done|]. split; [|split; [|done]].
      * cbn [list_insert]. unfold malloc, bind, next_outcome. simpl.
        rewrite Ho'.
        destruct (Nodes.oracle h) as [|[] rest]; simpl in *; done.
      * apply same_list_Some. split; [done|]. cbn [head].
        rewrite <- Hds. reflexivity.
    + destruct (Nodes.oracle h) as [|[] rest] eqn:Ho1; simpl in Ho; try done.
      exists (set_mallocs rest h), (Some x).
      split; [|split; [|split; [|split; [|split; [|split]]]]]; try done.
      * apply list_rep_inv in Hrep as (Hl & _).
        unfold Nodes.list_insert.
        destruct (Z.eqb_spec l NULL) as [|_]; [done|]. cbn [negb].
        by rewrite (nbind_run _ _ _ _ _ (malloc_node_fails h rest Ho1)).
      * apply same_list_Some. split; [|done].
        by rewrite (list_rep_frame h (set_mallocs rest h)).
  - apply same_list_None in Hsame as [-> ->].
    exists h, None. split; [done|]. split.
    { reflexivity. }
    split; [by apply same_list_None|]. done.
Qed.

(** X3.  [list_find] on a list that the heap holds, with enough
    iterations allowed for the length of the chain: it returns the
    address of the first node, from the head, whose [data] is the
    pointer sought, and the null pointer when no node holds it (also
    for a null list); the heap is left as it is.  The node is at the
    position [list_find] of the channel model returns. *)
Theorem list_find_views h (l : ptr) cells (al : option list_t) (d : ptr)
  (fuel : nat) :
  same_list h l cells al = true ->
  (length cells < fuel)%nat ->
  match list_find al d with
  | Some i =>
      Nodes.list_find fuel l d h = Nodes.Done (addr_at cells i) h
      /\ addr_at cells i ≠ NULL
      /\ data_at cells i = d
      /\ forall j, (j < i)%nat -> data_at cells j ≠ d
  | None =>
      Nodes.list_find fuel l d h = Nodes.Done NULL h /\ d ∉ cells.*2
  end.
Proof.
  intros Hsame Hfuel. destruct al as [x|].
  - apply same_list_Some in Hsame as [Hrep Hds].
    pose proof (list_find_ok h l cells (count x) d fuel Hrep Hfuel) as Hf.
    cbn [list_find head] in *. by rewrite <- Hds.
  - apply same_list_None in Hsame as [-> ->]. simpl.
    split; [done | apply not_elem_of_nil].
Qed.

(** X4.  [list_remove] of a node of the list: the node is unlinked and
    its block freed; the nodes before and after it are linked to each
    other (the head of the list moves on when the first node goes), the
    order of the others is kept and [count] is one less (modulo the
    range of [size_t]).  Blocks outside the chain and other lists are
    untouched.  The list that results is the one [list_remove] of the
    channel model returns for the position of the node.  With a null
    node nothing happens. *)
Theorem list_remove_views h (l : ptr) cells (al : option list_t) (i : nat)
  (a d : ptr) :
  same_list h l cells al = true ->
  cells !! i = Some (a, d) ->
  (exists h',
     Nodes.list_remove l a h = Nodes.Done tt h'
     /\ same_list h' l (delete i cells) (list_remove al (Some i)) = true
     /\ Nodes.node_at h' !! a = None
     /\ (forall b, b ∉ cells.*1 ->
                   Nodes.node_at h' !! b = Nodes.node_at h !! b)
     /\ (forall l', l' ≠ l -> Nodes.list_at h' !! l' = Nodes.list_at h !! l')
     /\ Nodes.oracle h' = Nodes.oracle h
     /\ Nodes.env h' = Nodes.env h)
  /\ Nodes.list_remove l NULL h = Nodes.Done tt h.
Proof.
  intros Hsame Hi. split.
  - destruct al as [x|].
    + apply same_list_Some in Hsame as [Hrep Hds].
      destruct (list_remove_ok h l cells (count x) i a d Hrep Hi)
        as (h' & Hrun & Hrep' & Hrest).
      exists h'. split; [done|]. split; [|done].
      apply same_list_Some. cbn [list_remove head count]. split; [done|].
      by rewrite list_fmap_delete, Hds.
    + apply same_list_None in Hsame as [_ ->]. done.
  - unfold Nodes.list_remove. simpl (NULL =? NULL).
    by rewrite andb_false_r.
Qed.

(** The calls [list_foreach] makes on a list that the heap holds. *)
Lemma list_foreach_calls h (l : ptr) cells (al : option list_t)
  (fuel : nat) (func : ptr -> Nodes.N E unit) :
  same_list h l cells al = true ->
  (length cells < fuel)%nat ->
  (forall d h0, match func d h0 with
                | Nodes.Done _ h1 => Nodes.node_at h1 = Nodes.node_at h0
                | _ => True
                end) ->
  Nodes.list_foreach fuel l (Some func) h = calls (tokens al) func h.
Proof.
  intros Hsame Hfuel Hframe. destruct al as [x|].
  - apply same_list_Some in Hsame as [Hrep Hds].
    apply list_rep_inv in Hrep as (Hl & Hat & HL).
    cbn [Nodes.list_foreach tokens].
    destruct (Z.eqb_spec l NULL) as [|_]; [done|]. cbn [negb].
    rewrite (bind_get_head l _ _ h Hat). cbn [Nodes.head]. rewrite <- Hds.
    apply (list_foreach_loop_run cells func Hframe (length cells) 0%nat
             fuel h HL); lia.
  - apply same_list_None in Hsame as [-> ->]. reflexivity.
Qed.

(** X5.  [list_foreach] on a list that the heap holds, with enough
    iterations allowed for the length of the chain and a callback that
    leaves the nodes alone: the callback is called once for each node,
    from the head to the tail, on the [data] of the node, that is, on
    the pointers of the channel model's list in their order.  A
    callback that fails ends the run.  With a null callback nothing
    happens. *)
Theorem list_foreach_views h (l : ptr) cells (al : option list_t)
  (fuel : nat) (func : ptr -> Nodes.N E unit) :
  same_list h l cells al = true ->
  (length cells < fuel)%nat ->
  (forall d h0, match func d h0 with
                | Nodes.Done _ h1 => Nodes.node_at h1 = Nodes.node_at h0
                | _ => True
                end) ->
  Nodes.list_foreach fuel l (Some func) h = calls (tokens al) func h
  /\ Nodes.list_foreach fuel l None h = Nodes.Done tt h.
Proof.
  intros Hsame Hfuel Hframe. split; [|done].
  by apply (list_foreach_calls h l cells).
Qed.

(** X6.  [list_destroy] on a list that the heap holds, with at least
    two iterations of its loop allowed.  A null list is left alone.  A
    list with no node or with one node is freed with its node.  With
    two nodes or more the behaviour is undefined: the loop frees the
    first node, moves the head on, and its second iteration reads the
    [next] field of the freed node, because [temp_node] still points to
    it.  These are the cases in which [list_destroy] of the channel
    model returns and is undefined. *)
Theorem list_destroy_views h (l : ptr) cells (al : option list_t)
  (fuel : nat) (w : world) :
  same_list h l cells al = true ->
  (2 <= fuel)%nat ->
  match list_destroy al w with
  | Ret _ w' =>
      w' = w
      /\ (length cells <= 1)%nat
      /\ Nodes.list_destroy fuel l h
         = Nodes.Done tt
             (match al with
              | Some _ => del_list l (foldr del_node h cells.*1)
              | None => h
              end)
  | Wait _ _ => False
  | Undef =>
      (2 <= length cells)%nat
      /\ Nodes.list_destroy fuel l h = Nodes.Fault
  end.
Proof.
  intros Hsame Hfuel. destruct al as [x|].
  - apply same_list_Some in Hsame as [Hrep Hds].
    rewrite (list_destroy_run h l cells (count x) fuel Hrep Hfuel).
    cbn [list_destroy]. rewrite <- Hds.
    destruct cells as [|[a d] [|[b db] rest]]; simpl.
    + split; [done|]. split; [lia|done].
    + split; [done|]. split; [lia|done].
    + split; [lia|done].
  - apply same_list_None in Hsame as [-> ->]. simpl.
    split; [done|]. split; [lia|done].
Qed.

(** X7.  Iteration with [list_begin], [list_next] and [list_data] on a
    list that the heap holds: the node reached after [i] steps from
    [list_begin] is node [i] of the chain, and [list_data] of it is
    pointer [i] of the channel model's list; past the last node, and
    for a null list, the node is the null pointer, [list_next] of it
    is null again and [list_data] of it is null.  The heap is left as
    it is. *)
Theorem list_walk_views h (l : ptr) cells (al : option list_t) (i : nat) :
  same_list h l cells al = true ->
  walk i l h = Nodes.Done (addr_at cells i) h
  /\ Nodes.list_data (addr_at cells i) h
     = Nodes.Done (nth i (tokens al) NULL) h
  /\ (addr_at cells i = NULL <-> (length (tokens al) <= i)%nat).
Proof.
  intros Hsame.
  assert (H : Linked (Nodes.node_at h) cells
               /\ cells.*2 = tokens al
               /\ Nodes.list_begin l h = Nodes.Done (addr_at cells 0) h).
  { destruct al as [x|].
    - apply same_list_Some in Hsame as [Hrep Hds].
      apply list_rep_inv in Hrep as (Hl & Hat & HL).
      split; [done|]. split; [done|]. unfold Nodes.list_begin.
      destruct (Z.eqb_spec l NULL) as [|_]; [done|]. cbn [negb].
      unfold Nodes.get_head, Nodes.bind, Nodes.load_list. by rewrite Hat.
    - apply same_list_None in Hsame as [-> ->].
      split; [|done].
      constructor; [apply NoDup_nil_2 | apply not_elem_of_nil | done]. }
  destruct H as (HL & Hds & Hbegin). split; [|split].
  - unfold walk. rewrite (nbind_run _ _ _ _ _ Hbegin).
    by rewrite (steps_run h cells HL).
  - rewrite (list_data_run h cells i HL). do 2 f_equal.
    rewrite <- Hds. unfold data_at.
    destruct (cells !! i) as [[a d]|] eqn:Hi.
    + symmetry. apply nth_lookup_Some. by rewrite list_lookup_fmap, Hi.
    + rewrite nth_overflow; [done|]. rewrite length_fmap.
      by apply lookup_ge_None in Hi.
  - rewrite <- Hds, length_fmap.
    destruct (addr_at_cases cells i) as [[Hlen Hz]|[d Hi]].
    + split; [done|]. intros _. exact Hz.
    + pose proof (Linked_addr _ _ _ _ _ HL Hi).
      apply lookup_lt_Some in Hi. split; [done | lia].
Qed.

Lemma size_wrap_succ_pred c :
  0 <= c < 2 ^ SIZE_WIDTH -> size_wrap (size_wrap (c + 1) - 1) = c.
Proof.
  intros Hc. unfold size_wrap. rewrite Zminus_mod_idemp_l.
  replace (c + 1 - 1) with c by lia. by apply Z.mod_small.
Qed.

(** X8.  A pointer that is inserted, found and removed again leaves
    the heap as it was, up to the record of allocations: [list_find]
    returns the new node, which is the head, [list_data] of it is the
    pointer, and after [list_remove] the nodes, their links, the head
    and [count] are what they were before the insert. *)
Theorem insert_find_remove_restores h (l : ptr) cells (c : Z) (d : ptr)
  (fuel : nat) :
  list_rep h l cells c = true ->
  0 <= c < 2 ^ SIZE_WIDTH ->
  hd true (Nodes.oracle h) = true ->
  (S (length cells) < fuel)%nat ->
  insert_find_remove fuel l d h
  = Nodes.Done (Nodes.new_addr h, d)
      (set_mallocs (tail (Nodes.oracle h)) h).
Proof.
  intros Hrep Hc Ho Hfuel. destruct (new_addr_fresh h) as (Ha & Hfn & _).
  destruct (list_insert_ok h l cells c d Hrep Ho)
    as (h1 & Hrun1 & Hrep1 & Hfr1 & Hfl1 & Ho1 & He1).
  set (a := Nodes.new_addr h) in *.
  pose proof (list_find_ok h1 l _ _ d fuel Hrep1) as Hfind.
  cbn [list_find head fmap list_fmap snd find_node] in Hfind.
  rewrite Z.eqb_refl in Hfind.
  destruct Hfind as (Hfind & _); [simpl; lia|].
  change (addr_at ((a, d) :: cells) 0) with a in Hfind.
  assert (H0 : ((a, d) :: cells) !! 0%nat = Some (a, d)) by reflexivity.
  destruct (list_remove_ok h1 l _ _ 0%nat a d Hrep1 H0)
    as (h2 & Hrun2 & Hrep2 & Hgone & Hfr2 & Hfl2 & Ho2 & He2).
  pose proof Hrep1 as Hrep1'. apply list_rep_inv in Hrep1' as (_ & _ & HL1).
  pose proof (list_data_run h1 _ 0%nat HL1) as Hdata.
  change (addr_at ((a, d) :: cells) 0) with a in Hdata.
  change (data_at ((a, d) :: cells) 0) with d in Hdata.
  unfold insert_find_remove.
  rewrite (nbind_run _ _ _ _ _ Hrun1), (nbind_run _ _ _ _ _ Hfind),
    (nbind_run _ _ _ _ _ Hdata), (nbind_run _ _ _ _ _ Hrun2).
  unfold Nodes.ret. f_equal.
  cbn [delete list_delete] in Hrep2.
  apply list_rep_inv in Hrep as (Hl & Hat & HL).
  apply list_rep_inv in Hrep2 as (_ & Hat2 & HL2).
  apply heap_eq; simpl; [| |congruence|congruence].
  - apply map_eq. intros b.
    destruct (decide (b = a)) as [->|Hba]; [congruence|].
    destruct (decide (b ∈ cells.*1)) as [Hin|Hnin].
    + apply list_elem_of_fmap in Hin as ([b' db] & -> & Hin).
      apply list_elem_of_lookup in Hin as [k Hk]. simpl.
      by rewrite (linked_node _ _ HL2 k b' db Hk),
        (linked_node _ _ HL k b' db Hk).
    + rewrite Hfr2, Hfr1; [done..|].
      simpl. intros Hin. apply elem_of_cons in Hin as [?|?]; done.
  - apply map_eq. intros l'.
    destruct (decide (l' = l)) as [->|Hne].
    + rewrite Hat2, Hat. by rewrite size_wrap_succ_pred.
    + by rewrite Hfl2, Hfl1.
Qed.

Lemma size_wrap_succ n :
  size_wrap (size_wrap (Z.of_nat n) + 1) = size_wrap (Z.of_nat (S n)).
Proof.
  unfold size_wrap. rewrite Zplus_mod_idemp_l. f_equal. lia.
Qed.

Lemma size_wrap_pred n :
  (0 < n)%nat ->
  size_wrap (size_wrap (Z.of_nat n) - 1) = size_wrap (Z.of_nat (n - 1)).
Proof.
  intros Hn. unfold size_wrap. rewrite Zminus_mod_idemp_l. f_equal. lia.
Qed.

Lemma list_count_run h l x :
  l ≠ NULL -> Nodes.list_at h !! l = Some x ->
  Nodes.list_count l h = Nodes.Done (Nodes.count x) h.
Proof.
  intros Hl Hat. unfold Nodes.list_count.
  destruct (Z.eqb_spec l NULL) as [|_]; [done|]. cbn [negb].
  unfold Nodes.get_count, Nodes.bind, Nodes.load_list. by rewrite Hat.
Qed.

(** X9.  A list whose [count] is the number of its nodes (modulo the
    range of [size_t]), such as a list [list_create] has just
    returned, keeps that property under every sequence of
    [list_insert] calls and of [list_remove] calls on the node
    [list_find] returns; the sequence runs to its end with the
    behaviour defined, given enough iterations for the longest chain,
    and afterwards [list_count] returns the number of nodes.  The
    [data] pointers of the final chain are, head first, the pointers
    inserted and not removed, the last inserted first. *)
Theorem list_ops_keep_count (ops : list list_op) :
  forall h (l : ptr) cells (fuel : nat),
    list_rep h l cells (size_wrap (Z.of_nat (length cells))) = true ->
    (length cells + length ops < fuel)%nat ->
    exists h' cells',
      run_list_ops fuel l ops h = Nodes.Done tt h'
      /\ list_rep h' l cells' (size_wrap (Z.of_nat (length cells'))) = true
      /\ cells'.*2 = data_after ops (Nodes.oracle h) cells.*2
      /\ Nodes.list_count l h'
         = Nodes.Done (size_wrap (Z.of_nat (length cells'))) h'
      /\ Nodes.env h' = Nodes.env h.
Proof.
  induction ops as [|[d|d] ops IH]; intros h l cells fuel Hrep Hfuel.
  - exists h, cells. split; [done|]. split; [done|]. split; [done|].
    split; [|done]. apply list_rep_inv in Hrep as (Hl & Hat & _).
    by rewrite (list_count_run h l _ Hl Hat).
  - cbn [run_list_ops data_after]. simpl in Hfuel.
    destruct (hd true (Nodes.oracle h)) eqn:Ho.
    + destruct (list_insert_ok h l cells _ d Hrep Ho)
        as (h1 & Hrun1 & Hrep1 & _ & _ & Ho1 & He1).
      rewrite size_wrap_succ in Hrep1.
      destruct (IH h1 l ((Nodes.new_addr h, d) :: cells) fuel Hrep1)
        as (h' & cells' & Hrun & Hrep' & Hds & Hcnt & He'); [simpl; lia|].
      exists h', cells'. rewrite (nbind_run _ _ _ _ _ Hrun1).
      split; [done|]. split; [done|]. split; [by rewrite Hds, Ho1|].
      split; [done | congruence].
    + destruct (Nodes.oracle h) as [|[] rest] eqn:Ho1; simpl in Ho; try done.
      assert (Hrun1 : Nodes.list_insert l d h
                      = Nodes.Done tt (set_mallocs rest h)).
      { pose proof Hrep as Hrep0.
        apply list_rep_inv in Hrep0 as (Hl & _).
        unfold Nodes.list_insert.
        destruct (Z.eqb_spec l NULL) as [|_]; [done|]. cbn [negb].
        by rewrite (nbind_run _ _ _ _ _ (malloc_node_fails h rest Ho1)). }
      rewrite <- (list_rep_frame h (set_mallocs rest h)) in Hrep by done.
      destruct (IH (set_mallocs rest h) l cells fuel Hrep)
        as (h' & cells' & Hrun & Hrep' & Hds & Hcnt & He'); [lia|].
      exists h', cells'. rewrite (nbind_run _ _ _ _ _ Hrun1).
      split; [done|]. split; [done|]. split; [done|]. done.
  - cbn [run_list_ops data_after]. simpl in Hfuel.
    pose proof (list_find_ok h l cells _ d fuel Hrep) as Hfind.
    cbn [list_find head] in Hfind.
    destruct (find_node cells.*2 d 0) as [i|] eqn:Hf.
    + destruct Hfind as (Hfind & Hnz & _); [lia|].
      destruct (addr_at_cases cells i) as [[_ Hz]|[d' Hi]]; [done|].
      destruct (list_remove_ok h l cells _ i _ d' Hrep Hi)
        as (h1 & Hrun1 & Hrep1 & _ & _ & _ & Ho1 & He1).
      assert (Hlen : (i < length cells)%nat) by (by apply lookup_lt_Some in Hi).
      rewrite size_wrap_pred in Hrep1 by lia.
      assert (Hlen1 : length (delete i cells) = (length cells - 1)%nat).
      { rewrite length_delete; [done|]. by eexists. }
      rewrite <- Hlen1 in Hrep1.
      destruct (IH h1 l (delete i cells) fuel Hrep1)
        as (h' & cells' & Hrun & Hrep' & Hds & Hcnt & He'); [lia|].
      exists h', cells'. rewrite (nbind_run _ _ _ _ _ Hfind).
      destruct (Z.eqb_spec (addr_at cells i) NULL) as [|_]; [done|].
      cbn [negb]. rewrite (nbind_run _ _ _ _ _ Hrun1).
      split; [done|]. split; [done|].
      split; [by rewrite Hds, list_fmap_delete, Ho1|].
      split; [done | congruence].
    + destruct Hfind as (Hfind & _); [lia|].
      destruct (IH h l cells fuel Hrep)
        as (h' & cells' & Hrun & Hrep' & Hds & Hcnt & He'); [lia|].
      exists h', cells'. rewrite (nbind_run _ _ _ _ _ Hfind).
      simpl (NULL =? NULL). cbn [negb]. rewrite nbind_ret.
      split; [done|]. split; [done|]. split; [done|]. done.
Qed.
End NodeViews.

(** Instances on the heap of the example. *)

Lemma list_insert_views_witness :
  exists h' al',
    Nodes.list_insert 5 9 demo_heap = Nodes.Done tt h'
    /\ list_insert (Some demo_list) 9
         (set_oracle (Nodes.oracle demo_heap) empty_world)
       = Ret al' (set_oracle (Nodes.oracle h') empty_world)
    /\ same_list h' 5
         (match Some demo_list with
          | Some _ => if hd true (Nodes.oracle demo_heap)
                      then (Nodes.new_addr demo_heap, 9) :: demo_cells
                      else demo_cells
          | None => demo_cells
          end) al' = true
    /\ Nodes.new_addr demo_heap ≠ NULL
    /\ Nodes.node_at demo_heap !! Nodes.new_addr demo_heap = None
    /\ (forall b, b ≠ Nodes.new_addr demo_heap -> b ∉ demo_cells.*1 ->
                  Nodes.node_at h' !! b = Nodes.node_at demo_heap !! b)
    /\ (forall l', l' ≠ 5 ->
                   Nodes.list_at h' !! l' = Nodes.list_at demo_heap !! l')
    /\ Nodes.env h' = Nodes.env demo_heap.
Proof.
  apply (list_insert_views demo_heap 5 demo_cells (Some demo_list) 9
           empty_world).
  vm_compute; reflexivity.
Defined.

Lemma list_find_views_witness :
  match list_find (Some demo_list) 8 with
  | Some i =>
      Nodes.list_find 3 5 8 demo_heap
      = Nodes.Done (addr_at demo_cells i) demo_heap
      /\ addr_at demo_cells i ≠ NULL
      /\ data_at demo_cells i = 8
      /\ forall j, (j < i)%nat -> data_at demo_cells j ≠ 8
  | None =>
      Nodes.list_find 3 5 8 demo_heap = Nodes.Done NULL demo_heap
      /\ 8 ∉ demo_cells.*2
  end.
Proof.
  apply (list_find_views demo_heap 5 demo_cells (Some demo_list) 8 3);
    [vm_compute; reflexivity | cbn; lia].
Defined.

Lemma list_remove_views_witness :
  (exists h',
     Nodes.list_remove 5 10 demo_heap = Nodes.Done tt h'
     /\ same_list h' 5 (delete 0%nat demo_cells)
          (list_remove (Some demo_list) (Some 0%nat)) = true
     /\ Nodes.node_at h' !! 10 = None
     /\ (forall b, b ∉ demo_cells.*1 ->
                   Nodes.node_at h' !! b = Nodes.node_at demo_heap !! b)
     /\ (forall l', l' ≠ 5 ->
                    Nodes.list_at h' !! l' = Nodes.list_at demo_heap !! l')
     /\ Nodes.oracle h' = Nodes.oracle demo_heap
     /\ Nodes.env h' = Nodes.env demo_heap)
  /\ Nodes.list_remove 5 NULL demo_heap = Nodes.Done tt demo_heap.
Proof.
  apply (list_remove_views demo_heap 5 demo_cells (Some demo_list) 0 10 7);
    [vm_compute; reflexivity | reflexivity].
Defined.

Lemma list_foreach_views_witness :
  Nodes.list_foreach 3 5 (Some post) demo_heap
  = calls (tokens (Some demo_list)) post demo_heap
  /\ Nodes.list_foreach 3 5 None demo_heap = Nodes.Done tt demo_heap.
Proof.
  apply (list_foreach_views demo_heap 5 demo_cells (Some demo_list) 3 post);
    [vm_compute; reflexivity | cbn; lia |].
  intros d h0. unfold post. by destruct (Nodes.env h0 !! d).
Defined.

Lemma list_destroy_views_witness :
  match list_destroy (Some demo_list) empty_world with
  | Ret _ w' =>
      w' = empty_world
      /\ (length demo_cells <= 1)%nat
      /\ Nodes.list_destroy 2 5 demo_heap
         = Nodes.Done tt
             (match Some demo_list with
              | Some _ => del_list 5 (foldr del_node demo_heap demo_cells.*1)
              | None => demo_heap
              end)
  | Wait _ _ => False
  | Undef =>
      (2 <= length demo_cells)%nat
      /\ Nodes.list_destroy 2 5 demo_heap = Nodes.Fault
  end.
Proof.
  apply (list_destroy_views demo_heap 5 demo_cells (Some demo_list) 2
           empty_world);
    [vm_compute; reflexivity | lia].
Defined.

Lemma list_walk_views_witness :
  walk 1 5 demo_heap = Nodes.Done (addr_at demo_cells 1) demo_heap
  /\ Nodes.list_data (addr_at demo_cells 1) demo_heap
     = Nodes.Done (nth 1 (tokens (Some demo_list)) NULL) demo_heap
  /\ (addr_at demo_cells 1 = NULL
      <-> (length (tokens (Some demo_list)) <= 1)%nat).
Proof.
  apply (list_walk_views demo_heap 5 demo_cells (Some demo_list) 1).
  vm_compute; reflexivity.
Defined.

Lemma insert_find_remove_restores_witness :
  insert_find_remove 4 5 9 demo_heap
  = Nodes.Done (Nodes.new_addr demo_heap, 9)
      (set_mallocs (tail (Nodes.oracle demo_heap)) demo_heap).
Proof.
  apply (insert_find_remove_restores demo_heap 5 demo_cells 2 9 4);
    [vm_compute; reflexivity | unfold SIZE_WIDTH; lia | reflexivity
     | cbn; lia].
Defined.

Lemma list_ops_keep_count_witness :
  exists h' cells',
    run_list_ops 5 5 [ListInsert 9; ListRemove 7] demo_heap
    = Nodes.Done tt h'
    /\ list_rep h' 5 cells' (size_wrap (Z.of_nat (length cells'))) = true
    /\ cells'.*2
       = data_after [ListInsert 9; ListRemove 7] (Nodes.oracle demo_heap)
           demo_cells.*2
    /\ Nodes.list_count 5 h'
       = Nodes.Done (size_wrap (Z.of_nat (length cells'))) h'
    /\ Nodes.env h' = Nodes.env demo_heap.
Proof.
  apply (list_ops_keep_count [ListInsert 9; ListRemove 7] demo_heap 5
           demo_cells 5);
    [vm_compute; reflexivity | cbn; lia].
Defined.

Lemma calls_post (ds : list ptr) :
  forall (h : Nodes.heap (gmap Z nat)) (w : world),
    sems w = Nodes.env h ->
    match foreach_node ds sem_post w with
    | Ret _ w' =>
        calls ds post h = Nodes.Done tt (set_env (sems w') h)
        /\ w' = set_sems (post_all ds (sems w)) w
    | Wait _ _ => False
    | Undef => calls ds post h = Nodes.Fault
    end.
Proof.
  induction ds as [|t ds IH]; intros h w Hs.
  - simpl. unfold Nodes.ret, set_env. rewrite Hs. split.
    + by destruct h.
    + destruct w; simpl in *; by subst.
  - cbn [foreach_node calls post_all].
    destruct (sems w !! t) as [n|] eqn:Hn.
    + assert (Hq : sem_post t w
                   = Ret tt {| chans := chans w; sems := <[t := S n]> (sems w);
                               oracle := oracle w |})
        by (unfold sem_post; by rewrite Hn).
      assert (Hp : post t h
                   = Nodes.Done tt (set_env (<[t := S n]> (sems w)) h))
        by (unfold post; by rewrite <- Hs, Hn).
      rewrite (bind_run _ _ _ _ _ Hq), (nbind_run _ _ _ _ _ Hp).
      specialize (IH (set_env (<[t := S n]> (sems w)) h)
                    {| chans := chans w; sems := <[t := S n]> (sems w);
                       oracle := oracle w |} eq_refl).
      destruct (foreach_node ds sem_post _) as [[] w'| |]; [|done|done].
      destruct IH as [Hc Hw]. split.
      * exact Hc.
      * exact Hw.
    + unfold bind, sem_post. rewrite Hn.
      unfold Nodes.bind, post. by rewrite <- Hs, Hn.
Qed.

(** X10.  [list_foreach] with [sem_post] as the callback, on a list
    that the heap holds: the semaphores are posted once for each node,
    from the head to the tail, and the counts that result are those the
    channel model computes for its list; when a node holds a pointer
    that is not an initialised semaphore, both are undefined.  The
    nodes and the lists are left as they are. *)
Theorem list_foreach_sem_post_views (h : Nodes.heap (gmap Z nat)) (l : ptr)
  (cells : list (ptr * ptr)) (al : option list_t) (fuel : nat) (w : world) :
  same_list h l cells al = true ->
  (length cells < fuel)%nat ->
  sems w = Nodes.env h ->
  match list_foreach al sem_post w with
  | Ret _ w' =>
      Nodes.list_foreach fuel l (Some post) h
      = Nodes.Done tt (set_env (sems w') h)
      /\ w' = set_sems (post_all (tokens al) (sems w)) w
  | Wait _ _ => False
  | Undef => Nodes.list_foreach fuel l (Some post) h = Nodes.Fault
  end.
Proof.
  intros Hsame Hfuel Hs.
  rewrite (list_foreach_calls h l cells al fuel post Hsame Hfuel).
  2: { intros d h0. unfold post. by destruct (Nodes.env h0 !! d). }
  destruct al as [x|]; cbn [list_foreach tokens].
  - by apply calls_post.
  - apply (calls_post [] h w Hs).
Qed.

Lemma list_foreach_sem_post_views_witness :
  match list_foreach (Some demo_list) sem_post
          (set_sems (Nodes.env demo_heap) empty_world) with
  | Ret _ w' =>
      Nodes.list_foreach 3 5 (Some post) demo_heap
      = Nodes.Done tt (set_env (sems w') demo_heap)
      /\ w' = set_sems
                (post_all (tokens (Some demo_list))
                   (sems (set_sems (Nodes.env demo_heap) empty_world)))
                (set_sems (Nodes.env demo_heap) empty_world)
  | Wait _ _ => False
  | Undef => Nodes.list_foreach 3 5 (Some post) demo_heap = Nodes.Fault
  end.
Proof.
  apply (list_foreach_sem_post_views demo_heap 5 demo_cells (Some demo_list)
           3 (set_sems (Nodes.env demo_heap) empty_world));
    [vm_compute; reflexivity | cbn; lia | reflexivity].
Defined.

(** ** Notification of a waiter list *)

Lemma post_all_lookup ts :
  forall s t,
    post_all ts s !! t
    = (fun n => (n + occurrences t ts)%nat) <$> s !! t.
Proof.
  induction ts as [|u ts IH]; intros s t.
  - simpl. destruct (s !! t); simpl; [f_equal; lia | done].
  - cbn [post_all]. rewrite IH. unfold occurrences. cbn [count_occ].
    destruct (s !! u) as [n|] eqn:Hu.
    + rewrite lookup_insert. destruct (decide (u = t)) as [->|Hne].
      * rewrite Hu. destruct (Z.eq_dec t t); [|done]. simpl. f_equal. lia.
      * destruct (Z.eq_dec u t); [done|]. done.
    + destruct (Z.eq_dec u t) as [->|Hne]; [|done]. by rewrite Hu.
Qed.

Lemma notified_lookup l s t :
  (list_count l = 0 -> tokens l = []) ->
  notified l s !! t
  = (fun n => (n + occurrences t (tokens l))%nat) <$> s !! t.
Proof.
  intros Hc. unfold notified. destruct (Z.eqb_spec (list_count l) 0) as [Hz|Hnz].
  - rewrite (Hc Hz). simpl. destruct (s !! t); simpl; [f_equal; lia | done].
  - apply post_all_lookup.
Qed.

(** X11.  The notification that ends [channel_send], [channel_receive]
    and [channel_close], on a channel that no thread is working on and
    whose list has a [count] of zero only when it has no node: every
    semaphore is posted as many times as the list holds it, so each
    waiting [channel_select] call, whose token is in the list once,
    gets one post; semaphores that are not in the list keep their
    count.  The channels are left as they are, with the mutex of the
    list released. *)
Theorem notify_list_posts (w : world) (c : ptr) (ch : chan_t) (snd : bool) :
  chan_ready w c = true ->
  chans w !! c = Some ch ->
  (list_count (get_list snd ch) = 0 -> tokens (get_list snd ch) = []) ->
  exists w',
    notify_list c snd w = Ret tt w'
    /\ chans w' = chans w
    /\ oracle w' = oracle w
    /\ forall t,
         sems w' !! t
         = (fun n => (n + occurrences t (tokens (get_list snd ch)))%nat)
             <$> sems w !! t.
Proof.
  intros Hr H Hc. apply (chan_ready_Ready w c ch H) in Hr.
  pose proof (Ready_list_mutex w c ch snd Hr) as Hm.
  assert (Hl : live (sems w) (tokens (get_list snd ch)) = true)
    by (destruct Hr; by destruct snd).
  pose proof (notify_list_run c snd ch (fun _ => ret tt) w Hm Hl) as Hrun.
  rewrite upd_chan_id in Hrun by done.
  exists (upd_chan c ch (set_sems (notified (get_list snd ch) (sems w)) w)).
  split.
  - unfold bind in Hrun. destruct (notify_list c snd w) as [[] w1| |]; done.
  - split; [simpl; by apply insert_id|]. split; [done|].
    intros t. simpl. by apply notified_lookup.
Qed.

Lemma notify_list_posts_witness :
  exists w',
    notify_list 2 false demo_waiting = Ret tt w'
    /\ chans w' = chans demo_waiting
    /\ oracle w' = oracle demo_waiting
    /\ forall t,
         sems w' !! t
         = (fun n => (n + occurrences t [1%Z])%nat) <$> sems demo_waiting !! t.
Proof.
  apply (notify_list_posts demo_waiting 2
           (set_list false (Some {| head := [1]; count := 1 |})
              (demo_chan [] false)) false);
    [vm_compute; reflexivity | reflexivity | discriminate].
Defined.

(** ** Blocking calls *)

Lemma channel_send_wake_open w c ch v :
  Ready w c ch -> closed ch = false ->
  channel_send_wake c v w
  = if buffer_current_size (buffer ch) =? buffer_capacity (buffer ch)
    then Wait (OnCond c Fsend_condition) w
    else Ret SUCCESS (after_send c ch v w).
Proof.
  intros HR Hop. pose proof HR as [].
  unfold channel_send_wake, pthread_cond_wait_return.
  rewrite (world_shape c ch w) at 1 by done.
  rewrite bind_bind, bind_lock, bind_ret, bind_get_chan by done.
  fields. rewrite Hop. unfold channel_send_loop. rewrite bind_get_chan.
  fields. rewrite full_test by done.
  destruct (Z.eqb_spec (buffer_current_size (buffer ch))
              (buffer_capacity (buffer ch))).
  - unfold pthread_cond_wait. rewrite bind_unlock by done.
    rewrite set_mutex_release, upd_chan_id by done. reflexivity.
  - by apply channel_send_perform_run.
Qed.

Lemma channel_receive_wake_open w c ch :
  Ready w c ch -> closed ch = false ->
  channel_receive_wake c w
  = match buf_items (buffer ch) with
    | [] => Wait (OnCond c Freceive_condition) w
    | x :: _ => Ret (SUCCESS, Some x) (after_receive c ch w)
    end.
Proof.
  intros HR Hop. pose proof HR as [].
  unfold channel_receive_wake, pthread_cond_wait_return.
  rewrite (world_shape c ch w) at 1 by done.
  rewrite bind_bind, bind_lock, bind_ret, bind_get_chan by done.
  fields. rewrite Hop. unfold channel_receive_loop. rewrite bind_get_chan.
  fields. rewrite empty_test.
  destruct (buf_items (buffer ch)) as [|x rest] eqn:Hitems.
  - rewrite bool_decide_eq_true_2 by done.
    unfold pthread_cond_wait. rewrite bind_unlock by done.
    rewrite set_mutex_release, upd_chan_id by done. reflexivity.
  - rewrite bool_decide_eq_false_2 by done.
    by apply (channel_receive_perform_run w c ch x rest).
Qed.

Lemma Ready_after_close w c ch :
  Ready w c ch -> Ready (after_close c ch w) c (set_closed true ch).
Proof.
  intros []. constructor; fields; try done.
  - apply lookup_upd_chan.
  - simpl. apply live_notified; [apply live_notified|apply live_notified];
      done.
  - simpl. apply live_notified; [apply live_notified|apply live_notified];
      done.
Qed.

(** X12.  A blocking [channel_send] or [channel_receive] on a channel
    that no thread is working on never answers [WOULDBLOCK] or
    [OTHER_ERROR]: on a closed channel it returns [CLOSED_ERROR] and
    changes nothing; on an open channel it completes with [SUCCESS]
    when the buffer has room (for a send) or holds a value (for a
    receive), and otherwise it waits on the condition variable of its
    direction, with the mutex released and the world as it was. *)
Theorem blocking_calls_wait (w : world) (c : ptr) (ch : chan_t) (v : val) :
  chan_ready w c = true ->
  chans w !! c = Some ch ->
  match channel_send c v true w with
  | Ret st w' =>
      (st = CLOSED_ERROR /\ closed ch = true /\ w' = w)
      \/ (st = SUCCESS /\ closed ch = false
          /\ buffer_current_size (buffer ch) < buffer_capacity (buffer ch)
          /\ w' = after_send c ch v w)
  | Wait p w' =>
      p = OnCond c Fsend_condition /\ w' = w /\ closed ch = false
      /\ buffer_current_size (buffer ch) = buffer_capacity (buffer ch)
  | Undef => False
  end
  /\ match channel_receive c true w with
     | Ret (st, slot) w' =>
         (st = CLOSED_ERROR /\ slot = None /\ closed ch = true /\ w' = w)
         \/ (st = SUCCESS /\ closed ch = false
             /\ (exists x rest, buf_items (buffer ch) = x :: rest
                                /\ slot = Some x)
             /\ w' = after_receive c ch w)
     | Wait p w' =>
         p = OnCond c Freceive_condition /\ w' = w /\ closed ch = false
         /\ buf_items (buffer ch) = []
     | Undef => False
     end.
Proof.
  intros Hr H. apply (chan_ready_Ready w c ch H) in Hr. pose proof Hr as [].
  destruct (closed ch) eqn:Hcl.
  - rewrite (channel_send_closed w c ch v true) by done.
    rewrite (channel_receive_closed w c ch true) by done.
    split; left; done.
  - rewrite (channel_send_open w c ch v true Hr Hcl).
    rewrite (channel_receive_open w c ch true Hr Hcl). split.
    + destruct (Z.eqb_spec (buffer_current_size (buffer ch))
                  (buffer_capacity (buffer ch))); [done|].
      right. split; [done|]. split; [done|]. split; [lia|done].
    + destruct (buf_items (buffer ch)) as [|x rest]; [done|].
      right. split; [done|]. split; [done|]. split; [by exists x, rest|].
      done.
Qed.

Lemma blocking_calls_wait_witness :
  let w := demo_world [5; 6] false in
  let ch := demo_chan [5; 6] false in
  match channel_send 1 9 true w with
  | Ret st w' =>
      (st = CLOSED_ERROR /\ closed ch = true /\ w' = w)
      \/ (st = SUCCESS /\ closed ch = false
          /\ buffer_current_size (buffer ch) < buffer_capacity (buffer ch)
          /\ w' = after_send 1 ch 9 w)
  | Wait p w' =>
      p = OnCond 1 Fsend_condition /\ w' = w /\ closed ch = false
      /\ buffer_current_size (buffer ch) = buffer_capacity (buffer ch)
  | Undef => False
  end
  /\ match channel_receive 1 true w with
     | Ret (st, slot) w' =>
         (st = CLOSED_ERROR /\ slot = None /\ closed ch = true /\ w' = w)
         \/ (st = SUCCESS /\ closed ch = false
             /\ (exists x rest, buf_items (buffer ch) = x :: rest
                                /\ slot = Some x)
             /\ w' = after_receive 1 ch w)
     | Wait p w' =>
         p = OnCond 1 Freceive_condition /\ w' = w /\ closed ch = false
         /\ buf_items (buffer ch) = []
     | Undef => False
     end.
Proof.
  intros w ch.
  apply (blocking_calls_wait w 1 ch 9); [vm_compute; reflexivity | reflexivity].
Defined.

(** X13.  A call released from [pthread_cond_wait] tests the channel
    again, so a release that finds nothing changed is harmless: on a
    channel that no thread is working on, the resumed send returns
    [CLOSED_ERROR] when the channel is closed, waits again when it is
    open and still full, and otherwise sends; the resumed receive
    returns [CLOSED_ERROR], waits again on an empty buffer, or
    receives the oldest value. *)
Theorem wake_tests_again (w : world) (c : ptr) (ch : chan_t) (v : val) :
  chan_ready w c = true ->
  chans w !! c = Some ch ->
  channel_send_wake c v w
  = (if closed ch then Ret CLOSED_ERROR w
     else if buffer_current_size (buffer ch) =? buffer_capacity (buffer ch)
     then Wait (OnCond c Fsend_condition) w
     else Ret SUCCESS (after_send c ch v w))
  /\ channel_receive_wake c w
     = (if closed ch then Ret (CLOSED_ERROR, None) w
        else match buf_items (buffer ch) with
             | [] => Wait (OnCond c Freceive_condition) w
             | x :: _ => Ret (SUCCESS, Some x) (after_receive c ch w)
             end).
Proof.
  intros Hr H. apply (chan_ready_Ready w c ch H) in Hr. pose proof Hr as [].
  destruct (closed ch) eqn:Hcl.
  - by apply (channel_wake_closed w c ch v).
  - split.
    + by apply channel_send_wake_open.
    + by apply channel_receive_wake_open.
Qed.

Lemma wake_tests_again_witness :
  channel_send_wake 1 9 (demo_world [5; 6] false)
  = Wait (OnCond 1 Fsend_condition) (demo_world [5; 6] false)
  /\ channel_receive_wake 1 (demo_world [5; 6] false)
     = Ret (SUCCESS, Some 5)
         (after_receive 1 (demo_chan [5; 6] false) (demo_world [5; 6] false)).
Proof.
  apply (wake_tests_again (demo_world [5; 6] false) 1
           (demo_chan [5; 6] false) 9);
    [vm_compute; reflexivity | reflexivity].
Defined.

(** X14.  [channel_close] releases the callers that wait in a blocking
    call.  On an open channel that no thread is working on: a blocking
    send on a full buffer and a blocking receive on an empty buffer
    wait; [channel_close] returns [SUCCESS]; resumed after it, the send
    and the receive return [CLOSED_ERROR], the value of the send is not
    stored, the receive stores nothing, and the buffer still holds what
    it held before the close. *)
Theorem close_releases_blocked_calls (w : world) (c : ptr) (ch : chan_t)
  (v : val) :
  chan_ready w c = true ->
  chans w !! c = Some ch ->
  closed ch = false ->
  channel_close c w = Ret SUCCESS (after_close c ch w)
  /\ (buffer_current_size (buffer ch) = buffer_capacity (buffer ch) ->
      channel_send c v true w = Wait (OnCond c Fsend_condition) w
      /\ channel_send_wake c v (after_close c ch w)
         = Ret CLOSED_ERROR (after_close c ch w))
  /\ (buf_items (buffer ch) = [] ->
      channel_receive c true w = Wait (OnCond c Freceive_condition) w
      /\ channel_receive_wake c (after_close c ch w)
         = Ret (CLOSED_ERROR, None) (after_close c ch w))
  /\ (buffer <$> chans (after_close c ch w) !! c) = Some (buffer ch).
Proof.
  intros Hr H Hop. apply (chan_ready_Ready w c ch H) in Hr.
  pose proof (Ready_after_close w c ch Hr) as [].
  assert (Hwake : channel_send_wake c v (after_close c ch w)
                  = Ret CLOSED_ERROR (after_close c ch w)
                  /\ channel_receive_wake c (after_close c ch w)
                     = Ret (CLOSED_ERROR, None) (after_close c ch w))
    by (by apply (channel_wake_closed _ c (set_closed true ch) v)).
  split; [by apply channel_close_open|]. split; [|split].
  - intros Hfull. split; [|by destruct Hwake].
    rewrite (channel_send_open w c ch v true Hr Hop).
    by rewrite (proj2 (Z.eqb_eq _ _) Hfull).
  - intros Hempty. split; [|by destruct Hwake].
    rewrite (channel_receive_open w c ch true Hr Hop). by rewrite Hempty.
  - unfold after_close. by rewrite lookup_upd_chan.
Qed.

Lemma close_releases_blocked_calls_witness :
  let w := demo_world [5; 6] false in
  let ch := demo_chan [5; 6] false in
  channel_close 1 w = Ret SUCCESS (after_close 1 ch w)
  /\ (buffer_current_size (buffer ch) = buffer_capacity (buffer ch) ->
      channel_send 1 9 true w = Wait (OnCond 1 Fsend_condition) w
      /\ channel_send_wake 1 9 (after_close 1 ch w)
         = Ret CLOSED_ERROR (after_close 1 ch w))
  /\ (buf_items (buffer ch) = [] ->
      channel_receive 1 true w = Wait (OnCond 1 Freceive_condition) w
      /\ channel_receive_wake 1 (after_close 1 ch w)
         = Ret (CLOSED_ERROR, None) (after_close 1 ch w))
  /\ (buffer <$> chans (after_close 1 ch w) !! 1) = Some (buffer ch).
Proof.
  intros w ch.
  apply (close_releases_blocked_calls w 1 ch 9);
    [vm_compute; reflexivity | reflexivity | reflexivity].
Defined.

(** X15.  A caller that waits in a blocking call completes when it is
    resumed after the other side has made the transfer possible.  (That
    the signal of the other call resumes the caller is the part of the
    thread library: a condition variable keeps no state here.)  On an
    open channel that no thread is working on, with a capacity of at
    least 1:
    - a blocking send of [v] on a full buffer waits; resumed after a
      receive has taken the oldest value, it returns [SUCCESS] and [v]
      is the newest value of the buffer;
    - a blocking receive on an empty buffer waits; resumed after a
      send of [v], it returns [SUCCESS] with [v] and the buffer is
      empty again. *)
Theorem blocked_call_completes (w : world) (c : ptr) (ch : chan_t)
  (v : val) :
  chan_ready w c = true ->
  chans w !! c = Some ch ->
  closed ch = false ->
  0 < buffer_capacity (buffer ch) ->
  (buffer_current_size (buffer ch) = buffer_capacity (buffer ch) ->
   exists x rest w1 w2 ch2,
     buf_items (buffer ch) = x :: rest
     /\ channel_send c v true w = Wait (OnCond c Fsend_condition) w
     /\ channel_receive c false w = Ret (SUCCESS, Some x) w1
     /\ channel_send_wake c v w1 = Ret SUCCESS w2
     /\ chans w2 !! c = Some ch2
     /\ buf_items (buffer ch2) = rest ++ [v])
  /\ (buf_items (buffer ch) = [] ->
      exists w1 w2 ch2,
        channel_receive c true w = Wait (OnCond c Freceive_condition) w
        /\ channel_send c v false w = Ret SUCCESS w1
        /\ channel_receive_wake c w1 = Ret (SUCCESS, Some v) w2
        /\ chans w2 !! c = Some ch2
        /\ buf_items (buffer ch2) = []).
Proof.
  intros Hr H Hop Hcap. apply (chan_ready_Ready w c ch H) in Hr. split.
  - intros Hfull.
    destruct (buf_items (buffer ch)) as [|x rest] eqn:Hitems.
    { unfold buffer_current_size in Hfull. rewrite Hitems in Hfull.
      simpl in Hfull. lia. }
    pose proof (Ready_after_receive w c ch Hr) as Hr1.
    assert (Hroom : buffer_current_size (buffer (set_buffer (popped (buffer ch)) ch))
                    ≠ buffer_capacity (buffer (set_buffer (popped (buffer ch)) ch))).
    { fields. unfold buffer_current_size, buffer_capacity, popped in *.
      rewrite Hitems in *. simpl in *. lia. }
    exists x, rest, (after_receive c ch w). eexists. eexists.
    split; [done|]. split; [|split; [|split; [|split]]].
    + rewrite (channel_send_open w c ch v true Hr Hop).
      by rewrite (proj2 (Z.eqb_eq _ _) Hfull).
    + rewrite (channel_receive_open w c ch false Hr Hop). by rewrite Hitems.
    + rewrite (channel_send_wake_open _ c _ v Hr1 Hop).
      by rewrite (proj2 (Z.eqb_neq _ _) Hroom).
    + apply lookup_upd_chan.
    + fields. unfold pushed, popped. simpl. by rewrite Hitems.
  - intros Hempty.
    assert (Hroom : buffer_current_size (buffer ch)
                    ≠ buffer_capacity (buffer ch)).
    { unfold buffer_current_size. rewrite Hempty. simpl. lia. }
    pose proof (Ready_after_send w c ch v Hr Hroom) as Hr1.
    exists (after_send c ch v w). eexists. eexists.
    split; [|split; [|split; [|split]]].
    + rewrite (channel_receive_open w c ch true Hr Hop). by rewrite Hempty.
    + rewrite (channel_send_open w c ch v false Hr Hop).
      by rewrite (proj2 (Z.eqb_neq _ _) Hroom).
    + rewrite (channel_receive_wake_open _ c _ Hr1 Hop).
      fields. unfold pushed. simpl. rewrite Hempty. reflexivity.
    + apply lookup_upd_chan.
    + reflexivity.
Qed.

Lemma blocked_call_completes_witness :
  let w := demo_world [5; 6] false in
  let ch := demo_chan [5; 6] false in
  (buffer_current_size (buffer ch) = buffer_capacity (buffer ch) ->
   exists x rest w1 w2 ch2,
     buf_items (buffer ch) = x :: rest
     /\ channel_send 1 9 true w = Wait (OnCond 1 Fsend_condition) w
     /\ channel_receive 1 false w = Ret (SUCCESS, Some x) w1
     /\ channel_send_wake 1 9 w1 = Ret SUCCESS w2
     /\ chans w2 !! 1 = Some ch2
     /\ buf_items (buffer ch2) = rest ++ [9])
  /\ (buf_items (buffer ch) = [] ->
      exists w1 w2 ch2,
        channel_receive 1 true w = Wait (OnCond 1 Freceive_condition) w
        /\ channel_send 1 9 false w = Ret SUCCESS w1
        /\ channel_receive_wake 1 w1 = Ret (SUCCESS, Some 9) w2
        /\ chans w2 !! 1 = Some ch2
        /\ buf_items (buffer ch2) = []).
Proof.
  intros w ch.
  apply (blocked_call_completes w 1 ch 9);
    [vm_compute; reflexivity | reflexivity | reflexivity | reflexivity].
Defined.

(** ** Calls in a world in which no thread is inside a call *)

Lemma AllReady_same w w' :
  chans w' = chans w -> sems_kept (sems w) (sems w') ->
  AllReady w -> AllReady w'.
Proof.
  intros Ec Hk Hall c ch H. rewrite Ec in H.
  apply (Ready_frame w); [by apply Hall | by rewrite Ec | done].
Qed.

Lemma AllReady_after_send w c ch v :
  AllReady w -> chans w !! c = Some ch ->
  buffer_current_size (buffer ch) ≠ buffer_capacity (buffer ch) ->
  AllReady (after_send c ch v w).
Proof.
  intros Hall H Hroom. pose proof (Hall c ch H) as HR.
  apply (AllReady_upd w); [done | by eexists | done | |].
  - apply sems_kept_notified.
  - by apply Ready_after_send.
Qed.

Lemma AllReady_after_receive w c ch :
  AllReady w -> chans w !! c = Some ch -> AllReady (after_receive c ch w).
Proof.
  intros Hall H. pose proof (Hall c ch H) as HR.
  apply (AllReady_upd w); [done | by eexists | done | |].
  - apply sems_kept_notified.
  - by apply Ready_after_receive.
Qed.

Lemma AllReady_after_close w c ch :
  AllReady w -> chans w !! c = Some ch -> AllReady (after_close c ch w).
Proof.
  intros Hall H. pose proof (Hall c ch H) as HR.
  apply (AllReady_upd w); [done | by eexists | done | |].
  - intros t Ht. by apply sems_kept_notified, sems_kept_notified.
  - by apply Ready_after_close.
Qed.

(** X16.  In a world in which no thread is inside a call, every call on
    existing channels (a send or a receive in either mode, a close, a
    select on entries that name channels, or the resumption of one that
    waits) has defined behaviour, and the world it leaves, returned or
    waiting, is again one in which no thread is inside a call: every
    mutex the call took is released, every buffer holds at most
    [capacity] values, and every token in a waiter list is an
    initialised semaphore. *)
Theorem calls_keep_world_ready (w : world) (x : api_call) :
  world_ready w = true ->
  call_ready w x ->
  exists w', api_world x w = Some w' /\ world_ready w' = true.
Proof.
  intros Hr Hx. apply world_ready_AllReady in Hr.
  assert (Hgoal : exists w', api_world x w = Some w' /\ AllReady w').
  { destruct x as [c v b|c v|c b|c|c|p n [l|]|p s n l];
      cbn [api_world call_ready] in Hx |- *.
    - destruct Hx as [ch H]. pose proof (Hr c ch H) as HR. pose proof HR as [].
      destruct (closed ch) eqn:Hcl.
      + rewrite (channel_send_closed w c ch v b) by done. eauto.
      + rewrite (channel_send_open w c ch v b HR Hcl).
        destruct (Z.eqb_spec (buffer_current_size (buffer ch))
                    (buffer_capacity (buffer ch))).
        * destruct b; simpl; eauto.
        * simpl. eauto using AllReady_after_send.
    - destruct Hx as [ch H]. pose proof (Hr c ch H) as HR. pose proof HR as [].
      destruct (closed ch) eqn:Hcl.
      + destruct (channel_wake_closed w c ch v H) as [-> _]; [done..|].
        simpl. eauto.
      + rewrite (channel_send_wake_open w c ch v HR Hcl).
        destruct (Z.eqb_spec (buffer_current_size (buffer ch))
                    (buffer_capacity (buffer ch))).
        * simpl; eauto.
        * simpl. eauto using AllReady_after_send.
    - destruct Hx as [ch H]. pose proof (Hr c ch H) as HR. pose proof HR as [].
      destruct (closed ch) eqn:Hcl.
      + rewrite (channel_receive_closed w c ch b) by done. eauto.
      + rewrite (channel_receive_open w c ch b HR Hcl).
        destruct (buf_items (buffer ch)).
        * destruct b; simpl; eauto.
        * simpl. eauto using AllReady_after_receive.
    - destruct Hx as [ch H]. pose proof (Hr c ch H) as HR. pose proof HR as [].
      destruct (closed ch) eqn:Hcl.
      + destruct (channel_wake_closed w c ch 0 H) as [_ ->]; [done..|].
        simpl. eauto.
      + rewrite (channel_receive_wake_open w c ch HR Hcl).
        destruct (buf_items (buffer ch)).
        * simpl; eauto.
        * simpl. eauto using AllReady_after_receive.
    - destruct Hx as [ch H]. pose proof (Hr c ch H) as HR. pose proof HR as [].
      destruct (closed ch) eqn:Hcl.
      + rewrite (channel_close_closed w c ch) by done. eauto.
      + rewrite (channel_close_open w c ch HR Hcl). simpl.
        eauto using AllReady_after_close.
    - destruct Hx as [-> Hv]. apply entries_valid_Valid in Hv.
      destruct l as [|e0 l0]; [simpl; eauto|].
      destruct (hd true (oracle w)) eqn:Ho.
      + destruct (channel_select_run w (e0 :: l0) Hr Hv) as
          (w1 & _ & HReg1 & _ & _ & Hsel); [done | done |].
        rewrite Hsel.
        pose proof (select_loop_total _ _ p w1 HReg1) as Hp.
        destruct (select_loop p _ _ _ w1) as [[r|] w'|q w'|]; simpl.
        * destruct Hp as (_ & _ & Hall & _). eauto.
        * destruct Hp. eauto.
        * destruct Hp as (_ & [] & _). eauto.
        * done.
      + unfold channel_select.
        destruct (Z.eqb_spec (Z.of_nat (length (e0 :: l0))) 0) as [E|_].
        { simpl in E. lia. }
        unfold sem_init, bind, next_outcome.
        destruct (oracle w) as [|[] rest]; simpl in Ho; try done.
        simpl. eexists. split; [reflexivity|].
        apply (AllReady_same w); [done | by intros t | done].
    - simpl. eauto.
    - destruct Hx as [-> HReg]. unfold channel_select_wake.
      pose proof (sem_wait_Registered s l w HReg) as Hw. unfold bind.
      destruct (sem_wait s w) as [[] w2|q w2|]; [| |done].
      + rewrite Nat2Z.id. destruct Hw as [HReg2 _].
        pose proof (select_loop_total s l p w2 HReg2) as Hp.
        destruct (select_loop p s (length l) l w2) as [[r|] w'|q w'|]; simpl.
        * destruct Hp as (_ & _ & Hall & _). eauto.
        * destruct Hp. eauto.
        * destruct Hp as (_ & [] & _). eauto.
        * done.
      + destruct Hw as (_ & -> & _). simpl. eauto. }
  destruct Hgoal as (w' & Hw' & Hall). exists w'. split; [done|].
  by apply world_ready_AllReady.
Qed.

Lemma calls_keep_world_ready_witness :
  exists w',
    api_world (CallSelect 1 2 (Some demo_entries)) demo_world2 = Some w'
    /\ world_ready w' = true.
Proof.
  apply (calls_keep_world_ready demo_world2
           (CallSelect 1 2 (Some demo_entries)));
    [vm_compute; reflexivity | split; vm_compute; reflexivity].
Defined.

(** X17.  Only [channel_select] changes a waiter list: after a send, a
    receive or a close, or the resumption of a send or receive that
    waited, in any world, whether the call returns or waits, every
    channel is still allocated and its two lists are what they
    were. *)
Theorem transfers_keep_lists (w : world) (x : api_call) (c : ptr)
  (ch : chan_t) :
  is_transfer x = true ->
  chans w !! c = Some ch ->
  match api_world x w with
  | Some w' =>
      exists ch', chans w' !! c = Some ch'
                  /\ send_list ch' = send_list ch
                  /\ receive_list ch' = receive_list ch
  | None => True
  end.
Proof.
  intros Hx H. destruct (api_world x w) as [w'|] eqn:Hw'; [|done].
  assert (Hk : forall A (m : M A), keeps same_lists m ->
                 world_after (m w) = Some w' -> evolves same_lists w w').
  { intros A m Hm Hrun. specialize (Hm w).
    destruct (m w); simpl in *; [by injection Hrun as <-..|done]. }
  assert (H1 : forall a : chan_t, same_lists a a) by (by split).
  assert (H2 : forall a b c0 : chan_t,
             same_lists a b -> same_lists b c0 -> same_lists a c0).
  { intros a b c0 [? ?] [? ?]. split; congruence. }
  assert (H3 : forall f m (a : chan_t), same_lists a (set_mutex f m a))
    by (by split).
  assert (H4 : forall b (a : chan_t), same_lists a (set_buffer b a))
    by (by split).
  assert (H5 : forall a : chan_t, same_lists a (set_closed true a))
    by (by split).
  assert (Hev : evolves same_lists w w').
  { destruct x; cbn [api_world] in Hw'; try done.
    - by apply (Hk _ _ (keeps_send same_lists H1 H2 H3 H4 c0 v blocking)).
    - by apply (Hk _ _ (keeps_send_wake same_lists H1 H2 H3 H4 c0 v)).
    - by apply (Hk _ _ (keeps_receive same_lists H1 H2 H3 H4 c0 blocking)).
    - by apply (Hk _ _ (keeps_receive_wake same_lists H1 H2 H3 H4 c0)).
    - by apply (Hk _ _ (keeps_close same_lists H1 H2 H3 H5 c0)). }
  destruct (Hev c ch H) as (ch' & H' & Hs & Hrl). eauto.
Qed.

Lemma transfers_keep_lists_witness :
  match api_world (CallSend 1 9 false) (demo_world [5] false) with
  | Some w' =>
      exists ch', chans w' !! 1 = Some ch'
                  /\ send_list ch' = send_list (demo_chan [5] false)
                  /\ receive_list ch' = receive_list (demo_chan [5] false)
  | None => True
  end.
Proof.
  apply (transfers_keep_lists (demo_world [5] false) (CallSend 1 9 false) 1
           (demo_chan [5] false));
    reflexivity.
Defined.

(** X18.  A channel of capacity 0 never transfers a value: its buffer
    is full for every send and empty for every receive.  On such a
    channel, open and with no thread working on it, every non-blocking
    send and receive answers [WOULDBLOCK] and every blocking one waits;
    whatever sequence of sends and receives is run, no value is sent,
    no value is received and the world does not change. *)
Theorem unbuffered_channel_never_transfers (w : world) (c : ptr)
  (ch : chan_t) (ops : list chan_op) :
  chan_ready w c = true ->
  chans w !! c = Some ch ->
  closed ch = false ->
  buffer_capacity (buffer ch) = 0 ->
  (forall v b,
     channel_send c v b w
     = if b then Wait (OnCond c Fsend_condition) w else Ret WOULDBLOCK w)
  /\ (forall b,
        channel_receive c b w
        = if b then Wait (OnCond c Freceive_condition) w
          else Ret (WOULDBLOCK, None) w)
  /\ match run_ops c ops w with
     | Ret (sent, received) w' => sent = [] /\ received = [] /\ w' = w
     | Wait _ w' => w' = w /\ existsb op_blocking ops = true
     | Undef => False
     end.
Proof.
  intros Hr H Hop Hcap. apply (chan_ready_Ready w c ch H) in Hr.
  assert (Hempty : buf_items (buffer ch) = []).
  { pose proof (ready_size w c ch Hr) as Hs.
    unfold buffer_current_size in Hs. rewrite Hcap in Hs.
    destruct (buf_items (buffer ch)); [done | simpl in *; lia]. }
  assert (Hsend : forall v b,
            channel_send c v b w
            = if b then Wait (OnCond c Fsend_condition) w
              else Ret WOULDBLOCK w).
  { intros v b. rewrite (channel_send_open w c ch v b Hr Hop).
    unfold buffer_current_size. rewrite Hempty, Hcap. reflexivity. }
  assert (Hrecv : forall b,
            channel_receive c b w
            = if b then Wait (OnCond c Freceive_condition) w
              else Ret (WOULDBLOCK, None) w).
  { intros b. rewrite (channel_receive_open w c ch b Hr Hop).
    by rewrite Hempty. }
  split; [done|]. split; [done|].
  induction ops as [|[v b|b] ops IH].
  - done.
  - cbn [run_ops]. unfold bind at 1. rewrite Hsend. destruct b; [done|].
    unfold bind.
    destruct (run_ops c ops w) as [[sent received] w'| |]; simpl in *; auto.
  - cbn [run_ops]. unfold bind at 1. rewrite Hrecv. destruct b; [done|].
    unfold bind.
    destruct (run_ops c ops w) as [[sent received] w'| |]; simpl in *; auto.
Qed.

Lemma unbuffered_channel_never_transfers_witness :
  (forall v b,
     channel_send 1 v b demo_world0
     = if b then Wait (OnCond 1 Fsend_condition) demo_world0
       else Ret WOULDBLOCK demo_world0)
  /\ (forall b,
        channel_receive 1 b demo_world0
        = if b then Wait (OnCond 1 Freceive_condition) demo_world0
          else Ret (WOULDBLOCK, None) demo_world0)
  /\ match run_ops 1 [OpSend 9 false; OpReceive false; OpReceive true]
             demo_world0 with
     | Ret (sent, received) w' =>
         sent = [] /\ received = [] /\ w' = demo_world0
     | Wait _ w' =>
         w' = demo_world0
         /\ existsb op_blocking
              [OpSend 9 false; OpReceive false; OpReceive true] = true
     | Undef => False
     end.
Proof.
  apply (unbuffered_channel_never_transfers demo_world0 1
           (set_buffer (buffer_create 0) (demo_chan [] false))
           [OpSend 9 false; OpReceive false; OpReceive true]);
    [vm_compute; reflexivity | reflexivity | reflexivity | reflexivity].
Defined.

(** ** The life of a channel *)

Lemma channel_create_run w size :
  hd true (oracle w) = true ->
  exists c w1 sl rl,
    channel_create size w = Ret c w1
    /\ c ≠ NULL
    /\ chans w !! c = None
    /\ chans w1
       = <[c := {| buffer := buffer_create size;
                   mutex := MutexFree;
                   send_list_mutex := MutexFree;
                   receive_list_mutex := MutexFree;
                   send_condition := CondReady;
                   receive_condition := CondReady;
                   send_list := sl;
                   receive_list := rl;
                   closed := false |}]> (chans w)
    /\ sems w1 = sems w
    /\ list_count sl = 0 /\ tokens sl = []
    /\ list_count rl = 0 /\ tokens rl = [].
Proof.
  intros Ho. unfold channel_create.
  assert (Hm : exists w0, malloc w = Ret true w0 /\ chans w0 = chans w
                          /\ sems w0 = sems w).
  { unfold malloc, next_outcome.
    destruct (oracle w) as [|[] rest]; simpl in Ho; [eauto..|done]. }
  destruct Hm as (w0 & Hm & Ec0 & Es0).
  rewrite (bind_run _ _ _ _ _ Hm). cbn [negb].
  destruct (list_create_result w0) as (sl & w1 & R1 & E1 & S1 & Hsc & Hst).
  destruct (list_create_result w1) as (rl & w2 & R2 & E2 & S2 & Hrc & Hrt).
  rewrite (bind_run _ _ _ _ _ R1), (bind_run _ _ _ _ _ R2).
  destruct (new_chan_addr_fresh w2) as [Hn Hf].
  assert (E : chans w2 = chans w) by congruence.
  exists (new_chan_addr w2). eexists. exists sl, rl.
  split; [reflexivity|]. simpl. rewrite <- E.
  split; [done|]. split; [done|]. split; [done|].
  split; [congruence|]. done.
Qed.

(** X19.  The life of a channel.  When the allocation of the structure
    succeeds and the size fits [size_t], [channel_create] returns a
    channel on which [channel_destroy] returns [DESTROY_ERROR] and
    changes nothing as long as the channel is open; [channel_close]
    returns [SUCCESS] the first time and [CLOSED_ERROR] after; after
    the close, [channel_destroy] returns [SUCCESS], and the channels
    and the semaphores of the world are what they were before the
    channel was created. *)
Theorem channel_lifecycle (w : world) (size : Z) :
  hd true (oracle w) = true ->
  0 <= size < 2 ^ SIZE_WIDTH ->
  exists c w1 w2 w3,
    channel_create size w = Ret c w1
    /\ c ≠ NULL
    /\ channel_destroy c w1 = Ret DESTROY_ERROR w1
    /\ channel_close c w1 = Ret SUCCESS w2
    /\ channel_close c w2 = Ret CLOSED_ERROR w2
    /\ channel_destroy c w2 = Ret SUCCESS w3
    /\ chans w3 = chans w
    /\ sems w3 = sems w.
Proof.
  intros Ho Hsize.
  destruct (channel_create_run w size Ho)
    as (c & w1 & sl & rl & Hrun & Hc & Hfresh & Ech & Es & Hsc & Hst & Hrc & Hrt).
  set (ch := {| buffer := buffer_create size; mutex := MutexFree;
                send_list_mutex := MutexFree;
                receive_list_mutex := MutexFree;
                send_condition := CondReady;
                receive_condition := CondReady;
                send_list := sl; receive_list := rl; closed := false |}) in *.
  assert (H1 : chans w1 !! c = Some ch) by (rewrite Ech; apply lookup_insert_eq).
  assert (HR : Ready w1 c ch).
  { constructor; try done.
    - unfold buffer_current_size, buffer_capacity. simpl. lia.
    - simpl. by rewrite Hst.
    - simpl. by rewrite Hrt. }
  pose proof (Ready_after_close w1 c ch HR) as HR2. pose proof HR2 as [].
  exists c, w1, (after_close c ch w1), (del_chan c (after_close c ch w1)).
  split; [done|]. split; [done|].
  split; [by apply (channel_destroy_open w1 c ch)|].
  split; [by apply channel_close_open|].
  split; [by apply (channel_close_closed _ c (set_closed true ch))|].
  split.
  { apply (channel_destroy_closed _ c (set_closed true ch)); try done.
    - simpl. rewrite Hst. simpl. lia.
    - simpl. rewrite Hrt. simpl. lia. }
  split.
  - simpl. rewrite delete_insert_eq, Ech, delete_insert_eq.
    by apply delete_id.
  - simpl. unfold notified. rewrite Hsc, Hrc. simpl. done.
Qed.

Lemma channel_lifecycle_witness :
  exists c w1 w2 w3,
    channel_create 2 empty_world = Ret c w1
    /\ c ≠ NULL
    /\ channel_destroy c w1 = Ret DESTROY_ERROR w1
    /\ channel_close c w1 = Ret SUCCESS w2
    /\ channel_close c w2 = Ret CLOSED_ERROR w2
    /\ channel_destroy c w2 = Ret SUCCESS w3
    /\ chans w3 = chans empty_world
    /\ sems w3 = sems empty_world.
Proof.
  apply (channel_lifecycle empty_world 2);
    [reflexivity | unfold SIZE_WIDTH; lia].
Defined.

(** ** A select call that has to wait *)

Lemma would_block_Ready w e ch :
  chans w !! channel e = Some ch ->
  would_block w e = true <->
  closed ch = false
  /\ if is_send e
     then buffer_current_size (buffer ch) = buffer_capacity (buffer ch)
     else buf_items (buffer ch) = [].
Proof.
  intros H. unfold would_block. rewrite H.
  rewrite andb_true_iff, negb_true_iff. destruct (is_send e).
  - by rewrite Z.eqb_eq.
  - rewrite empty_test, bool_decide_eq_true. done.
Qed.

Lemma probe_would_block w e ch :
  Ready w (channel e) ch -> would_block w e = true ->
  probe e w = Ret (WOULDBLOCK, None) w.
Proof.
  intros HR Hwb.
  apply (would_block_Ready w e ch (ready_lookup _ _ _ HR)) in Hwb
    as [Hop Hst].
  unfold probe. destruct (is_send e).
  - rewrite (bind_run _ _ _ _ _
               (channel_send_nonblocking_full w _ ch (data e) HR Hop Hst)).
    reflexivity.
  - by apply (channel_receive_nonblocking_empty w _ ch).
Qed.

Lemma select_probe_all_block w l :
  AllReady w -> Valid w l ->
  (forall e, e ∈ l -> would_block w e = true) ->
  forall n i0, (i0 + n <= length l)%nat ->
    select_probe n i0 l w = Ret (None, l) w.
Proof.
  intros Hall Hv Hwb. induction n as [|n IH]; intros i0 Hlen;
    cbn [select_probe]; [done|].
  destruct (lookup_lt_is_Some_2 l i0) as [e He]; [lia|]. rewrite He.
  destruct (Hv _ _ (target_of_lookup l i0 e He)) as [ch Hch].
  rewrite bind_select_attempt by done.
  rewrite (bind_run _ _ _ _ _
             (probe_would_block w e ch (Hall _ _ Hch)
                (Hwb e (list_elem_of_lookup_2 _ _ _ He)))).
  cbn [fst snd]. rewrite decide_False by (intros E; by apply E).
  unfold store_slot. apply IH. lia.
Qed.

Lemma would_block_same_chans w w' e :
  chans w' = chans w -> would_block w' e = would_block w e.
Proof. intros E. unfold would_block. by rewrite E. Qed.

Lemma select_pass_all_block s w l :
  AllReady w -> Valid w l ->
  (forall e, e ∈ l -> would_block w e = true) ->
  select_pass s (length l) l w
  = match sems w !! s with
    | Some (S n) => Ret (inr l) (set_sems (<[s := n]> (sems w)) w)
    | Some O => Wait (OnSem s) w
    | None => Undef
    end.
Proof.
  intros Hall Hv Hwb. unfold select_pass.
  rewrite (bind_run _ _ _ _ _
             (select_probe_all_block w l Hall Hv Hwb (length l) 0%nat
                ltac:(lia))).
  unfold bind, sem_wait. by destruct (sems w !! s) as [[|n]|].
Qed.

(** With nothing available, the loop uses up the posts its semaphore
    holds, one pass for each, and waits. *)
Lemma select_loop_waits s l :
  forall k passes w,
    Registered s l w ->
    (forall e, e ∈ l -> would_block w e = true) ->
    sems w !! s = Some k -> (k < passes)%nat ->
    select_loop passes s (length l) l w
    = Wait (OnSem s) (set_sems (<[s := 0%nat]> (sems w)) w).
Proof.
  induction k as [|k IH]; intros passes w HReg Hwb Hk Hlt;
    (destruct passes as [|passes]; [lia|]); cbn [select_loop];
    pose proof HReg as [Hall _ Hv _ _]; unfold bind at 1;
    rewrite (select_pass_all_block s w l Hall Hv Hwb), Hk.
  - f_equal. apply world_eq; simpl; [done | by rewrite insert_id | done].
  - pose proof (sem_wait_Registered s l w HReg) as Hw.
    unfold sem_wait in Hw. rewrite Hk in Hw. destruct Hw as [HReg' _].
    rewrite IH; [|done| |simpl; apply lookup_insert_eq|lia].
    + f_equal. apply world_eq; simpl; [done | apply insert_insert_eq | done].
    + intros e He. rewrite <- (Hwb e He). by apply would_block_same_chans.
Qed.

Lemma registration_keeps_content s l w w1 :
  select_registration s l w = Ret tt w1 -> evolves same_content w w1.
Proof.
  intros Hrun.
  assert (H1 : forall a : chan_t, same_content a a) by (by split).
  assert (H2 : forall a b c0 : chan_t,
             same_content a b -> same_content b c0 -> same_content a c0).
  { intros a b c0 [? ?] [? ?]. split; congruence. }
  assert (H3 : forall f m (a : chan_t), same_content a (set_mutex f m a))
    by (by split).
  assert (H4 : forall snd x (a : chan_t), same_content a (set_list snd x a))
    by (by split).
  assert (Hk : keeps same_content (select_registration s l)).
  { unfold select_registration. apply keeps_bind; [done| |].
    - apply keeps_stable; [done|]. apply stable_sem_init.
    - intros _. apply keeps_for_each_entry; [done|done|].
      intros e. by apply keeps_register_entry. }
  specialize (Hk w). by rewrite Hrun in Hk.
Qed.

Lemma would_block_content w w1 e :
  evolves same_content w w1 -> is_Some (chans w !! channel e) ->
  would_block w1 e = would_block w e.
Proof.
  intros Hev [ch H]. destruct (Hev _ _ H) as (ch1 & H1 & Hb & Hc).
  unfold would_block. by rewrite H, H1, Hb, Hc.
Qed.

(** ** A select call that a send wakes *)

Lemma lists_ok_tidy w s c ch snd :
  lists_ok w = true -> chans w !! c = Some ch -> tidy s (get_list snd ch).
Proof.
  unfold lists_ok. rewrite forallb_forall. intros Hall H.
  specialize (Hall c). rewrite H in Hall.
  assert (Hin : In c (elements (dom (chans w)))).
  { apply list_elem_of_In, elem_of_elements, elem_of_dom. by eexists. }
  apply Hall in Hin. apply andb_true_iff in Hin as [Hs Hr].
  assert (Hok : list_ok (get_list snd ch) = true) by (by destruct snd).
  unfold list_ok in Hok. destruct (get_list snd ch) as [x|]; [|done].
  apply andb_true_iff in Hok as [Hc Hlen].
  apply Z.eqb_eq in Hc. apply Z.ltb_lt in Hlen.
  exists x. split; [done|]. split; [done|]. case_decide; lia.
Qed.

Lemma tidy_count s l : tidy s l -> list_count l = 0 -> tokens l = [].
Proof.
  intros (x & -> & Hc & _). simpl. rewrite Hc.
  destruct (head x); simpl; [done | lia].
Qed.

Lemma all_true_tail (o : list bool) :
  forallb id o = true -> hd true o = true /\ forallb id (tail o) = true.
Proof. destruct o as [|[] o]; simpl; intros H; split; done. Qed.

(** The body of the registration loop on an allocated list when the
    allocation of the node succeeds. *)
Lemma register_entry_exact w s e ch x :
  Ready w (channel e) ch -> get_list (is_send e) ch = Some x ->
  hd true (oracle w) = true ->
  select_register_entry s e w
  = Ret tt
      (if decide (s ∈ head x) then w
       else upd_chan (channel e)
              (set_list (is_send e)
                 (Some {| head := s :: head x;
                          count := size_wrap (count x + 1) |}) ch)
              (set_oracle (tail (oracle w)) w)).
Proof.
  intros HR Hx Ho. pose proof (Ready_list_mutex w _ ch (is_send e) HR) as Hm.
  pose proof (ready_lookup _ _ _ HR) as Hch.
  unfold select_register_entry.
  rewrite (world_shape (channel e) ch w) at 1 by done.
  rewrite bind_lock, bind_get_chan, get_list_set_mutex, Hx by done.
  destruct (decide (s ∈ head x)) as [Hin|Hnin].
  - destruct (list_find (Some x) s) as [k|] eqn:Hf.
    + rewrite bind_ret, bind_unlock by apply get_set_mutex.
      rewrite set_mutex_release, upd_chan_id by done. reflexivity.
    + apply list_find_None in Hf. done.
  - assert (Hf : list_find (Some x) s = None) by (by apply list_find_None).
    rewrite Hf. cbn [list_insert]. rewrite !bind_bind.
    assert (Hmal : forall w0, oracle w0 = oracle w ->
              malloc w0 = Ret true (set_oracle (tail (oracle w)) w0)).
    { intros w0 E0. unfold malloc, next_outcome. rewrite E0.
      destruct (oracle w) as [|[] rest] eqn:E; simpl in Ho; try done.
      f_equal. destruct w0; simpl in *; by subst. }
    rewrite (bind_run _ _ _ _ _
               (Hmal (upd_chan (channel e)
                        (set_mutex (list_mutex (is_send e)) MutexHeld ch) w)
                  eq_refl)).
    rewrite bind_ret.
    change (set_oracle ?o (upd_chan ?c ?y w))
      with (upd_chan c y (set_oracle o w)).
    rewrite bind_put_chan, bind_unlock by (by destruct (is_send e)).
    rewrite unlock_after_set_list by done. reflexivity.
Qed.

Lemma reg_set_oracle_any o w c snd : reg (set_oracle o w) c snd = reg w c snd.
Proof. reflexivity. Qed.

(** When every allocation succeeds and the lists are in order, the
    registration loop puts the token on the list of every entry. *)
Lemma register_all_hooked s l w :
  Registered s l w ->
  (forall c ch snd, chans w !! c = Some ch -> tidy s (get_list snd ch)) ->
  forallb id (oracle w) = true ->
  exists w',
    for_each_entry (length l) 0 l (select_register_entry s) w = Ret tt w'
    /\ (forall c ch snd, chans w' !! c = Some ch -> tidy s (get_list snd ch))
    /\ (forall e, e ∈ l -> s ∈ reg w' (channel e) (is_send e)).
Proof.
  intros HReg Htidy Ho.
  destruct (for_each_entry_inv
              (fun j w0 =>
                 Registered s l w0
                 /\ (forall c ch snd, chans w0 !! c = Some ch ->
                                      tidy s (get_list snd ch))
                 /\ forallb id (oracle w0) = true
                 /\ forall j' e', (j' < j)%nat -> l !! j' = Some e' ->
                                  s ∈ reg w0 (channel e') (is_send e'))
              l (select_register_entry s)) with (n := length l)
           (i := 0%nat) (w := w) as (w' & Hrun & Hinv).
  - intros j e w0 Hj (HReg0 & Htidy0 & Ho0 & Hhook0).
    pose proof HReg0 as [Hall0 _ Hv0 _ _].
    destruct (Hv0 _ _ (target_of_lookup l j e Hj)) as [ch Hch].
    pose proof (Hall0 _ _ Hch) as HR.
    destruct (Htidy0 _ ch (is_send e) Hch) as (x & Hx & Hcnt & Hbound).
    destruct (all_true_tail _ Ho0) as [Hhd Htl].
    destruct (register_entry_inv s l w0 j e HReg0 Hj)
      as (w1 & Hrun1 & HReg1 & _).
    rewrite (register_entry_exact w0 s e ch x HR Hx Hhd) in Hrun1.
    injection Hrun1 as Hw1.
    assert (Hown : reg w0 (channel e) (is_send e) = head x)
      by (unfold reg; by rewrite Hch, Hx).
    exists w1. split.
    { rewrite (register_entry_exact w0 s e ch x HR Hx Hhd). by rewrite Hw1. }
    split; [done|].
    destruct (decide (s ∈ head x)) as [Hin|Hnin]; subst w1.
    + split; [done|]. split; [done|].
      intros j' e' Hlt Hj'. destruct (decide (j' = j)) as [->|Hne].
      * rewrite Hj in Hj'. injection Hj' as <-. by rewrite Hown.
      * apply (Hhook0 j'); [lia|done].
    + assert (Hregs : forall c0 snd0,
                reg (upd_chan (channel e)
                       (set_list (is_send e)
                          (Some {| head := s :: head x;
                                   count := size_wrap (count x + 1) |}) ch)
                       (set_oracle (tail (oracle w0)) w0)) c0 snd0
                = if decide ((c0, snd0) = (channel e, is_send e))
                  then s :: head x else reg w0 c0 snd0).
      { intros. by rewrite (reg_upd_list _ _ _ ch). }
      split; [|split; [done|]].
      * intros c ch0 snd H0. simpl in H0. rewrite lookup_insert in H0.
        case_decide as Ec; [|by apply (Htidy0 c)].
        subst c. injection H0 as <-.
        destruct (decide (snd = is_send e)) as [->|Hsnd].
        -- exists {| head := s :: head x; count := size_wrap (count x + 1) |}.
           split; [by destruct (is_send e)|]. simpl.
           rewrite decide_True by apply list_elem_of_here.
           unfold size_wrap. rewrite Z.mod_small by lia. lia.
        -- assert (Hg : get_list snd
                          (set_list (is_send e)
                             (Some {| head := s :: head x;
                                      count := size_wrap (count x + 1) |}) ch)
                        = get_list snd ch)
             by (destruct snd, (is_send e); done).
           rewrite Hg. by apply (Htidy0 (channel e)).
      * intros j' e' Hlt Hj'. rewrite Hregs.
        case_decide; [apply list_elem_of_here|].
        destruct (decide (j' = j)) as [->|Hne].
        -- rewrite Hj in Hj'. injection Hj' as <-. done.
        -- apply (Hhook0 j'); [lia|done].
  - lia.
  - split; [done|]. split; [done|]. split; [done|]. intros j' e' Hlt. lia.
  - exists w'. split; [done|]. destruct Hinv as (_ & Htidy' & _ & Hhook).
    split; [done|]. intros e He. apply list_elem_of_lookup in He as [j Hj].
    apply (Hhook j e); [|done]. apply lookup_lt_Some in Hj. simpl. lia.
Qed.

(** The state in which a select call waits when the operation of every
    entry would block, every waiter list is in order and no allocation
    fails. *)
Lemma select_waiting_state w l passes :
  AllReady w -> lists_ok w = true -> entries_valid w l = true ->
  forallb id (oracle w) = true -> forallb (would_block w) l = true ->
  l ≠ [] ->
  exists w1,
    channel_select (S passes) (Z.of_nat (length l)) (Some l) w
    = Wait (OnSem (sem_local_addr w)) w1
    /\ Registered (sem_local_addr w) l w1
    /\ sems w1 !! sem_local_addr w = Some 0%nat
    /\ evolves same_content w w1
    /\ (forall e, e ∈ l -> would_block w1 e = true)
    /\ (forall c ch snd, chans w1 !! c = Some ch ->
                         tidy (sem_local_addr w) (get_list snd ch))
    /\ (forall e, e ∈ l ->
          sem_local_addr w ∈ reg w1 (channel e) (is_send e)).
Proof.
  intros Hr Hlists Hv Hoall Hwb Hne.
  pose proof (entries_valid_Valid w l Hv) as Hval.
  destruct (all_true_tail _ Hoall) as [Ho Hotl].
  destruct (channel_select_run w l Hr Hval Hne Ho)
    as (w1 & Hreg & HReg1 & Hzero & _ & Hsel).
  set (s := sem_local_addr w) in *.
  pose proof (registration_keeps_content s l w w1 Hreg) as Hev.
  assert (Hwb1 : forall e0, e0 ∈ l -> would_block w1 e0 = true).
  { intros e0 He0. rewrite (would_block_content w w1 e0 Hev).
    - rewrite forallb_forall in Hwb. by apply Hwb, list_elem_of_In.
    - apply list_elem_of_lookup in He0 as [i Hi].
      by apply (entries_valid_lookup w l i e0). }
  exists w1. split; [|split; [done|split; [done|split; [done|split; [done|]]]]].
  - rewrite Hsel.
    rewrite (select_loop_waits s l 0%nat (S passes) w1 HReg1 Hwb1 Hzero)
      by lia.
    f_equal. apply world_eq; simpl; [done | by apply insert_id | done].
  - destruct (register_all_hooked s l (after_sem_init s w))
      as (w1' & Hrun' & Htidy' & Hhook').
    + apply (Registered_after_sem_init w l Hr Hval).
    + intros c ch0 snd H0. by apply (lists_ok_tidy w s c).
    + simpl. exact Hotl.
    + unfold select_registration in Hreg.
      rewrite (bind_run _ _ _ _ _ (sem_init_run s w Ho)) in Hreg.
      rewrite Hrun' in Hreg. injection Hreg as ->. done.
Qed.

(** The entries before the first one that names channel [c] still
    would block after a change of [c] alone. *)
Lemma earlier_entries_block s l w1 w2 (c : ptr) (j : nat) :
  Registered s l w2 ->
  (forall e, e ∈ l -> would_block w1 e = true) ->
  (forall c0, c0 ≠ c -> chans w2 !! c0 = chans w1 !! c0) ->
  (forall j' e', (j' < j)%nat -> l !! j' = Some e' -> channel e' ≠ c) ->
  forall j' e', (0 <= j' < j)%nat -> l !! j' = Some e' ->
    exists slot' w', probe e' w2 = Ret (WOULDBLOCK, slot') w'.
Proof.
  intros HReg Hwb Hsame Hfirst j' e' [_ Hlt] Hj'. exists None, w2.
  pose proof (Hfirst j' e' Hlt Hj') as Hother.
  assert (He' : e' ∈ l) by (by apply list_elem_of_lookup_2 in Hj').
  destruct (reg_valid _ _ _ HReg _ _ (target_of_lookup l j' e' Hj'))
    as [ch' Hch'].
  apply (probe_would_block w2 e' ch' (reg_ready _ _ _ HReg _ _ Hch')).
  rewrite <- (Hwb e' He'). unfold would_block. by rewrite Hsame.
Qed.

(** When every allocation succeeds and the lists are in order, the
    registration loop puts the token in front of the list of every
    entry, once, and changes no other list. *)
Lemma register_all_exact s l w :
  Registered s l w ->
  token_absent s w ->
  (forall c ch snd, chans w !! c = Some ch -> tidy s (get_list snd ch)) ->
  forallb id (oracle w) = true ->
  exists w',
    for_each_entry (length l) 0 l (select_register_entry s) w = Ret tt w'
    /\ sems w' = sems w
    /\ forall c snd,
         reg w' c snd
         = if decide ((c, snd) ∈ targets l) then s :: reg w c snd
           else reg w c snd.
Proof.
  intros HReg Habs Htidy Ho.
  destruct (for_each_entry_inv
              (fun j w0 =>
                 Registered s l w0
                 /\ (forall c ch snd, chans w0 !! c = Some ch ->
                                      tidy s (get_list snd ch))
                 /\ forallb id (oracle w0) = true
                 /\ sems w0 = sems w
                 /\ forall c snd,
                      reg w0 c snd
                      = if decide ((c, snd) ∈ targets (take j l))
                        then s :: reg w c snd else reg w c snd)
              l (select_register_entry s)) with (n := length l)
           (i := 0%nat) (w := w) as (w' & Hrun & Hinv).
  - intros j e w0 Hj (HReg0 & Htidy0 & Ho0 & Es0 & Hex0).
    pose proof HReg0 as [Hall0 _ Hv0 _ _].
    destruct (Hv0 _ _ (target_of_lookup l j e Hj)) as [ch Hch].
    pose proof (Hall0 _ _ Hch) as HR.
    destruct (Htidy0 _ ch (is_send e) Hch) as (x & Hx & Hcnt & Hbound).
    destruct (all_true_tail _ Ho0) as [Hhd Htl].
    destruct (register_entry_inv s l w0 j e HReg0 Hj)
      as (w1 & Hrun1 & HReg1 & Es1).
    rewrite (register_entry_exact w0 s e ch x HR Hx Hhd) in Hrun1.
    injection Hrun1 as Hw1.
    assert (Hown : reg w0 (channel e) (is_send e) = head x)
      by (unfold reg; by rewrite Hch, Hx).
    assert (Htk : targets (take (S j) l)
                  = targets (take j l) ++ [(channel e, is_send e)]).
    { unfold targets. by rewrite (take_S_r l j e Hj), fmap_app. }
    assert (Hmem : forall c snd,
              (c, snd) ∈ targets (take (S j) l)
              <-> (c, snd) ∈ targets (take j l)
                  \/ (c, snd) = (channel e, is_send e)).
    { intros c snd. rewrite Htk, elem_of_app, list_elem_of_singleton.
      done. }
    exists w1. split.
    { rewrite (register_entry_exact w0 s e ch x HR Hx Hhd). by rewrite Hw1. }
    split; [done|].
    destruct (decide (s ∈ head x)) as [Hin|Hnin]; subst w1.
    + split; [done|]. split; [done|]. split; [done|].
      intros c snd. rewrite (Hex0 c snd).
      destruct (decide ((c, snd) ∈ targets (take j l))) as [Hc|Hc].
      * rewrite decide_True by (apply Hmem; by left). done.
      * rewrite decide_False; [done|].
        intros [Hc'|Hc']%Hmem; [done|]. injection Hc' as -> ->.
        rewrite <- Hown, (Hex0 (channel e) (is_send e)) in Hin.
        rewrite decide_False in Hin by done.
        by apply (Habs (channel e) (is_send e)).
    + assert (Hregs : forall c0 snd0,
                reg (upd_chan (channel e)
                       (set_list (is_send e)
                          (Some {| head := s :: head x;
                                   count := size_wrap (count x + 1) |}) ch)
                       (set_oracle (tail (oracle w0)) w0)) c0 snd0
                = if decide ((c0, snd0) = (channel e, is_send e))
                  then s :: head x else reg w0 c0 snd0).
      { intros. by rewrite (reg_upd_list _ _ _ ch). }
      assert (Hfresh : (channel e, is_send e) ∉ targets (take j l)).
      { intros Hc. apply Hnin. rewrite <- Hown, (Hex0 _ _).
        rewrite decide_True by done. apply list_elem_of_here. }
      split; [|split; [done|split; [done|]]].
      * intros c ch0 snd H0. simpl in H0. rewrite lookup_insert in H0.
        case_decide as Ec; [|by apply (Htidy0 c)].
        subst c. injection H0 as <-.
        destruct (decide (snd = is_send e)) as [->|Hsnd].
        -- exists {| head := s :: head x; count := size_wrap (count x + 1) |}.
           split; [by destruct (is_send e)|]. simpl.
           rewrite decide_True by apply list_elem_of_here.
           unfold size_wrap. rewrite Z.mod_small by lia. lia.
        -- assert (Hg : get_list snd
                          (set_list (is_send e)
                             (Some {| head := s :: head x;
                                      count := size_wrap (count x + 1) |}) ch)
                        = get_list snd ch)
             by (destruct snd, (is_send e); done).
           rewrite Hg. by apply (Htidy0 (channel e)).
      * intros c snd. rewrite Hregs.
        destruct (decide ((c, snd) = (channel e, is_send e))) as [Ec|Ec].
        -- injection Ec as -> ->.
           rewrite decide_True by (apply Hmem; by right).
           f_equal. rewrite <- Hown, (Hex0 _ _). by rewrite decide_False.
        -- rewrite (Hex0 c snd).
           destruct (decide ((c, snd) ∈ targets (take j l))) as [Hc|Hc].
           ++ rewrite decide_True by (apply Hmem; by left). done.
           ++ rewrite decide_False; [done|].
              by intros [Hc'|Hc']%Hmem.
  - lia.
  - split; [done|]. split; [done|]. split; [done|]. split; [done|].
    intros c snd. rewrite decide_False; [done|].
    simpl. apply not_elem_of_nil.
  - exists w'. split; [done|].
    destruct Hinv as (_ & _ & _ & Es & Hex). split; [done|].
    intros c snd. rewrite (Hex c snd). simpl. by rewrite firstn_all.
Qed.

(** X20.  A select call that finds nothing to do waits.  In a world in
    which no thread is inside a call, with every waiter list allocated
    and in order, for entries that name channels, when [sem_init] and
    the allocation of every node succeed and the operation of every
    entry would block (the channel is open, and full for a send or
    empty for a receive): [channel_select] waits in [sem_wait] on its
    semaphore, whose count is 0, with its token registered: the token
    is the new head of the list of every entry, once in each, and every
    other list is as it was.  The call has changed no buffer, no closed
    flag and no entry.  When the call is resumed by posts that nothing
    backs (the entries would still block), it takes the posts, one for
    each pass of its loop, and waits again in the same world. *)
Theorem select_waits_when_all_would_block (w : world) (l : list select_t)
  (passes : nat) :
  world_ready w = true ->
  lists_ok w = true ->
  entries_valid w l = true ->
  l ≠ [] ->
  forallb id (oracle w) = true ->
  forallb (would_block w) l = true ->
  exists w1,
    select_registration (sem_local_addr w) l w = Ret tt w1
    /\ channel_select (S passes) (Z.of_nat (length l)) (Some l) w
       = Wait (OnSem (sem_local_addr w)) w1
    /\ sems w1 = <[sem_local_addr w := 0%nat]> (sems w)
    /\ (forall c snd,
          reg w1 c snd
          = if decide ((c, snd) ∈ targets l)
            then sem_local_addr w :: reg w c snd
            else reg w c snd)
    /\ (forall c ch, chans w !! c = Some ch ->
          exists ch1, chans w1 !! c = Some ch1
                      /\ buffer ch1 = buffer ch /\ closed ch1 = closed ch)
    /\ (forall k, (k < passes)%nat ->
          channel_select_wake passes (sem_local_addr w)
            (Z.of_nat (length l)) l
            (set_sems (<[sem_local_addr w := S k]> (sems w1)) w1)
          = Wait (OnSem (sem_local_addr w)) w1).
Proof.
  intros Hr Hlists Hv Hne Hoall Hwb. apply world_ready_AllReady in Hr.
  pose proof (entries_valid_Valid w l Hv) as Hval.
  destruct (all_true_tail _ Hoall) as [Ho Hotl].
  destruct (channel_select_run w l Hr Hval Hne Ho)
    as (w1 & Hreg & HReg1 & Hzero & _ & Hsel).
  set (s := sem_local_addr w) in *.
  pose proof (registration_keeps_content s l w w1 Hreg) as Hev.
  assert (Hwb1 : forall e, e ∈ l -> would_block w1 e = true).
  { intros e He. rewrite (would_block_content w w1 e Hev).
    - rewrite forallb_forall in Hwb. by apply Hwb, list_elem_of_In.
    - apply list_elem_of_lookup in He as [i Hi].
      by apply (entries_valid_lookup w l i e). }
  assert (Hid : set_sems (<[s := 0%nat]> (sems w1)) w1 = w1).
  { apply world_eq; simpl; [done | by apply insert_id | done]. }
  destruct (register_all_exact s l (after_sem_init s w))
    as (w1' & Hrun' & Es' & Hex').
  { apply (Registered_after_sem_init w l Hr Hval). }
  { intros c snd. apply (fresh_token_absent w Hr c snd). }
  { intros c ch0 snd H0. by apply (lists_ok_tidy w s c). }
  { exact Hotl. }
  assert (E1 : w1' = w1).
  { unfold select_registration in Hreg.
    rewrite (bind_run _ _ _ _ _ (sem_init_run s w Ho)) in Hreg.
    rewrite Hrun' in Hreg. by injection Hreg. }
  subst w1'.
  exists w1. split; [done|]. split; [|split; [done|split; [done|split]]].
  - rewrite Hsel.
    rewrite (select_loop_waits s l 0%nat (S passes) w1 HReg1 Hwb1 Hzero)
      by lia.
    by rewrite Hid.
  - intros c ch H. destruct (Hev c ch H) as (ch1 & H1 & Hb & Hc). eauto.
  - intros k Hk. unfold channel_select_wake.
    set (w2 := set_sems (<[s := S k]> (sems w1)) w1).
    assert (HReg2 : Registered s l w2).
    { destruct HReg1 as [Hall1 Hs1 Hv1 Honce1 Hin1]. constructor; try done.
      - apply (AllReady_same w1); [done| |done].
        intros t Ht. simpl. rewrite lookup_insert.
        case_decide; [by eexists | done].
      - simpl. rewrite lookup_insert_eq. by eexists. }
    pose proof (sem_wait_Registered s l w2 HReg2) as Hw.
    unfold bind. unfold sem_wait in Hw |- *.
    assert (Hk2 : sems w2 !! s = Some (S k)) by (simpl; apply lookup_insert_eq).
    rewrite Hk2 in Hw |- *. destruct Hw as [HReg3 _].
    rewrite Nat2Z.id.
    rewrite (select_loop_waits s l k passes _ HReg3);
      [| |simpl; apply lookup_insert_eq|done].
    + f_equal. apply world_eq; simpl; [done| |done].
      rewrite !insert_insert_eq. by apply insert_id.
    + intros e He. rewrite <- (Hwb1 e He). by apply would_block_same_chans.
Qed.

Lemma select_waits_when_all_would_block_witness :
  let w := demo_world3 in
  let l := demo_entries in
  exists w1,
    select_registration (sem_local_addr w) l w = Ret tt w1
    /\ channel_select 3 (Z.of_nat (length l)) (Some l) w
       = Wait (OnSem (sem_local_addr w)) w1
    /\ sems w1 = <[sem_local_addr w := 0%nat]> (sems w)
    /\ (forall c snd,
          reg w1 c snd
          = if decide ((c, snd) ∈ targets l)
            then sem_local_addr w :: reg w c snd
            else reg w c snd)
    /\ (forall c ch, chans w !! c = Some ch ->
          exists ch1, chans w1 !! c = Some ch1
                      /\ buffer ch1 = buffer ch /\ closed ch1 = closed ch)
    /\ (forall k, (k < 2)%nat ->
          channel_select_wake 2 (sem_local_addr w)
            (Z.of_nat (length l)) l
            (set_sems (<[sem_local_addr w := S k]> (sems w1)) w1)
          = Wait (OnSem (sem_local_addr w)) w1).
Proof.
  intros w l.
  apply (select_waits_when_all_would_block w l 2);
    [vm_compute; reflexivity | vm_compute; reflexivity
     | vm_compute; reflexivity | discriminate
     | reflexivity | vm_compute; reflexivity].
Defined.

(** X21.  A select call that waits is woken by the send it waits for.
    In a world in which no thread is inside a call, with every waiter
    list allocated and in order and no allocation failing, let every
    entry of a select call be one whose operation would block, and let
    entry [j] be a receive on a channel of capacity at least 1 that no
    earlier entry names.  Then [channel_select] waits on its semaphore;
    a send of [v] on that channel by another thread returns [SUCCESS]
    and posts the semaphore once; resumed, the select call returns
    [SUCCESS] with [j] in [*selected_index] and [v] in the payload slot
    of entry [j], and its token is in no list any more. *)
Theorem select_woken_by_send (w : world) (l : list select_t) (passes : nat)
  (j : nat) (e : select_t) (ch : chan_t) (v : val) :
  world_ready w = true ->
  lists_ok w = true ->
  entries_valid w l = true ->
  forallb id (oracle w) = true ->
  forallb (would_block w) l = true ->
  l !! j = Some e ->
  is_send e = false ->
  (forall j' e', (j' < j)%nat -> l !! j' = Some e' ->
                 channel e' ≠ channel e) ->
  chans w !! channel e = Some ch ->
  0 < buffer_capacity (buffer ch) ->
  exists w1 w2 w3,
    channel_select (S passes) (Z.of_nat (length l)) (Some l) w
    = Wait (OnSem (sem_local_addr w)) w1
    /\ channel_send (channel e) v false w1 = Ret SUCCESS w2
    /\ sems w2 !! sem_local_addr w = Some 1%nat
    /\ channel_select_wake (S passes) (sem_local_addr w)
         (Z.of_nat (length l)) l w2
       = Ret (Some (SUCCESS, Some (Z.of_nat j),
                    <[j := {| channel := channel e; is_send := false;
                              data := v |}]> l)) w3
    /\ token_absent (sem_local_addr w) w3
    /\ world_ready w3 = true.
Proof.
  intros Hr Hlists Hv Hoall Hwb Hj Hrecv Hfirst Hch Hcap.
  apply world_ready_AllReady in Hr.
  assert (Hne : l ≠ []) by (intros ->; done).
  destruct (select_waiting_state w l passes Hr Hlists Hv Hoall Hwb Hne)
    as (w1 & Hwait & HReg1 & Hzero & Hev & Hwb1 & Htidy & Hhook).
  set (s := sem_local_addr w) in *.
  (* the send *)
  pose proof (list_elem_of_lookup_2 _ _ _ Hj) as Hin.
  destruct (Hev _ _ Hch) as (ch1 & Hch1 & Hbuf & Hcl).
  pose proof (Hwb1 e Hin) as Hwbe.
  apply (would_block_Ready w1 e ch1 Hch1) in Hwbe as [Hop1 Hempty].
  rewrite Hrecv in Hempty.
  pose proof (reg_ready _ _ _ HReg1 _ _ Hch1) as HR1.
  assert (Hroom : buffer_current_size (buffer ch1)
                  ≠ buffer_capacity (buffer ch1)).
  { unfold buffer_current_size. rewrite Hempty, Hbuf. simpl. lia. }
  pose proof (channel_send_open w1 _ ch1 v false HR1 Hop1) as Hsend.
  rewrite (proj2 (Z.eqb_neq _ _) Hroom) in Hsend.
  set (w2 := after_send (channel e) ch1 v w1) in *.
  set (ch2 := set_buffer (pushed v (buffer ch1)) ch1).
  assert (Hreg1 : reg w1 (channel e) false = tokens (receive_list ch1))
    by (unfold reg; by rewrite Hch1).
  assert (Hposted : sems w2 !! s = Some 1%nat).
  { subst w2. unfold after_send. simpl.
    rewrite notified_lookup by apply (tidy_count s), (Htidy _ ch1 false Hch1).
    rewrite Hzero. simpl. f_equal.
    pose proof (reg_once _ _ _ HReg1 (channel e) false) as Hle.
    specialize (Hhook e Hin). rewrite Hrecv in Hhook.
    rewrite Hreg1 in Hle, Hhook.
    destruct (occurrences s (tokens (receive_list ch1))) as [|[|n]] eqn:Ho1;
      [|done|lia].
    apply occurrences_zero in Ho1. done. }
  assert (HReg2 : Registered s l w2).
  { apply (Registered_transfer s l w1 _ ch1); try done.
    - apply sems_kept_notified.
    - by apply Ready_after_send. }
  (* the resumed call *)
  pose proof (sem_wait_Registered s l w2 HReg2) as Hw.
  unfold sem_wait in Hw. rewrite Hposted in Hw. destruct Hw as [HReg3 _].
  set (w2' := {| chans := chans w2; sems := <[s := 0%nat]> (sems w2);
                 oracle := oracle w2 |}) in *.
  assert (Hch2 : chans w2' !! channel e = Some ch2)
    by (simpl; apply lookup_insert_eq).
  pose proof (reg_ready _ _ _ HReg3 _ _ Hch2) as HR2.
  assert (Hprobe_e : probe e w2'
                     = Ret (SUCCESS, Some v) (after_receive (channel e) ch2 w2')).
  { unfold probe. rewrite Hrecv.
    rewrite (channel_receive_open w2' _ ch2 false HR2 Hop1).
    subst ch2. fields. unfold pushed. simpl. rewrite Hempty.
    reflexivity. }
  assert (Hprobe : select_probe (length l) 0 l w2'
                   = Ret (Some (SUCCESS, j), store_slot j (Some v) l)
                       (after_receive (channel e) ch2 w2')).
  { apply (select_probe_first s l w2' j e SUCCESS (Some v) _ HReg3 Hj
             Hprobe_e ltac:(discriminate) j (length l) 0%nat); [lia| |].
    - by apply lookup_lt_Some in Hj.
    - apply (earlier_entries_block s l w1 w2' (channel e) j HReg3 Hwb1);
        [|done].
      intros c0 Hc0. simpl. by rewrite lookup_insert_ne. }
  destruct (select_loop_hit s l w2' SUCCESS j _ _ passes HReg3 Hprobe)
    as (w3 & Hloop & Habs & Hall3).
  exists w1, w2, w3. split; [done|]. split; [done|]. split; [done|].
  split; [|split; [done | by apply world_ready_AllReady]].
  unfold channel_select_wake, bind, sem_wait. rewrite Hposted.
  rewrite Nat2Z.id. fold w2'. rewrite Hloop. do 4 f_equal.
  unfold store_slot. by rewrite Hj, Hrecv.
Qed.

Lemma select_woken_by_send_witness :
  let w := demo_world3 in
  let l := demo_entries in
  exists w1 w2 w3,
    channel_select 2 (Z.of_nat (length l)) (Some l) w
    = Wait (OnSem (sem_local_addr w)) w1
    /\ channel_send 2 9 false w1 = Ret SUCCESS w2
    /\ sems w2 !! sem_local_addr w = Some 1%nat
    /\ channel_select_wake 2 (sem_local_addr w) (Z.of_nat (length l)) l w2
       = Ret (Some (SUCCESS, Some (Z.of_nat 1),
                    <[1%nat := {| channel := 2; is_send := false;
                                  data := 9 |}]> l)) w3
    /\ token_absent (sem_local_addr w) w3
    /\ world_ready w3 = true.
Proof.
  intros w l.
  apply (select_woken_by_send w l 1 1
           {| channel := 2; is_send := false; data := 0 |}
           (demo_chan [] false) 9);
    [vm_compute; reflexivity | vm_compute; reflexivity
     | vm_compute; reflexivity | reflexivity | vm_compute; reflexivity
     | reflexivity | reflexivity | | reflexivity | reflexivity].
  intros [|j'] e' Hlt Hl; [|lia]. injection Hl as <-. discriminate.
Defined.

(** X22.  A select call that waits is woken by [channel_close].  In
    the same setting, let entry [j] be the first entry that names a
    given channel.  Then [channel_select] waits; [channel_close] on
    that channel by another thread returns [SUCCESS]; resumed, the
    select call returns [CLOSED_ERROR] with [j] in [*selected_index],
    its entries unchanged, and its token is in no list any more. *)
Theorem select_woken_by_close (w : world) (l : list select_t) (passes : nat)
  (j : nat) (e : select_t) :
  world_ready w = true ->
  lists_ok w = true ->
  entries_valid w l = true ->
  forallb id (oracle w) = true ->
  forallb (would_block w) l = true ->
  l !! j = Some e ->
  (forall j' e', (j' < j)%nat -> l !! j' = Some e' ->
                 channel e' ≠ channel e) ->
  exists w1 w2 w3,
    channel_select (S passes) (Z.of_nat (length l)) (Some l) w
    = Wait (OnSem (sem_local_addr w)) w1
    /\ channel_close (channel e) w1 = Ret SUCCESS w2
    /\ channel_select_wake (S passes) (sem_local_addr w)
         (Z.of_nat (length l)) l w2
       = Ret (Some (CLOSED_ERROR, Some (Z.of_nat j), l)) w3
    /\ token_absent (sem_local_addr w) w3
    /\ world_ready w3 = true.
Proof.
  intros Hr Hlists Hv Hoall Hwb Hj Hfirst.
  apply world_ready_AllReady in Hr.
  assert (Hne : l ≠ []) by (intros ->; done).
  destruct (select_waiting_state w l passes Hr Hlists Hv Hoall Hwb Hne)
    as (w1 & Hwait & HReg1 & Hzero & Hev & Hwb1 & Htidy & Hhook).
  set (s := sem_local_addr w) in *.
  pose proof (list_elem_of_lookup_2 _ _ _ Hj) as Hin.
  destruct (reg_valid _ _ _ HReg1 _ _ (target_of_lookup l j e Hj))
    as [ch1 Hch1].
  pose proof (Hwb1 e Hin) as Hwbe.
  apply (would_block_Ready w1 e ch1 Hch1) in Hwbe as [Hop1 _].
  pose proof (reg_ready _ _ _ HReg1 _ _ Hch1) as HR1.
  pose proof (channel_close_open w1 _ ch1 HR1 Hop1) as Hclose.
  set (w2 := after_close (channel e) ch1 w1) in *.
  set (ch2 := set_closed true ch1).
  (* the close posts the token *)
  assert (Hposted : exists k, sems w2 !! s = Some (S k)).
  { subst w2. unfold after_close. simpl.
    rewrite !notified_lookup
      by (apply (tidy_count s);
          [apply (Htidy _ ch1 false Hch1) || apply (Htidy _ ch1 true Hch1)]).
    rewrite Hzero. simpl.
    specialize (Hhook e Hin). unfold reg in Hhook. rewrite Hch1 in Hhook.
    assert (Hpos : (0 < occurrences s (tokens (send_list ch1))
                        + occurrences s (tokens (receive_list ch1)))%nat).
    { destruct (is_send e); simpl in Hhook.
      - destruct (occurrences s (tokens (send_list ch1))) eqn:Ho1; [|lia].
        by apply occurrences_zero in Ho1.
      - destruct (occurrences s (tokens (receive_list ch1))) eqn:Ho1; [|lia].
        by apply occurrences_zero in Ho1. }
    destruct (occurrences s (tokens (send_list ch1))
              + occurrences s (tokens (receive_list ch1)))%nat
      as [|k] eqn:Hk; [lia|].
    by exists k. }
  destruct Hposted as [k Hposted].
  assert (HReg2 : Registered s l w2).
  { apply (Registered_transfer s l w1 _ ch1); try done.
    - intros t Ht. by apply sems_kept_notified, sems_kept_notified.
    - by apply Ready_after_close. }
  pose proof (sem_wait_Registered s l w2 HReg2) as Hw.
  unfold sem_wait in Hw. rewrite Hposted in Hw. destruct Hw as [HReg3 _].
  set (w2' := {| chans := chans w2; sems := <[s := k]> (sems w2);
                 oracle := oracle w2 |}) in *.
  assert (Hch2 : chans w2' !! channel e = Some ch2)
    by (simpl; apply lookup_insert_eq).
  pose proof (reg_ready _ _ _ HReg3 _ _ Hch2) as HR2.
  pose proof (probe_closed w2' e ch2 HR2 eq_refl) as Hprobe_e.
  assert (Hprobe : select_probe (length l) 0 l w2'
                   = Ret (Some (CLOSED_ERROR, j), store_slot j None l) w2').
  { apply (select_probe_first s l w2' j e CLOSED_ERROR None _ HReg3 Hj
             Hprobe_e ltac:(discriminate) j (length l) 0%nat); [lia| |].
    - by apply lookup_lt_Some in Hj.
    - apply (earlier_entries_block s l w1 w2' (channel e) j HReg3 Hwb1);
        [|done].
      intros c0 Hc0. simpl. by rewrite lookup_insert_ne. }
  destruct (select_loop_hit s l w2' CLOSED_ERROR j _ _ passes HReg3 Hprobe)
    as (w3 & Hloop & Habs & Hall3).
  exists w1, w2, w3. split; [done|]. split; [done|].
  split; [|split; [done | by apply world_ready_AllReady]].
  unfold channel_select_wake, bind, sem_wait. rewrite Hposted.
  rewrite Nat2Z.id. fold w2'. by rewrite Hloop.
Qed.

Lemma select_woken_by_close_witness :
  let w := demo_world3 in
  let l := demo_entries in
  exists w1 w2 w3,
    channel_select 2 (Z.of_nat (length l)) (Some l) w
    = Wait (OnSem (sem_local_addr w)) w1
    /\ channel_close 1 w1 = Ret SUCCESS w2
    /\ channel_select_wake 2 (sem_local_addr w) (Z.of_nat (length l)) l w2
       = Ret (Some (CLOSED_ERROR, Some (Z.of_nat 0), l)) w3
    /\ token_absent (sem_local_addr w) w3
    /\ world_ready w3 = true.
Proof.
  intros w l.
  apply (select_woken_by_close w l 1 0
           {| channel := 1; is_send := false; data := 0 |});
    [vm_compute; reflexivity | vm_compute; reflexivity
     | vm_compute; reflexivity | reflexivity | vm_compute; reflexivity
     | reflexivity |].
  intros j' e' Hlt Hl. lia.
Defined.

(** ** A select call whose registration fails *)

Lemma notified_absent l sm t :
  t ∉ tokens l -> notified l sm !! t = sm !! t.
Proof.
  intros Ht. unfold notified. destruct (list_count l =? 0); [done|].
  rewrite post_all_lookup. apply occurrences_zero in Ht. rewrite Ht.
  destruct (sm !! t); simpl; [f_equal; lia | done].
Qed.

(** The worlds a send, a receive or a close can leave. *)
Lemma transfer_worlds w x :
  AllReady w -> is_transfer x = true -> call_ready w x ->
  exists w',
    api_world x w = Some w'
    /\ (w' = w
        \/ exists c ch,
             chans w !! c = Some ch
             /\ ((exists v, w' = after_send c ch v w
                            /\ buffer_current_size (buffer ch)
                               ≠ buffer_capacity (buffer ch))
                 \/ w' = after_receive c ch w
                 \/ w' = after_close c ch w)).
Proof.
  intros Hr Ht Hx.
  destruct x as [c v b|c v|c b|c|c|p n l|p s n l]; try done;
    cbn [api_world call_ready] in Hx |- *;
    destruct Hx as [ch H]; pose proof (Hr c ch H) as HR; pose proof HR as [];
    destruct (closed ch) eqn:Hcl.
  - rewrite (channel_send_closed w c ch v b) by done. eauto.
  - rewrite (channel_send_open w c ch v b HR Hcl).
    destruct (Z.eqb_spec (buffer_current_size (buffer ch))
                (buffer_capacity (buffer ch))).
    + destruct b; simpl; eauto.
    + simpl. eexists. split; [done|]. right. exists c, ch. eauto.
  - destruct (channel_wake_closed w c ch v H) as [-> _]; [done..|].
    simpl. eauto.
  - rewrite (channel_send_wake_open w c ch v HR Hcl).
    destruct (Z.eqb_spec (buffer_current_size (buffer ch))
                (buffer_capacity (buffer ch))).
    + simpl; eauto.
    + simpl. eexists. split; [done|]. right. exists c, ch. eauto.
  - rewrite (channel_receive_closed w c ch b) by done. eauto.
  - rewrite (channel_receive_open w c ch b HR Hcl).
    destruct (buf_items (buffer ch)).
    + destruct b; simpl; eauto.
    + simpl. eexists. split; [done|]. right. exists c, ch. eauto.
  - destruct (channel_wake_closed w c ch 0 H) as [_ ->]; [done..|].
    simpl. eauto.
  - rewrite (channel_receive_wake_open w c ch HR Hcl).
    destruct (buf_items (buffer ch)).
    + simpl; eauto.
    + simpl. eexists. split; [done|]. right. exists c, ch. eauto.
  - rewrite (channel_close_closed w c ch) by done. eauto.
  - rewrite (channel_close_open w c ch HR Hcl). simpl.
    eexists. split; [done|]. right. exists c, ch. eauto.
Qed.

(** A send, a receive or a close posts no semaphore that is in no
    list, and leaves the lists and the set of channels as they are. *)
Lemma transfer_step w x s :
  AllReady w -> token_absent s w -> is_transfer x = true ->
  call_ready w x ->
  exists w',
    api_world x w = Some w'
    /\ sems w' !! s = sems w !! s
    /\ AllReady w'
    /\ token_absent s w'
    /\ forall c, is_Some (chans w' !! c) <-> is_Some (chans w !! c).
Proof.
  intros Hr Habs Ht Hx.
  destruct (transfer_worlds w x Hr Ht Hx) as (w' & Hrun & Hw').
  exists w'. split; [done|].
  destruct Hw' as [->|(c & ch & H & Hw')]; [done|].
  assert (Hs : forall snd, s ∉ tokens (get_list snd ch)).
  { intros snd. specialize (Habs c snd). unfold reg in Habs.
    by rewrite H in Habs. }
  assert (Hgen : forall ch' sm,
            send_list ch' = send_list ch ->
            receive_list ch' = receive_list ch ->
            w' = upd_chan c ch' (set_sems sm w) ->
            token_absent s w'
            /\ forall c0, is_Some (chans w' !! c0)
                          <-> is_Some (chans w !! c0)).
  { intros ch' sm Hsl Hrl ->. split.
    - intros c0 snd. unfold reg. simpl. rewrite lookup_insert.
      case_decide as Ec.
      + replace (tokens (get_list snd ch')) with (tokens (get_list snd ch))
          by (destruct snd; simpl; congruence).
        apply Hs.
      + apply (Habs c0 snd).
    - intros c0. simpl. rewrite lookup_insert. case_decide as Ec; [|done].
      subst c0. rewrite H. split; by eexists. }
  destruct Hw' as [(v & Hw' & Hroom)|[Hw'|Hw']].
  - split; [|split].
    + subst w'. simpl. apply notified_absent, (Hs false).
    + subst w'. by apply AllReady_after_send.
    + by apply (Hgen (set_buffer (pushed v (buffer ch)) ch)
                  (notified (receive_list ch) (sems w))).
  - split; [|split].
    + subst w'. simpl. apply notified_absent, (Hs true).
    + subst w'. by apply AllReady_after_receive.
    + by apply (Hgen (set_buffer (popped (buffer ch)) ch)
                  (notified (send_list ch) (sems w))).
  - split; [|split].
    + subst w'. simpl. rewrite !notified_absent; [done|apply (Hs true)|apply (Hs false)].
    + subst w'. by apply AllReady_after_close.
    + by apply (Hgen (set_closed true ch)
                  (notified (receive_list ch)
                     (notified (send_list ch) (sems w)))).
Qed.

Lemma transfer_steps s xs :
  forall w,
    AllReady w -> token_absent s w ->
    Forall (fun x => is_transfer x = true /\ call_ready w x) xs ->
    exists w',
      api_worlds xs w = Some w'
      /\ sems w' !! s = sems w !! s
      /\ AllReady w'
      /\ token_absent s w'.
Proof.
  induction xs as [|x xs IH]; intros w Hr Habs Hxs; [simpl; eauto|].
  apply Forall_cons in Hxs as [[Ht Hx] Hxs].
  destruct (transfer_step w x s Hr Habs Ht Hx)
    as (w1 & Hrun & Hsem & Hr1 & Habs1 & Hdom).
  destruct (IH w1 Hr1 Habs1) as (w' & Hrun' & Hsem' & Hr' & Habs').
  - eapply Forall_impl; [exact Hxs|]. intros y [Hy Hc]. split; [done|].
    destruct y; try done; cbn [call_ready] in Hc |- *; by apply Hdom.
  - exists w'. cbn [api_worlds]. rewrite Hrun.
    split; [done|]. split; [congruence|done].
Qed.

(** The body of the registration loop when the allocation of the node
    fails: the list is left as it is. *)
Lemma register_entry_unalloc w s e ch :
  Ready w (channel e) ch ->
  s ∉ tokens (get_list (is_send e) ch) ->
  hd true (oracle w) = false ->
  select_register_entry s e w
  = Ret tt (match get_list (is_send e) ch with
            | Some _ => set_oracle (tail (oracle w)) w
            | None => w
            end).
Proof.
  intros HR Hs Ho.
  pose proof (Ready_list_mutex w _ ch (is_send e) HR) as Hm.
  pose proof (ready_lookup _ _ _ HR) as Hch.
  apply list_find_None in Hs.
  assert (Hsame : forall x, get_list (is_send e) ch = x ->
                            set_list (is_send e) x ch = ch).
  { intros x <-. by destruct ch, (is_send e). }
  unfold select_register_entry.
  rewrite (world_shape (channel e) ch w) at 1 by done.
  rewrite bind_lock, bind_get_chan, get_list_set_mutex, Hs by done.
  destruct (get_list (is_send e) ch) as [x|] eqn:Hx; cbn [list_insert].
  - rewrite !bind_bind.
    assert (Hmal : forall w0, oracle w0 = oracle w ->
              malloc w0 = Ret false (set_oracle (tail (oracle w)) w0)).
    { intros w0 E0. unfold malloc, next_outcome. rewrite E0.
      by destruct (oracle w) as [|[] rest] eqn:E; simpl in Ho. }
    rewrite (bind_run _ _ _ _ _
               (Hmal (upd_chan (channel e)
                        (set_mutex (list_mutex (is_send e)) MutexHeld ch) w)
                  eq_refl)).
    rewrite bind_ret.
    change (set_oracle ?o (upd_chan ?c ?y w))
      with (upd_chan c y (set_oracle o w)).
    rewrite bind_put_chan, bind_unlock by (by destruct (is_send e)).
    rewrite unlock_after_set_list, (Hsame _ eq_refl) by done.
    by rewrite upd_chan_id.
  - rewrite bind_bind, bind_ret.
    rewrite bind_put_chan, bind_unlock by (by destruct (is_send e)).
    rewrite unlock_after_set_list, (Hsame _ eq_refl) by done.
    by rewrite upd_chan_id.
Qed.

(** When every allocation fails, the registration loop changes no
    list. *)
Lemma register_all_unalloc s l w :
  AllReady w -> Valid w l -> token_absent s w ->
  (forall k, (k < length l)%nat -> oracle w !! k = Some false) ->
  exists w',
    for_each_entry (length l) 0 l (select_register_entry s) w = Ret tt w'
    /\ chans w' = chans w /\ sems w' = sems w.
Proof.
  intros Hr Hv Habs Ho.
  destruct (for_each_entry_inv
              (fun j w0 =>
                 chans w0 = chans w /\ sems w0 = sems w
                 /\ exists k, (k <= j)%nat /\ oracle w0 = drop k (oracle w))
              l (select_register_entry s)) with (n := length l)
           (i := 0%nat) (w := w) as (w' & Hrun & Hinv).
  - intros j e w0 Hj (Ec & Es & k & Hk & Eo).
    assert (Hr0 : AllReady w0).
    { apply (AllReady_same w); [done| |done]. intros t. by rewrite Es. }
    destruct (Hv _ _ (target_of_lookup l j e Hj)) as [ch Hch].
    assert (Hch0 : chans w0 !! channel e = Some ch) by (by rewrite Ec).
    assert (Hs : s ∉ tokens (get_list (is_send e) ch)).
    { specialize (Habs (channel e) (is_send e)). unfold reg in Habs.
      by rewrite Hch in Habs. }
    assert (Hk' : oracle w !! k = Some false).
    { apply Ho. apply lookup_lt_Some in Hj. lia. }
    assert (Hhd : hd true (oracle w0) = false).
    { rewrite Eo. rewrite <- (Nat.add_0_r k), <- lookup_drop in Hk'.
      by destruct (drop k (oracle w)); simplify_eq/=. }
    rewrite (register_entry_unalloc w0 s e ch (Hr0 _ _ Hch0) Hs Hhd).
    eexists. split; [reflexivity|].
    destruct (get_list (is_send e) ch); simpl.
    + split; [done|]. split; [done|]. exists (S k). split; [lia|].
      rewrite Eo. clear. revert k.
      induction (oracle w) as [|b o IH]; intros [|k]; simpl; done.
    + split; [done|]. split; [done|]. exists k. split; [lia | done].
  - lia.
  - split; [done|]. split; [done|]. exists 0%nat. split; [lia | done].
  - exists w'. destruct Hinv as (Ec & Es & _). done.
Qed.

(** X23.  A node that cannot be allocated goes unnoticed by
    [channel_select]: [list_insert] returns nothing, and the call does
    not look at the list again before it waits.  In a world in which no
    thread is inside a call, when [sem_init] succeeds, the allocation
    of every node fails and the operation of every entry would block,
    [channel_select] waits on its semaphore with its token in no list:
    the channels are as they were.  No send, receive or close of
    another thread posts that semaphore then: after every sequence of
    such calls on existing channels its count is still 0 and the token
    is still in no list. *)
Theorem select_unregistered_is_not_posted (w : world) (l : list select_t)
  (passes : nat) (xs : list api_call) :
  world_ready w = true ->
  entries_valid w l = true ->
  l ≠ [] ->
  hd true (oracle w) = true ->
  (forall k, (k < length l)%nat -> tail (oracle w) !! k = Some false) ->
  forallb (would_block w) l = true ->
  Forall (fun x => is_transfer x = true /\ call_ready w x) xs ->
  exists w1 w2,
    channel_select (S passes) (Z.of_nat (length l)) (Some l) w
    = Wait (OnSem (sem_local_addr w)) w1
    /\ chans w1 = chans w
    /\ sems w1 = <[sem_local_addr w := 0%nat]> (sems w)
    /\ api_worlds xs w1 = Some w2
    /\ sems w2 !! sem_local_addr w = Some 0%nat
    /\ token_absent (sem_local_addr w) w2
    /\ world_ready w2 = true.
Proof.
  intros Hr Hv Hne Ho Hfail Hwb Hxs. apply world_ready_AllReady in Hr.
  pose proof (entries_valid_Valid w l Hv) as Hval.
  destruct (channel_select_run w l Hr Hval Hne Ho)
    as (w1 & Hreg & HReg1 & Hzero & _ & Hsel).
  set (s := sem_local_addr w) in *.
  pose proof (Registered_after_sem_init w l Hr Hval) as HReg0. fold s in HReg0.
  destruct (register_all_unalloc s l (after_sem_init s w))
    as (w1' & Hrun' & Ec & Es).
  { apply (reg_ready _ _ _ HReg0). }
  { apply (reg_valid _ _ _ HReg0). }
  { intros c snd. apply (fresh_token_absent w Hr c snd). }
  { exact Hfail. }
  unfold select_registration in Hreg.
  rewrite (bind_run _ _ _ _ _ (sem_init_run s w Ho)) in Hreg.
  rewrite Hrun' in Hreg. injection Hreg as ->.
  simpl in Ec, Es.
  assert (Hwb1 : forall e, e ∈ l -> would_block w1 e = true).
  { intros e He. rewrite (would_block_same_chans w w1 e Ec).
    rewrite forallb_forall in Hwb. by apply Hwb, list_elem_of_In. }
  assert (Habs1 : token_absent s w1).
  { intros c snd. unfold reg. rewrite Ec.
    apply (fresh_token_absent w Hr c snd). }
  destruct (transfer_steps s xs w1 (reg_ready _ _ _ HReg1) Habs1)
    as (w2 & Hrun2 & Hsem2 & Hr2 & Habs2).
  { eapply Forall_impl; [exact Hxs|]. intros y [Hy Hc]. split; [done|].
    destruct y; try done; cbn [call_ready] in Hc |- *; by rewrite Ec. }
  exists w1, w2. split; [|split; [done|split; [done|split; [done|split]]]].
  - rewrite Hsel.
    rewrite (select_loop_waits s l 0%nat (S passes) w1 HReg1 Hwb1 Hzero)
      by lia.
    f_equal. apply world_eq; simpl; [done | by apply insert_id | done].
  - congruence.
  - split; [done|]. by apply world_ready_AllReady.
Qed.

Lemma select_unregistered_is_not_posted_witness :
  let w := set_oracle [true; false; false] demo_world3 in
  let l := demo_entries in
  let xs := [CallSend 2 9 false; CallClose 1] in
  exists w1 w2,
    channel_select 2 (Z.of_nat (length l)) (Some l) w
    = Wait (OnSem (sem_local_addr w)) w1
    /\ chans w1 = chans w
    /\ sems w1 = <[sem_local_addr w := 0%nat]> (sems w)
    /\ api_worlds xs w1 = Some w2
    /\ sems w2 !! sem_local_addr w = Some 0%nat
    /\ token_absent (sem_local_addr w) w2
    /\ world_ready w2 = true.
Proof.
  intros w l xs.
  apply (select_unregistered_is_not_posted w l 1 xs);
    [vm_compute; reflexivity | vm_compute; reflexivity | discriminate
     | reflexivity | | vm_compute; reflexivity | ].
  - intros [|[|k]] Hk; [reflexivity | reflexivity | simpl in Hk; lia].
  - repeat constructor; eexists; reflexivity.
Defined.

(** * C8: what channel_destroy releases *)

(** ** channel_destroy on the store *)

Section BlockRun.
Context {A : Type}.
Implicit Types (h : Blocks.store) (k : Blocks.B A).

Lemma with_blocks_same h : Blocks.with_blocks (Nodes.env h) h = h.
Proof. by destruct h. Qed.









End BlockRun.

Section ListFrames.
Context {E : Type}.
Implicit Types (h : Nodes.heap E) (cells : list (ptr * ptr)).




Lemma list_freed_header h l cells x :
  Nodes.list_at (list_freed l cells (Some x) h) !! l = None.
Proof.
  simpl. rewrite lookup_delete_eq. done.
Qed.




End ListFrames.







(** The store of the example after the channel is destroyed holds
    nothing. *)
Example demo_channel_freed :
  channel_freed 1 (demo_block true) (demo_chan_with [7] true) [(10, 7)] []
    (demo_store1 true) = empty_store.
Proof. vm_compute. reflexivity. Qed.


(** A channel that is created, closed and destroyed leaves nothing in
    the store. *)
Example create_close_destroy :
  Nodes.bind (Blocks.channel_create 2) (fun c =>
  Nodes.bind (Blocks.set_closed c true) (fun _ =>
  Blocks.channel_destroy 2 c)) empty_store
  = Nodes.Done SUCCESS empty_store.
Proof. vm_compute. reflexivity. Qed.

(** The channel [channel_create] makes in the empty store is the one
    the channel model makes in the empty world. *)
Example create_in_both :
  match Blocks.channel_create 2 empty_store, channel_create 2 empty_world with
  | Nodes.Done c h, Ret c' w =>
      c = c'
      /\ match chans w !! c' with
         | Some ch => chan_rep h c ch [] [] = true
         | None => False
         end
  | _, _ => False
  end.
Proof. vm_compute. split; reflexivity. Qed.
